(** * MiroFish report view: log ingestion, text extractors and markdown renderer

    A shallow embedding of the script part of
    [frontend/src/components/Step4Report.vue] and of its sibling variant
    (the second view component of the repository), together with the
    properties of the specification that concern them.

    Definitions:
    - [Js]: JavaScript strings as sequences of UTF-16 code units, the
      String and Array methods the component calls, values, completions.
    - [Double]: the binary64 arithmetic of the completion percentage.
    - [Regex]: the backtracking matcher of ECMAScript regular expressions
      (continuation style, as in the language definition) and the String
      methods built on it: [match], [matchAll], [replace], [split].
    - [Effects]: a state and exception monad, because the extractors
      mutate [result] inside [try]/[catch].
    - [Patterns], [InsightForge], [Panorama], [QuickSearch], [Interview],
      [InterviewAlt]: the four extractors, [parseInterview] in the two
      forms it has in the two components.
    - [Markdown]: [renderMarkdown], pass by pass.
    - [Report]: the reactive state of the component, the fold of
      [fetchAgentLog] over new entries, [fetchConsoleLog], the computed
      [progressPercent], the [watch] on [reportId].
    - [InterviewDisplay]: the helpers of the component that shows an
      interview, which cut an answer and split it question by question.
    - [View]: the status, the counters, the toggles and the helpers of
      the template.
    - [Timers]: the requests of a polling stream that wait for their
      answer.
    - [Samples]: entries, responses and texts used in examples.

    Properties: the matcher (groups that always take part, texts without
    the literal a pattern starts with, fuel of the loops), the extractors
    (C2, C6, C7), the fold (C1, C8, C10), polling (C4), the change of
    report (C9), the renderer (C3) and the percentage (C5); then what
    the code shows besides (X1 and following): the logs and the state
    over a run of polls, the toggles, the helpers of the template, texts
    without marks, answers split by question, what the extractors
    keep. *)

From Stdlib Require Import ZArith NArith List String Ascii Lia.
From Stdlib Require Import QArith Qround Qabs Qpower Lqa Floats.SpecFloat.
From stdpp Require Import base option list gmap strings pretty.

Set Default Proof Using "Type".
Local Open Scope N_scope.

(* ===================================================================== *)
(** * JavaScript strings and values *)
(* ===================================================================== *)

Module Js.

(** A JavaScript string is a sequence of 16-bit code units. *)
Definition code_unit := N.
Definition jstring := list code_unit.

(** ** Literals

    Source literals are written as Rocq strings (UTF-8) and decoded to
    UTF-16 code units. *)

Definition cont_bits (b : N) : N := b mod 64.

Fixpoint utf8_decode (bs : list N) : list N :=
  match bs with
  | [] => []
  | b0 :: t0 =>
    if b0 <? 128 then b0 :: utf8_decode t0
    else match t0 with
    | [] => [65533]
    | b1 :: t1 =>
      if b0 <? 224 then ((b0 mod 32) * 64 + cont_bits b1) :: utf8_decode t1
      else match t1 with
      | [] => [65533]
      | b2 :: t2 =>
        if b0 <? 240
        then ((b0 mod 16) * 4096 + cont_bits b1 * 64 + cont_bits b2) :: utf8_decode t2
        else match t2 with
        | [] => [65533]
        | b3 :: t3 =>
          ((b0 mod 8) * 262144 + cont_bits b1 * 4096 + cont_bits b2 * 64 + cont_bits b3)
            :: utf8_decode t3
        end
      end
    end
  end.

Definition utf16_encode (cp : N) : list code_unit :=
  if cp <? 65536 then [cp]
  else let c := cp - 65536 in [55296 + c / 1024; 56320 + c mod 1024].

Definition utf16 (s : string) : jstring :=
  flat_map utf16_encode (utf8_decode (map N_of_ascii (list_ascii_of_string s))).

(** The double quote and the line feed, which the literals below do not
    contain as such. *)
Definition dquote : code_unit := 34.
Definition LF : code_unit := 10.

(** The escape [\n] of a source literal. *)
Fixpoint unescape (s : jstring) : jstring :=
  match s with
  | 92 :: 110 :: t => LF :: unescape t
  | c :: t => c :: unescape t
  | [] => []
  end.

(** [str s] is the source literal ['s'], in which [\n] is a line feed. *)
Definition str (s : string) : jstring := unescape (utf16 s).

(** [strq s] is the source literal ['s'] in which every apostrophe of [s]
    stands for a double quote: [strq "<p class='md-p'>"] is the string
    [<p class="md-p">].  No literal of the source that is written this way
    holds an apostrophe of its own. *)
Definition strq (s : string) : jstring :=
  map (fun c => if c =? 39 then dquote else c) (str s).

(** ** Character classes of the language *)

(** LineTerminator: LF, CR, LS, PS. *)
Definition is_line_terminator (c : code_unit) : bool :=
  (c =? 10) || (c =? 13) || (c =? 8232) || (c =? 8233).

(** WhiteSpace and LineTerminator together: what [\s] matches and what
    [trim] removes. *)
Definition is_white_space (c : code_unit) : bool :=
  (c =? 9) || (c =? 10) || (c =? 11) || (c =? 12) || (c =? 13) || (c =? 32)
  || (c =? 160) || (c =? 5760) || ((8192 <=? c) && (c <=? 8202))
  || (c =? 8232) || (c =? 8233) || (c =? 8239) || (c =? 8287)
  || (c =? 12288) || (c =? 65279).

Definition is_digit (c : code_unit) : bool := (48 <=? c) && (c <=? 57).

Definition is_word (c : code_unit) : bool :=
  is_digit c || ((65 <=? c) && (c <=? 90)) || ((97 <=? c) && (c <=? 122)) || (c =? 95).

(** ** String methods *)

Fixpoint strip_prefix (p s : jstring) : option jstring :=
  match p, s with
  | [], _ => Some s
  | _ :: _, [] => None
  | a :: p', b :: s' => if a =? b then strip_prefix p' s' else None
  end.

(** [s.startsWith(p)] *)
Definition startsWith (s p : jstring) : bool :=
  match strip_prefix p s with Some _ => true | None => false end.

(** [s.includes(p)] *)
Fixpoint includes (s p : jstring) : bool :=
  startsWith s p || match s with [] => false | _ :: t => includes t p end.

Fixpoint trimStart (s : jstring) : jstring :=
  match s with
  | c :: t => if is_white_space c then trimStart t else s
  | [] => []
  end.

Definition trimEnd (s : jstring) : jstring := rev (trimStart (rev s)).

(** [s.trim()] *)
Definition trim (s : jstring) : jstring := trimEnd (trimStart s).

(** [s.split(sep)] for a string separator.  [skip] counts the code units
    of a separator just found that are still to be passed over, [cur] is
    the piece being read, reversed. *)
Fixpoint split_go (sep : jstring) (skip : nat) (cur s : jstring) : list jstring :=
  match s with
  | [] => [rev cur]
  | c :: t =>
    match skip with
    | S k => split_go sep k cur t
    | O =>
      if startsWith s sep
      then rev cur :: split_go sep (Nat.pred (length sep)) [] t
      else split_go sep O (c :: cur) t
    end
  end.

Definition split (s sep : jstring) : list jstring :=
  match sep with
  | [] => map (fun c => [c]) s
  | _ :: _ => split_go sep O [] s
  end.

(** [s.substring(0, n)] *)
Definition substring0 (n : nat) (s : jstring) : jstring := take n s.

(** [a.slice(0, n)] and [a.slice(n)] on arrays. *)
Definition slice0 {A} (n : nat) (a : list A) : list A := take n a.
Definition slice_from {A} (n : nat) (a : list A) : list A := drop n a.

(** A string is truthy when it is not empty. *)
Definition truthy (s : jstring) : bool :=
  match s with [] => false | _ :: _ => true end.

(** ** Numbers

    The numbers of this component are counts read by [parseInt] from runs
    of decimal digits; they are kept exact (a double is exact below
    2^53). [NaN] is what [parseInt] gives when no digit is found. *)
Inductive number := Num (z : Z) | NaN.

Fixpoint digits_value (acc : N) (s : jstring) : N :=
  match s with
  | c :: t => if is_digit c then digits_value (10 * acc + (c - 48)) t else acc
  | [] => acc
  end.

(** [parseInt(s)] in radix 10: leading white space, an optional sign,
    then the longest run of digits.  The callers below pass runs of
    digits only, so that the [0x] prefix of the language never arises. *)
Definition parseInt (s : jstring) : number :=
  let s := trimStart s in
  let '(neg, s) :=
    match s with
    | 45 :: t => (true, t)
    | 43 :: t => (false, t)
    | _ => (false, s)
    end in
  match s with
  | c :: _ =>
    if is_digit c
    then let v := Z.of_N (digits_value 0 s) in Num (if neg then (- v)%Z else v)
    else NaN
  | [] => NaN
  end.

(** ** Values

    The payload handed to an extractor is whatever the log entry holds at
    [details.result]: any value of a JSON document, or [undefined] when
    the field is missing.  [VObject] stands for an object or an array;
    what it holds does not matter here, since none of its properties is a
    function. *)
Inductive value :=
| VUndefined
| VNull
| VBool (b : bool)
| VNumber (n : number)
| VString (s : jstring)
| VObject.


(** ** Completions

    A statement either completes normally or throws. *)
Inductive error := TypeError.

Inductive completion (A : Type) :=
| Normal (a : A)
| Throw (e : error).
Arguments Normal {A} a.
Arguments Throw {A} e.

#[global] Instance completion_fmap : FMap completion := λ A B f c,
  match c with
  | Normal a => Normal (f a)
  | Throw e => Throw e
  end.

End Js.

(* ===================================================================== *)
(** * Numbers as doubles *)
(* ===================================================================== *)

(** The arithmetic of [progressPercent] is done on binary64 numbers.  A
    number is represented by the rational it denotes; a quotient or a
    product is the exact one, rounded to the nearest number with a
    significand of 53 bits, ties to even.  Overflow and subnormal numbers
    are left out: the operands here are counts and the percentage made of
    them. *)
Module Double.
Local Open Scope Q_scope.

(** [floor (log2 x)] for [0 < x]. *)
Definition ilog2 (x : Q) : Z :=
  let k := (Z.log2 (Qnum x) - Z.log2 (Zpos (Qden x)))%Z in
  if Qle_bool (2 ^ k) x then k else (k - 1)%Z.

(** The nearest integer, the even one at a tie. *)
Definition nearest_even (x : Q) : Z :=
  let f := Qfloor x in
  match Qcompare (x - inject_Z f) (1 # 2) with
  | Lt => f
  | Gt => (f + 1)%Z
  | Eq => if Z.even f then f else (f + 1)%Z
  end.

Definition round53 (x : Q) : Q :=
  match Qnum x with
  | Z0 => 0
  | Zpos _ =>
    let e := (ilog2 x - 52)%Z in
    Qred (inject_Z (nearest_even (x / 2 ^ e)) * 2 ^ e)
  | Zneg _ =>
    let e := (ilog2 (- x) - 52)%Z in
    Qred (- (inject_Z (nearest_even (- x / 2 ^ e)) * 2 ^ e))
  end.

(** [a / b] and [a * b] *)
Definition div (a b : Q) : Q := round53 (a / b).
Definition mul (a b : Q) : Q := round53 (a * b).

(** [Math.round(x)]: the integer nearest to [x], the larger one at a
    tie. *)
Definition Math_round (x : Q) : Z := Qfloor (x + (1 # 2)).


(** ** The same operations in the binary64 format of the Standard
    Library, to compare with. *)
Definition prec : Z := 53.
Definition emax : Z := 1024.

Definition of_Z (z : Z) : spec_float := binary_normalize prec emax z 0 false.

Definition to_Q (x : spec_float) : option Q :=
  match x with
  | S754_zero _ => Some 0
  | S754_finite s m e => Some (Qred (inject_Z (if s then Z.neg m else Z.pos m) * 2 ^ e))
  | _ => None
  end.

Definition spec_div (a b : Z) : option Q := to_Q (SFdiv prec emax (of_Z a) (of_Z b)).

Definition spec_percent (c t : Z) : option Z :=
  Math_round <$> to_Q (SFmul prec emax (SFdiv prec emax (of_Z c) (of_Z t)) (of_Z 100)).

End Double.

(* ===================================================================== *)
(** * Regular expressions *)
(* ===================================================================== *)

Module Regex.
Import Js.

(** ** Syntax *)

Inductive cset :=
| CDot                              (* .       *)
| CDigit                            (* \d      *)
| CSpace                            (* \s      *)
| CWord                             (* \w      *)
| CAll                              (* [\s\S]  *)
| CNot (l : list code_unit)         (* [^...]  *)
| CRange (lo hi : code_unit).       (* [lo-hi] *)

Definition cset_mem (cs : cset) (c : code_unit) : bool :=
  match cs with
  | CDot => negb (is_line_terminator c)
  | CDigit => is_digit c
  | CSpace => is_white_space c
  | CWord => is_word c
  | CAll => true
  | CNot l => negb (existsb (N.eqb c) l)
  | CRange lo hi => (lo <=? c) && (c <=? hi)
  end.

Inductive regex :=
| Eps
| Chars (cs : cset)
| Lit (s : jstring)
| Seq (r1 r2 : regex)
| Alt (r1 r2 : regex)
| Repeat (greedy : bool) (min : nat) (max : option nat) (r : regex)
| Group (i : nat) (r : regex)       (* ( ... ), the i-th of the pattern *)
| Lookahead (r : regex)             (* (?= ... ) *)
| Bol                               (* ^ *)
| Eol.                              (* $ *)

Declare Scope regex_scope.
Delimit Scope regex_scope with re.
Bind Scope regex_scope with regex.
Infix "·" := Seq (at level 41, right associativity) : regex_scope.
Infix "∥" := Alt (at level 42, right associativity) : regex_scope.

Definition Star r := Repeat true 0 None r.          (* r*  *)
Definition Plus r := Repeat true 1 None r.          (* r+  *)
Definition Opt r := Repeat true 0 (Some 1%nat) r.   (* r?  *)
Definition StarLazy r := Repeat false 0 None r.     (* r*? *)
Definition PlusLazy r := Repeat false 1 None r.     (* r+? *)

(** The capture groups of a pattern. *)
Fixpoint groups (r : regex) : list nat :=
  match r with
  | Seq r1 r2 | Alt r1 r2 => groups r1 ++ groups r2
  | Repeat _ _ _ r | Lookahead r => groups r
  | Group i r => i :: groups r
  | _ => []
  end.

Definition ngroups (r : regex) : nat := foldr Nat.max O (groups r).

(** ** Matcher state

    The input is cut at the current index: [pre] is what lies before it,
    reversed, [suf] what lies after. [caps] maps a group to the substring
    it captured last; a group that did not take part is absent
    ([undefined]). *)

Definition captures := list (nat * jstring).

Record mstate := MState {
  pre : jstring;
  suf : jstring;
  caps : captures
}.

Definition cap (i : nat) (c : captures) : option jstring :=
  snd <$> List.find (fun p => Nat.eqb (fst p) i) c.

Definition clear_caps (l : list nat) (c : captures) : captures :=
  List.filter (fun p => negb (existsb (Nat.eqb (fst p)) l)) c.

Definition set_cap (i : nat) (s : jstring) (c : captures) : captures :=
  (i, s) :: clear_caps [i] c.

(** What was read between state [x] and a later state [y]. *)
Definition consumed (x y : mstate) : jstring :=
  rev (take (length (pre y) - length (pre x))%nat (pre y)).

Definition at_bol (multiline : bool) (x : mstate) : bool :=
  match pre x with
  | [] => true
  | c :: _ => multiline && is_line_terminator c
  end.

Definition at_eol (multiline : bool) (x : mstate) : bool :=
  match suf x with
  | [] => true
  | c :: _ => multiline && is_line_terminator c
  end.

Definition or_else {A} (a : option A) (b : unit -> option A) : option A :=
  match a with Some z => Some z | None => b tt end.

(** ** The matcher

    [rmatch ml r x k] matches [r] at [x] and hands every state in which
    [r] may end to the continuation [k], in the order of preference of
    the language; the first success of [k] is the result. *)

Definition cont := mstate → option mstate.
Definition matcher := mstate → cont → option mstate.

(** The loop of a quantifier (RepeatMatcher of the language definition)
    around the matcher [m] of its body, whose groups are [gs].  Each round
    forgets what the groups of the body captured before.  A round that is
    not required and reads nothing fails, so that a loop started with
    [fuel > mn + length (suf x)] never runs out of [fuel]. *)
Fixpoint repeat_loop (m : matcher) (gs : list nat) (greedy : bool) (k : cont)
    (fuel mn : nat) (mx : option nat) (x : mstate) {struct fuel} : option mstate :=
  match fuel with
  | O => None
  | S fuel' =>
    match mx with
    | Some O => k x
    | _ =>
      let d := λ y : mstate,
        if Nat.eqb mn 0 && Nat.eqb (length (suf y)) (length (suf x)) then None
        else repeat_loop m gs greedy k fuel' (Nat.pred mn) (Nat.pred <$> mx) y in
      let xr := MState (pre x) (suf x) (clear_caps gs (caps x)) in
      match mn with
      | S _ => m xr d
      | O =>
        if greedy then or_else (m xr d) (λ _, k x)
        else or_else (k x) (λ _, m xr d)
      end
    end
  end.

Fixpoint rmatch (ml : bool) (r : regex) (x : mstate) (k : cont) {struct r} : option mstate :=
  match r with
  | Eps => k x
  | Chars cs =>
    match suf x with
    | c :: t => if cset_mem cs c then k (MState (c :: pre x) t (caps x)) else None
    | [] => None
    end
  | Lit s =>
    match strip_prefix s (suf x) with
    | Some t => k (MState (rev s ++ pre x) t (caps x))
    | None => None
    end
  | Seq r1 r2 => rmatch ml r1 x (λ y, rmatch ml r2 y k)
  | Alt r1 r2 => or_else (rmatch ml r1 x k) (λ _, rmatch ml r2 x k)
  | Repeat greedy mn mx r' =>
    repeat_loop (rmatch ml r') (groups r') greedy k (mn + length (suf x) + 1)%nat mn mx x
  | Group i r' =>
    rmatch ml r' x (λ y, k (MState (pre y) (suf y) (set_cap i (consumed x y) (caps y))))
  | Lookahead r' =>
    match rmatch ml r' x Some with
    | Some y => k (MState (pre x) (suf x) (caps y))
    | None => None
    end
  | Bol => if at_bol ml x then k x else None
  | Eol => if at_eol ml x then k x else None
  end.

(** The groups that take part in every match of a pattern: those on its
    spine of concatenations, unless a later part of the pattern may forget
    them. *)
Fixpoint mandatory (r : regex) : list nat :=
  match r with
  | Seq r1 r2 =>
    List.filter (λ i, negb (existsb (Nat.eqb i) (groups r2))) (mandatory r1) ++ mandatory r2
  | Group i r => i :: mandatory r
  | _ => []
  end.

(** ** RegExp objects and [exec] *)

Record regexp := RegExp {
  source : regex;
  global : bool;       (* flag g *)
  multiline : bool     (* flag m *)
}.

(** A successful match: the text before it (reversed), the state at its
    end. *)
Record match_result := MatchResult {
  before : jstring;
  finish : mstate
}.

Definition whole (m : match_result) : jstring :=
  consumed (MState (before m) [] []) (finish m).

(** [m[i]]: the match itself for [i = 0], else what group [i] captured,
    [None] standing for [undefined]. *)
Definition group (m : match_result) (i : nat) : option jstring :=
  match i with
  | O => Some (whole m)
  | S _ => cap i (caps (finish m))
  end.

(** The first match at or after the current index. *)
Fixpoint search (ml : bool) (r : regex) (p s : jstring) : option match_result :=
  match rmatch ml r (MState p s []) Some with
  | Some y => Some (MatchResult p y)
  | None =>
    match s with
    | [] => None
    | c :: t => search ml r (c :: p) t
    end
  end.

Definition exec (re : regexp) (s : jstring) : option match_result :=
  search (multiline re) (source re) [] s.

(** The matches of a global pattern from the current index on, each
    starting where the previous one ended, one code unit further after an
    empty match. *)
Fixpoint matches_from (fuel : nat) (ml : bool) (r : regex) (p s : jstring)
  : list match_result :=
  match fuel with
  | O => []
  | S fuel' =>
    match search ml r p s with
    | None => []
    | Some m =>
      let y := finish m in
      m :: match whole m, suf y with
           | [], [] => []
           | [], c :: t => matches_from fuel' ml r (c :: pre y) t
           | _ :: _, _ => matches_from fuel' ml r (pre y) (suf y)
           end
    end
  end.

Definition all_matches (re : regexp) (s : jstring) : list match_result :=
  matches_from (S (length s)) (multiline re) (source re) [] s.

(** ** String methods taking a pattern *)

(** [s.match(re)] for a pattern without flag g. *)
Definition String_match (s : jstring) (re : regexp) : option match_result :=
  exec re s.

(** [s.match(re)] for a pattern with flag g: the matched substrings, or
    [null] when there is none. *)
Definition String_match_g (s : jstring) (re : regexp) : option (list jstring) :=
  match all_matches re s with
  | [] => None
  | l => Some (map whole l)
  end.

(** [s.matchAll(re)], read to its end. *)
Definition String_matchAll (s : jstring) (re : regexp) : list match_result :=
  all_matches re s.

(** The replacement text of a template (GetSubstitution): [$$], [$&] and
    [$n] for a group [n] of the pattern; a group that did not take part
    gives the empty string.  The templates of the source use no other
    form (two digits, text before or after the match, named groups). *)
Fixpoint substitution (n : nat) (m : match_result) (tmpl : jstring) : jstring :=
  match tmpl with
  | 36 :: 36 :: t => 36 :: substitution n m t
  | 36 :: 38 :: t => whole m ++ substitution n m t
  | 36 :: d :: t =>
    let i := N.to_nat (d - 48) in
    if is_digit d && Nat.leb 1 i && Nat.leb i n
    then default [] (group m i) ++ substitution n m t
    else 36 :: d :: substitution n m t
  | c :: t => c :: substitution n m t
  | [] => []
  end.

(** The text between the end of the previous match and match [m]. *)
Definition skipped (p : jstring) (m : match_result) : jstring :=
  consumed (MState p [] []) (MState (before m) [] []).

Fixpoint replace_from (ms : list match_result) (n : nat) (tmpl p s : jstring) : jstring :=
  match ms with
  | [] => s
  | m :: ms' =>
    let y := finish m in
    skipped p m ++ substitution n m tmpl ++ replace_from ms' n tmpl (pre y) (suf y)
  end.

(** [s.replace(re, tmpl)]: every match when the pattern has flag g, the
    first one otherwise. *)
Definition String_replace (s : jstring) (re : regexp) (tmpl : jstring) : jstring :=
  let ms := if global re then all_matches re s else option_list (exec re s) in
  replace_from ms (ngroups (source re)) tmpl [] s.

(** [s.split(re)] for a separator pattern without groups.  At each index
    the pattern is tried there only; an empty match at the start of the
    current piece is passed over. [skip] counts the code units of a
    separator just found that are still to be passed over, [cur] is the
    piece being read, reversed. *)
Fixpoint split_from (ml : bool) (r : regex) (skip : nat) (cur p s : jstring)
  : list jstring :=
  match s with
  | [] => [rev cur]
  | c :: t =>
    match skip with
    | S k => split_from ml r k cur (c :: p) t
    | O =>
      match rmatch ml r (MState p s []) Some with
      | None => split_from ml r O (c :: cur) (c :: p) t
      | Some y =>
        match (length (pre y) - length p)%nat, cur with
        | O, [] => split_from ml r O [c] (c :: p) t
        | O, _ :: _ => rev cur :: split_from ml r O [c] (c :: p) t
        | S k, _ => rev cur :: split_from ml r k [] (c :: p) t
        end
      end
    end
  end.

Definition String_split (s : jstring) (re : regexp) : list jstring :=
  match s with
  | [] =>
    match rmatch (multiline re) (source re) (MState [] [] []) Some with
    | Some _ => []
    | None => [[]]
    end
  | _ :: _ => split_from (multiline re) (source re) O [] [] s
  end.

(** ** Notions used to state the properties of the matcher *)

(** Group [i] has captured something in state [x]. *)
Definition defined (i : nat) (x : mstate) : Prop := is_Some (cap i (caps x)).

(** What a successful match has gone through: the continuation has
    succeeded on a state in which the groups [must] are defined and no
    group outside [gs] has been lost. *)
Definition reaches (must gs : list nat) (x : mstate) (k : cont) (z : mstate) : Prop :=
  ∃ y, k y = Some z
       ∧ (∀ i, In i must → defined i y)
       ∧ (∀ i, ¬ In i gs → defined i x → defined i y).

(** Two continuations that give the same result on the states at or
    after the index of [x]. *)
Definition agree_from (x : mstate) (k k' : cont) : Prop :=
  ∀ y, (length (suf y) ≤ length (suf x))%nat → k y = k' y.

(** A matcher that hands to its continuation only states at or after
    the one it starts from. *)
Definition forward (m : matcher) : Prop :=
  ∀ x k k', agree_from x k k' → m x k = m x k'.

(** The input of a state, and a state further on in the same input. *)
Definition text_of (x : mstate) : jstring := rev (pre x) ++ suf x.

Definition later (x y : mstate) : Prop :=
  text_of y = text_of x ∧ (length (pre x) ≤ length (pre y))%nat.

Definition advances (x : mstate) (k : cont) (z : mstate) : Prop :=
  ∃ y, k y = Some z ∧ later x y.

(** The literal a pattern starts with, its anchor. *)
Definition anchor (re : regexp) : option jstring :=
  match source re with
  | Seq (Lit a) _ => Some a
  | _ => None
  end.

Definition anchors_of (res : list regexp) : list jstring := omap anchor res.

(** No anchor of [res] occurs in [s]. *)
Definition has_none_of (res : list regexp) (s : jstring) : bool :=
  forallb (λ a, negb (includes s a)) (anchors_of res).

(** Every match of [r] reads one of the literals [lits]: one of them is
    part of a literal on each way through the pattern. *)
Fixpoint reads_one_of (lits : list jstring) (r : regex) : bool :=
  match r with
  | Lit s => existsb (includes s) lits
  | Seq r1 r2 => reads_one_of lits r1 || reads_one_of lits r2
  | Alt r1 r2 => reads_one_of lits r1 && reads_one_of lits r2
  | Repeat _ (S _) mx r' =>
    match mx with
    | Some O => false
    | _ => reads_one_of lits r'
    end
  | Group _ r' | Lookahead r' => reads_one_of lits r'
  | _ => false
  end.

(** None of [lits] occurs in [s]. *)
Definition lacks (lits : list jstring) (s : jstring) : bool :=
  forallb (λ l, negb (includes s l)) lits.


End Regex.

(* ===================================================================== *)
(** * Statements that mutate a record and may throw *)
(* ===================================================================== *)

Module Effects.
Import Js Regex.

(** A computation over a mutable record of type [S]: it ends normally
    with a value or throws, and in both cases leaves the record as the
    statements run so far have made it. *)
Definition M (S A : Type) : Type := S → completion A * S.

#[global] Instance M_ret {S} : MRet (M S) := λ A a s, (Normal a, s).

#[global] Instance M_bind {S} : MBind (M S) := λ A B f m s,
  match m s with
  | (Normal a, s') => f a s'
  | (Throw e, s') => (Throw e, s')
  end.

Definition throw {S A} (e : error) : M S A := λ s, (Throw e, s).

Definition get {S} : M S S := λ s, (Normal s, s).

Definition modify {S} (f : S → S) : M S unit := λ s, (Normal tt, f s).

(** [if (o) { ... }] for a value that is [null] or a match. *)
Definition when_some {S A} (o : option A) (f : A → M S unit) : M S unit :=
  match o with
  | Some a => f a
  | None => mret tt
  end.

(** [try { body } catch (e) { handler }] *)
Definition try_catch {S A} (body : M S A) (handler : error → M S A) : M S A := λ s,
  match body s with
  | (Normal a, s') => (Normal a, s')
  | (Throw e, s') => handler e s'
  end.

(** [console.warn(...)] *)
Definition console_warn {S} (e : error) : M S unit := mret tt.

(** The shape shared by the four extractors:
    [const result = init; try { body } catch (e) { console.warn(..) }
     return result]. *)
Definition extractor {S} (init : S) (body : M S unit) : completion S :=
  fst ((try_catch body console_warn ≫= λ _, get) init).

(** [text.match(re)], [text.matchAll(re)], [text.split(re)] on the
    argument of an extractor: a TypeError unless it is a string. *)
Definition call_match {S} (text : value) (re : regexp) : M S (option match_result) :=
  match text with
  | VString s => mret (String_match s re)
  | _ => throw TypeError
  end.

Definition call_matchAll {S} (text : value) (re : regexp) : M S (list match_result) :=
  match text with
  | VString s => mret (String_matchAll s re)
  | _ => throw TypeError
  end.

Definition call_split {S} (text : value) (re : regexp) : M S (list jstring) :=
  match text with
  | VString s => mret (String_split s re)
  | _ => throw TypeError
  end.

(** A method called on [m[i]]: a TypeError when the group is
    [undefined]. *)
Definition on_group {S A} (m : match_result) (i : nat) (f : jstring → A) : M S A :=
  match group m i with
  | Some s => mret (f s)
  | None => throw TypeError
  end.

(** [parseInt(m[i])] and [${m[i]}]: [undefined] is first written out. *)
Definition to_string (o : option jstring) : jstring := default (str "undefined") o.

(** [returns P m Q]: run on a record that satisfies [P], the computation
    [m] ends normally, on a record that satisfies [P], with a value that
    satisfies [Q]. *)
Definition returns {S A} (P : S → Prop) (m : M S A) (Q : A → Prop) : Prop :=
  ∀ s, P s → ∃ a s', m s = (Normal a, s') ∧ P s' ∧ Q a.

(** The body of an extractor throws on [init]. *)
Definition throws {S} (body : M S unit) (init : S) : Prop :=
  ∃ e, (body init).1 = Throw e.

End Effects.

(* ===================================================================== *)
(** * The extractors *)
(* ===================================================================== *)

(** Patterns shared by the extractors.  Where a comment quotes a pattern
    of the source, a blank separates a star from a closing parenthesis
    and an apostrophe stands for the double quote. *)
Module Patterns.
Import Js Regex.
Local Open Scope regex_scope.

Definition re (r : regex) : regexp := RegExp r false false.      (* /r/  *)
Definition re_g (r : regex) : regexp := RegExp r true false.     (* /r/g *)

Definition spaces := Star (Chars CSpace).                          (* \s*  *)
Definition digits := Plus (Chars CDigit).                          (* \d+  *)
Definition lazy_text := PlusLazy (Chars CDot).                     (* .+?  *)
Definition lazy_all := StarLazy (Chars CAll).                      (* [\s\S]*? *)
Definition quote := Lit [dquote].

(** [/label\s*(.+?)(?:\n|$)/] *)
Definition re_line_after (label : string) :=
  re (Lit (str label) · spaces · Group 1 lazy_text · (Lit (str "\n") ∥ Eol)).

(** [/label\s*(\d+)/] *)
Definition re_count_after (label : string) :=
  re (Lit (str label) · spaces · Group 1 digits).

(** [/header([\s\S]*?)(?=###|$)/] *)
Definition re_section (header : string) :=
  re (Lit (str header) · Group 1 lazy_all · Lookahead (Lit (str "###") ∥ Eol)).

(** [/header[\s\S]*?\n([\s\S]*?)(?=###|$)/] *)
Definition re_section_after_line (header : string) :=
  re (Lit (str header) · lazy_all · Lit (str "\n")
      · Group 1 lazy_all · Lookahead (Lit (str "###") ∥ Eol)).

(* /^\d+\./ *)
Definition re_numbered := re (Bol · digits · Lit (str ".")).
(* /^\d+\.\s*/ *)
Definition re_number_prefix := re (Bol · digits · Lit (str ".") · spaces).
(* /^'|'$/g *)
Definition re_outer_quotes := re_g ((Bol · quote) ∥ (quote · Eol)).
(* /^> '|'$/g *)
Definition re_quote_marks := re_g ((Bol · Lit (str "> ") · quote) ∥ (quote · Eol)).

(** [l => l.match(/^\d+\./)] as a filter, and [l => l.startsWith('-')] *)
Definition is_numbered (l : jstring) : bool := bool_decide (is_Some (String_match l re_numbered)).
Definition is_dashed (l : jstring) : bool := startsWith l (str "-").

(** [section.split('\n').filter(l => l.match(/^\d+\./))] *)
Definition numbered_lines (section : jstring) : list jstring :=
  List.filter is_numbered (split section (str "\n")).

(** [section.split('\n').filter(l => l.startsWith('-'))] *)
Definition dashed_lines (section : jstring) : list jstring :=
  List.filter is_dashed (split section (str "\n")).

(** [l.replace(/^\d+\.\s*/, '')] *)
Definition strip_number (l : jstring) : jstring := String_replace l re_number_prefix [].

End Patterns.

Module InsightForge.
Import Js Regex Effects Patterns.
Local Open Scope regex_scope.

Module Stats.
Record t := { facts : number; entities : number; relationships : number }.
End Stats.
Record Entity := { name : jstring; type : jstring }.
Record Relation := { source : jstring; relation : jstring; target : jstring }.

Record Result := {
  query : jstring;
  stats : Stats.t;
  subQueries : list jstring;
  facts : list jstring;
  entities : list Entity;
  relations : list Relation
}.

Definition empty : Result := {|
  query := [];
  stats := {| Stats.facts := Num 0; Stats.entities := Num 0; Stats.relationships := Num 0 |};
  subQueries := [];
  facts := [];
  entities := [];
  relations := []
|}.

Definition set_query q (r : Result) : Result :=
  {| query := q; stats := stats r; subQueries := subQueries r;
     facts := facts r; entities := entities r; relations := relations r |}.
Definition set_stats f (r : Result) : Result :=
  {| query := query r; stats := f (stats r); subQueries := subQueries r;
     facts := facts r; entities := entities r; relations := relations r |}.
Definition set_subQueries l (r : Result) : Result :=
  {| query := query r; stats := stats r; subQueries := l;
     facts := facts r; entities := entities r; relations := relations r |}.
Definition set_facts l (r : Result) : Result :=
  {| query := query r; stats := stats r; subQueries := subQueries r;
     facts := l; entities := entities r; relations := relations r |}.
Definition set_entities l (r : Result) : Result :=
  {| query := query r; stats := stats r; subQueries := subQueries r;
     facts := facts r; entities := l; relations := relations r |}.
Definition set_relations l (r : Result) : Result :=
  {| query := query r; stats := stats r; subQueries := subQueries r;
     facts := facts r; entities := entities r; relations := l |}.

Definition stats_facts n (s : Stats.t) : Stats.t :=
  {| Stats.facts := n; Stats.entities := Stats.entities s;
     Stats.relationships := Stats.relationships s |}.
Definition stats_entities n (s : Stats.t) : Stats.t :=
  {| Stats.facts := Stats.facts s; Stats.entities := n;
     Stats.relationships := Stats.relationships s |}.
Definition stats_relationships n (s : Stats.t) : Stats.t :=
  {| Stats.facts := Stats.facts s; Stats.entities := Stats.entities s;
     Stats.relationships := n |}.

(* /原始问题:\s*(.+?)(?:\n|$)/ *)
Definition re_query := re_line_after "原始问题:".
(* /相关事实:\s*(\d+)/, /涉及实体:\s*(\d+)/, /关系链:\s*(\d+)/ *)
Definition re_fact := re_count_after "相关事实:".
Definition re_entity := re_count_after "涉及实体:".
Definition re_rel := re_count_after "关系链:".
(* /### 分析的子问题\n([\s\S]*?)(?=###|\n\n###|$)/ *)
Definition re_subQ :=
  re (Lit (str "### 分析的子问题\n") · Group 1 lazy_all
      · Lookahead (Lit (str "###") ∥ Lit (str "\n\n###") ∥ Eol)).
(* /### 【关键事实】[\s\S]*?\n([\s\S]*?)(?=###|$)/ *)
Definition re_facts := re_section_after_line "### 【关键事实】".
(* /^\d+\.\s*'?(.+?)'?\s*$/ *)
Definition re_fact_line :=
  re (Bol · digits · Lit (str ".") · spaces · Opt quote · Group 1 lazy_text
      · Opt quote · spaces · Eol).
(* /### 【核心实体】\n([\s\S]*?)(?=###|$)/ *)
Definition re_entities := re_section "### 【核心实体】\n".
(* /\n- \*\*/ *)
Definition re_entity_sep := re (Lit (str "\n- **")).
(* /^(.+?)\*\*\s*\((.+?)\)/ *)
Definition re_entity_name :=
  re (Bol · Group 1 lazy_text · Lit (str "**") · spaces
      · Lit (str "(") · Group 2 lazy_text · Lit (str ")")).
(* /### 【关系链】\n([\s\S]*?)(?=###|$)/ *)
Definition re_relations := re_section "### 【关系链】\n".
(* /^-\s*(.+?)\s*--\[(.+?)\]-->\s*(.+)$/ *)
Definition re_relation_line :=
  re (Bol · Lit (str "-") · spaces · Group 1 lazy_text · spaces · Lit (str "--[")
      · Group 2 lazy_text · Lit (str "]-->") · spaces · Group 3 (Plus (Chars CDot)) · Eol).

(** The callbacks of the three [map] calls. *)
Definition fact_of_line (l : jstring) : M Result jstring :=
  match String_match l re_fact_line with
  | Some m => on_group m 1 (λ s, String_replace s re_outer_quotes [])
  | None => mret (trim (strip_number l))
  end.

Definition entity_of_block (block : jstring) : M Result Entity :=
  let nameMatch := String_match block re_entity_name in
  n ← match nameMatch with Some m => on_group m 1 trim | None => mret [] end;
  t ← match nameMatch with Some m => on_group m 2 trim | None => mret [] end;
  mret {| name := n; type := t |}.

Definition relation_of_line (l : jstring) : M Result (option Relation) :=
  match String_match l re_relation_line with
  | Some m =>
    s ← on_group m 1 trim;
    r ← on_group m 2 trim;
    t ← on_group m 3 trim;
    mret (Some {| source := s; relation := r; target := t |})
  | None => mret None
  end.

(** The body of the [try] block. *)
Definition body (text : value) : M Result unit :=
  queryMatch ← call_match text re_query;
  when_some queryMatch (λ m, q ← on_group m 1 trim; modify (set_query q));;
  factMatch ← call_match text re_fact;
  entityMatch ← call_match text re_entity;
  relMatch ← call_match text re_rel;
  when_some factMatch (λ m,
    modify (set_stats (stats_facts (parseInt (to_string (group m 1))))));;
  when_some entityMatch (λ m,
    modify (set_stats (stats_entities (parseInt (to_string (group m 1))))));;
  when_some relMatch (λ m,
    modify (set_stats (stats_relationships (parseInt (to_string (group m 1))))));;
  subQSection ← call_match text re_subQ;
  when_some subQSection (λ m,
    lines ← on_group m 1 numbered_lines;
    modify (set_subQueries (map (λ l, trim (strip_number l)) lines)));;
  factsSection ← call_match text re_facts;
  when_some factsSection (λ m,
    lines ← on_group m 1 numbered_lines;
    fs ← mapM fact_of_line lines;
    modify (set_facts (slice0 10 fs)));;
  entitySection ← call_match text re_entities;
  when_some entitySection (λ m,
    entityBlocks ← on_group m 1 (λ s, slice_from 1 (String_split s re_entity_sep));
    es ← mapM entity_of_block entityBlocks;
    modify (set_entities (slice0 8 (List.filter (λ e, truthy (name e)) es))));;
  relSection ← call_match text re_relations;
  when_some relSection (λ m,
    lines ← on_group m 1 dashed_lines;
    rs ← mapM relation_of_line lines;
    modify (set_relations (slice0 6 (omap id rs)))).

Definition parseInsightForge (text : value) : completion Result :=
  extractor empty (body text).

(** The patterns applied to the text itself, and what the lists of a
    result may hold at most. *)
Definition patterns : list regexp :=
  [re_query; re_fact; re_entity; re_rel; re_subQ; re_facts; re_entities; re_relations].

Definition capped (r : Result) : Prop :=
  (length (facts r) ≤ 10 ∧ length (entities r) ≤ 8 ∧ length (relations r) ≤ 6)%nat.

(** An entity that has a name, and a result whose entities all have
    one. *)
Definition has_name (e : Entity) : Prop := truthy (name e) = true.
Definition all_have_names (r : Result) : Prop := Forall has_name (entities r).


End InsightForge.

Module Panorama.
Import Js Regex Effects Patterns.
Local Open Scope regex_scope.

Module Stats.
Record t := { nodes : number; edges : number; activeFacts : number; historicalFacts : number }.
End Stats.

Record Entity := { name : jstring; type : jstring }.

Record Result := {
  query : jstring;
  stats : Stats.t;
  activeFacts : list jstring;
  historicalFacts : list jstring;
  entities : list Entity
}.

Definition empty : Result := {|
  query := [];
  stats := {| Stats.nodes := Num 0; Stats.edges := Num 0;
              Stats.activeFacts := Num 0; Stats.historicalFacts := Num 0 |};
  activeFacts := [];
  historicalFacts := [];
  entities := []
|}.

Definition set_query q (r : Result) : Result :=
  {| query := q; stats := stats r; activeFacts := activeFacts r;
     historicalFacts := historicalFacts r; entities := entities r |}.
Definition set_stats f (r : Result) : Result :=
  {| query := query r; stats := f (stats r); activeFacts := activeFacts r;
     historicalFacts := historicalFacts r; entities := entities r |}.
Definition set_activeFacts l (r : Result) : Result :=
  {| query := query r; stats := stats r; activeFacts := l;
     historicalFacts := historicalFacts r; entities := entities r |}.
Definition set_entities l (r : Result) : Result :=
  {| query := query r; stats := stats r; activeFacts := activeFacts r;
     historicalFacts := historicalFacts r; entities := l |}.

Definition stats_nodes n (s : Stats.t) : Stats.t :=
  {| Stats.nodes := n; Stats.edges := Stats.edges s;
     Stats.activeFacts := Stats.activeFacts s; Stats.historicalFacts := Stats.historicalFacts s |}.
Definition stats_edges n (s : Stats.t) : Stats.t :=
  {| Stats.nodes := Stats.nodes s; Stats.edges := n;
     Stats.activeFacts := Stats.activeFacts s; Stats.historicalFacts := Stats.historicalFacts s |}.
Definition stats_activeFacts n (s : Stats.t) : Stats.t :=
  {| Stats.nodes := Stats.nodes s; Stats.edges := Stats.edges s;
     Stats.activeFacts := n; Stats.historicalFacts := Stats.historicalFacts s |}.
Definition stats_historicalFacts n (s : Stats.t) : Stats.t :=
  {| Stats.nodes := Stats.nodes s; Stats.edges := Stats.edges s;
     Stats.activeFacts := Stats.activeFacts s; Stats.historicalFacts := n |}.

(* /查询:\s*(.+?)(?:\n|$)/ *)
Definition re_query := re_line_after "查询:".
(* /总节点数:\s*(\d+)/, /总边数:\s*(\d+)/, /当前有效事实:\s*(\d+)/,
   /历史\/过期事实:\s*(\d+)/ *)
Definition re_nodes := re_count_after "总节点数:".
Definition re_edges := re_count_after "总边数:".
Definition re_active := re_count_after "当前有效事实:".
Definition re_hist := re_count_after "历史/过期事实:".
(* /### 【当前有效事实】[\s\S]*?\n([\s\S]*?)(?=###|$)/ *)
Definition re_activeSection := re_section_after_line "### 【当前有效事实】".
(* /### 【涉及实体】\n([\s\S]*?)(?=###|$)/ *)
Definition re_entitySection := re_section "### 【涉及实体】\n".
(* /^-\s*\*\*(.+?)\*\*\s*\((.+?)\)/ *)
Definition re_entity_line :=
  re (Bol · Lit (str "-") · spaces · Lit (str "**") · Group 1 lazy_text · Lit (str "**")
      · spaces · Lit (str "(") · Group 2 lazy_text · Lit (str ")")).

Definition entity_of_line (l : jstring) : M Result (option Entity) :=
  match String_match l re_entity_line with
  | Some m =>
    n ← on_group m 1 trim;
    t ← on_group m 2 trim;
    mret (Some {| name := n; type := t |})
  | None => mret None
  end.

(** [l => l.replace(/^\d+\.\s*/, '').replace(/^'|'$/g, '').trim()] *)
Definition fact_of_line (l : jstring) : jstring :=
  trim (String_replace (strip_number l) re_outer_quotes []).

Definition body (text : value) : M Result unit :=
  queryMatch ← call_match text re_query;
  when_some queryMatch (λ m, q ← on_group m 1 trim; modify (set_query q));;
  nodesMatch ← call_match text re_nodes;
  edgesMatch ← call_match text re_edges;
  activeMatch ← call_match text re_active;
  histMatch ← call_match text re_hist;
  when_some nodesMatch (λ m,
    modify (set_stats (stats_nodes (parseInt (to_string (group m 1))))));;
  when_some edgesMatch (λ m,
    modify (set_stats (stats_edges (parseInt (to_string (group m 1))))));;
  when_some activeMatch (λ m,
    modify (set_stats (stats_activeFacts (parseInt (to_string (group m 1))))));;
  when_some histMatch (λ m,
    modify (set_stats (stats_historicalFacts (parseInt (to_string (group m 1))))));;
  activeSection ← call_match text re_activeSection;
  when_some activeSection (λ m,
    lines ← on_group m 1 numbered_lines;
    modify (set_activeFacts (slice0 8 (map fact_of_line lines))));;
  entitySection ← call_match text re_entitySection;
  when_some entitySection (λ m,
    lines ← on_group m 1 dashed_lines;
    es ← mapM entity_of_line lines;
    modify (set_entities (slice0 10 (omap id es)))).

Definition parsePanorama (text : value) : completion Result :=
  extractor empty (body text).

Definition patterns : list regexp :=
  [re_query; re_nodes; re_edges; re_active; re_hist; re_activeSection; re_entitySection].

Definition capped (r : Result) : Prop :=
  (length (activeFacts r) ≤ 8 ∧ length (entities r) ≤ 10)%nat.

End Panorama.

Module QuickSearch.
Import Js Regex Effects Patterns.
Local Open Scope regex_scope.

Record Result := {
  query : jstring;
  count : number;
  facts : list jstring
}.

Definition empty : Result := {| query := []; count := Num 0; facts := [] |}.

Definition set_query q (r : Result) : Result :=
  {| query := q; count := count r; facts := facts r |}.
Definition set_count n (r : Result) : Result :=
  {| query := query r; count := n; facts := facts r |}.
Definition set_facts l (r : Result) : Result :=
  {| query := query r; count := count r; facts := l |}.

(* /搜索查询:\s*(.+?)(?:\n|$)/ *)
Definition re_query := re_line_after "搜索查询:".
(* /找到\s*(\d+)\s*条/ *)
Definition re_count := re (Lit (str "找到") · spaces · Group 1 digits · spaces · Lit (str "条")).
(* /### 相关事实:\n([\s\S]* )$/ *)
Definition re_facts := re (Lit (str "### 相关事实:\n") · Group 1 (Star (Chars CAll)) · Eol).

Definition body (text : value) : M Result unit :=
  queryMatch ← call_match text re_query;
  when_some queryMatch (λ m, q ← on_group m 1 trim; modify (set_query q));;
  countMatch ← call_match text re_count;
  when_some countMatch (λ m, modify (set_count (parseInt (to_string (group m 1)))));;
  factsSection ← call_match text re_facts;
  when_some factsSection (λ m,
    lines ← on_group m 1 numbered_lines;
    modify (set_facts (slice0 10 (map (λ l, trim (strip_number l)) lines)))).

Definition parseQuickSearch (text : value) : completion Result :=
  extractor empty (body text).

Definition patterns : list regexp := [re_query; re_count; re_facts].

Definition capped (r : Result) : Prop := (length (facts r) ≤ 10)%nat.

End QuickSearch.

(** [parseInterview] of [Step4Report.vue]. *)
Module Interview.
Import Js Regex Effects Patterns.
Local Open Scope regex_scope.

Record Record_ := {
  num : nat;
  title : jstring;
  name : jstring;
  role : jstring;
  bio : jstring;
  questions : list jstring;
  twitterAnswer : jstring;
  redditAnswer : jstring;
  quotes : list jstring
}.

Record Result := {
  topic : jstring;
  agentCount : jstring;
  successCount : number;
  totalCount : number;
  selectionReason : jstring;
  interviews : list Record_;
  summary : jstring
}.

Definition empty : Result := {|
  topic := [];
  agentCount := [];
  successCount := Num 0;
  totalCount := Num 0;
  selectionReason := [];
  interviews := [];
  summary := []
|}.

Definition set_topic x (r : Result) : Result :=
  {| topic := x; agentCount := agentCount r; successCount := successCount r;
     totalCount := totalCount r; selectionReason := selectionReason r;
     interviews := interviews r; summary := summary r |}.
Definition set_counts s t a (r : Result) : Result :=
  {| topic := topic r; agentCount := a; successCount := s;
     totalCount := t; selectionReason := selectionReason r;
     interviews := interviews r; summary := summary r |}.
Definition set_selectionReason x (r : Result) : Result :=
  {| topic := topic r; agentCount := agentCount r; successCount := successCount r;
     totalCount := totalCount r; selectionReason := x;
     interviews := interviews r; summary := summary r |}.
Definition push_interview i (r : Result) : Result :=
  {| topic := topic r; agentCount := agentCount r; successCount := successCount r;
     totalCount := totalCount r; selectionReason := selectionReason r;
     interviews := interviews r ++ [i]; summary := summary r |}.
Definition set_summary x (r : Result) : Result :=
  {| topic := topic r; agentCount := agentCount r; successCount := successCount r;
     totalCount := totalCount r; selectionReason := selectionReason r;
     interviews := interviews r; summary := x |}.

(* /\*\*采访主题:\*\*\s*(.+?)(?:\n|$)/ *)
Definition re_topic := re_line_after "**采访主题:**".
(* /\*\*采访人数:\*\*\s*(\d+)\s*\/\s*(\d+)/ *)
Definition re_count :=
  re (Lit (str "**采访人数:**") · spaces · Group 1 digits · spaces · Lit (str "/")
      · spaces · Group 2 digits).
(* /### 采访对象选择理由\n([\s\S]*?)(?=\n---\n|\n### 采访实录)/ *)
Definition re_reason :=
  re (Lit (str "### 采访对象选择理由\n") · Group 1 lazy_all
      · Lookahead (Lit (str "\n---\n") ∥ Lit (str "\n### 采访实录"))).
(* /#### 采访 #\d+:/ *)
Definition re_block_sep := re (Lit (str "#### 采访 #") · digits · Lit (str ":")).
(* /^(.+?)\n/ *)
Definition re_title := re (Bol · Group 1 lazy_text · Lit (str "\n")).
(* /\*\*(.+?)\*\*\s*\((.+?)\)/ *)
Definition re_name_role :=
  re (Lit (str "**") · Group 1 lazy_text · Lit (str "**") · spaces
      · Lit (str "(") · Group 2 lazy_text · Lit (str ")")).
(* /_简介:\s*([\s\S]*?)_\n/ *)
Definition re_bio := re (Lit (str "_简介:") · spaces · Group 1 lazy_all · Lit (str "_\n")).
(* /\.\.\.$/ *)
Definition re_trailing_dots := re (Lit (str "...") · Eol).
(* /\*\*Q:\*\*\s*([\s\S]*?)(?=\n\n\*\*A:\*\*|\*\*A:\*\* )/ *)
Definition re_q :=
  re (Lit (str "**Q:**") · spaces · Group 1 lazy_all
      · Lookahead (Lit (str "\n\n**A:**") ∥ Lit (str "**A:**"))).
(* /\n\d+\.\s+/ *)
Definition re_question_sep :=
  re (Lit (str "\n") · digits · Lit (str ".") · Plus (Chars CSpace)).
(* /^1\.\s+(.+)/ *)
Definition re_first_question :=
  re (Bol · Lit (str "1.") · Plus (Chars CSpace) · Group 1 (Plus (Chars CDot))).
(* /\*\*A:\*\*\s*([\s\S]*?)(?=\*\*关键引言|$)/ *)
Definition re_answer :=
  re (Lit (str "**A:**") · spaces · Group 1 lazy_all
      · Lookahead (Lit (str "**关键引言") ∥ Eol)).
(* /【Twitter平台回答】\n?([\s\S]*?)(?=【Reddit平台回答】|$)/ *)
Definition re_twitter :=
  re (Lit (str "【Twitter平台回答】") · Opt (Lit (str "\n")) · Group 1 lazy_all
      · Lookahead (Lit (str "【Reddit平台回答】") ∥ Eol)).
(* /【Reddit平台回答】\n?([\s\S]*?)$/ *)
Definition re_reddit :=
  re (Lit (str "【Reddit平台回答】") · Opt (Lit (str "\n")) · Group 1 lazy_all · Eol).
(* /\*\*关键引言:\*\*\n([\s\S]*?)(?=\n---|\n####|$)/ *)
Definition re_quotes :=
  re (Lit (str "**关键引言:**\n") · Group 1 lazy_all
      · Lookahead (Lit (str "\n---") ∥ Lit (str "\n####") ∥ Eol)).
(* /> '([^']+)'/g *)
Definition re_quote :=
  re_g (Lit (str "> ") · quote · Group 1 (Plus (Chars (CNot [dquote]))) · quote).
(* /### 采访摘要与核心观点\n([\s\S]*?)$/ *)
Definition re_summary :=
  re (Lit (str "### 采访摘要与核心观点\n") · Group 1 lazy_all · Eol).

(** The questions of a block, from the text after [**Q:**]. *)
Definition questions_of (qText : jstring) : M Result (list jstring) :=
  let questions := List.filter (λ q, truthy (trim q)) (String_split qText re_question_sep) in
  if (0 <? length questions)%nat then
    match String_match qText re_first_question with
    | Some firstQ =>
      q1 ← on_group firstQ 1 trim;
      mret (q1 :: map trim (slice_from 1 questions))
    | None => mret (map trim questions)
    end
  else mret [].

(** The two answers of a block, from the text after [**A:**]. *)
Definition answers_of (answerText : jstring) : M Result (jstring * jstring) :=
  let twitterMatch := String_match answerText re_twitter in
  let redditMatch := String_match answerText re_reddit in
  tw ← match twitterMatch with Some m => on_group m 1 trim | None => mret [] end;
  rd ← match redditMatch with Some m => on_group m 1 trim | None => mret [] end;
  mret (if negb (bool_decide (is_Some twitterMatch)) && negb (bool_decide (is_Some redditMatch))
        then answerText else tw, rd).

(** [q => q.replace(/^> '|'$/g, '').trim()] *)
Definition clean_quote (q : jstring) : jstring :=
  trim (String_replace q re_quote_marks []).

(** The record built from one block by the callback of [forEach]. *)
Definition interview_of_block (block : jstring) (index : nat) : M Result Record_ :=
  title ← match String_match block re_title with
          | Some m => on_group m 1 trim
          | None => mret []
          end;
  name_role ← match String_match block re_name_role with
              | Some m => n ← on_group m 1 trim; r ← on_group m 2 trim; mret (n, r)
              | None => mret ([], [])
              end;
  bio ← match String_match block re_bio with
        | Some m => on_group m 1 (λ s, String_replace (trim s) re_trailing_dots (str "..."))
        | None => mret []
        end;
  questions ← match String_match block re_q with
              | Some m => qText ← on_group m 1 trim; questions_of qText
              | None => mret []
              end;
  answers ← match String_match block re_answer with
            | Some m => answerText ← on_group m 1 trim; answers_of answerText
            | None => mret ([], [])
            end;
  quotes ← match String_match block re_quotes with
           | Some m =>
             quoteMatches ← on_group m 1 (λ quotesText, String_match_g quotesText re_quote);
             mret match quoteMatches with
                  | Some l => map clean_quote l
                  | None => []
                  end
           | None => mret []
           end;
  mret {| num := index + 1; title := title; name := name_role.1; role := name_role.2;
          bio := bio; questions := questions;
          twitterAnswer := answers.1; redditAnswer := answers.2; quotes := quotes |}.

(** [blocks.forEach((block, index) => ...)] *)
Fixpoint forEach (blocks : list jstring) (index : nat) : M Result unit :=
  match blocks with
  | [] => mret tt
  | block :: rest =>
    interview ← interview_of_block block index;
    (if truthy (name interview) || truthy (title interview)
     then modify (push_interview interview) else mret tt);;
    forEach rest (S index)
  end.

Definition body (text : value) : M Result unit :=
  topicMatch ← call_match text re_topic;
  when_some topicMatch (λ m, t ← on_group m 1 trim; modify (set_topic t));;
  countMatch ← call_match text re_count;
  when_some countMatch (λ m,
    modify (set_counts (parseInt (to_string (group m 1)))
                       (parseInt (to_string (group m 2)))
                       (to_string (group m 1) ++ str " / " ++ to_string (group m 2))));;
  reasonMatch ← call_match text re_reason;
  when_some reasonMatch (λ m, x ← on_group m 1 trim; modify (set_selectionReason x));;
  blocks ← call_split text re_block_sep;
  forEach (slice_from 1 blocks) 0;;
  summaryMatch ← call_match text re_summary;
  when_some summaryMatch (λ m, x ← on_group m 1 trim; modify (set_summary x)).

Definition parseInterview (text : value) : completion Result :=
  extractor empty (body text).

Definition patterns : list regexp :=
  [re_topic; re_count; re_reason; re_block_sep; re_summary].

(** A record that has a name or a title, and a result whose records all
    have one. *)
Definition named (i : Record_) : Prop := truthy (name i) || truthy (title i) = true.
Definition all_named (r : Result) : Prop := Forall named (interviews r).


End Interview.

(** [parseInterview] of the second view component, which reads each
    record with one pattern and keeps two quotes at most. *)
Module InterviewAlt.
Import Js Regex Effects Patterns.
Local Open Scope regex_scope.

Record Record_ := {
  num : option jstring;
  title : jstring;
  name : jstring;
  role : jstring;
  bio : jstring;
  question : jstring;
  answer : jstring;
  quotes : list jstring
}.

Record Result := {
  topic : jstring;
  agentCount : jstring;
  interviews : list Record_;
  summary : jstring
}.

Definition empty : Result :=
  {| topic := []; agentCount := []; interviews := []; summary := [] |}.

Definition set_topic x (r : Result) : Result :=
  {| topic := x; agentCount := agentCount r; interviews := interviews r; summary := summary r |}.
Definition set_agentCount x (r : Result) : Result :=
  {| topic := topic r; agentCount := x; interviews := interviews r; summary := summary r |}.
Definition push_interview i (r : Result) : Result :=
  {| topic := topic r; agentCount := agentCount r; interviews := interviews r ++ [i];
     summary := summary r |}.
Definition set_summary x (r : Result) : Result :=
  {| topic := topic r; agentCount := agentCount r; interviews := interviews r; summary := x |}.

(* /\*\*采访主题:\*\*\s*(.+?)(?:\n|$)/ and /\*\*采访人数:\*\*\s*(.+?)(?:\n|$)/ *)
Definition re_topic := re_line_after "**采访主题:**".
Definition re_count := re_line_after "**采访人数:**".
(* /#### 采访 #(\d+):\s*(.+?)\n\*\*(.+?)\*\*\s*\((.+?)\)\n_简介:\s*(.+?)_\n\n\*\*Q:\*\*\s*([\s\S]*?)\n\n\*\*A:\*\*\s*([\s\S]*?)(?=\*\*关键引言|\n---|\n####|$)/g *)
Definition re_interview :=
  re_g (Lit (str "#### 采访 #") · Group 1 digits · Lit (str ":") · spaces
        · Group 2 lazy_text · Lit (str "\n**") · Group 3 lazy_text · Lit (str "**") · spaces
        · Lit (str "(") · Group 4 lazy_text · Lit (str ")\n_简介:") · spaces
        · Group 5 lazy_text · Lit (str "_\n\n**Q:**") · spaces
        · Group 6 lazy_all · Lit (str "\n\n**A:**") · spaces
        · Group 7 lazy_all
        · Lookahead (Lit (str "**关键引言") ∥ Lit (str "\n---") ∥ Lit (str "\n####") ∥ Eol)).
(** [new RegExp(`#### 采访 #${num}[\\s\\S]*?\\*\\*关键引言:\\*\\*\\n([\\s\\S]*?)(?=\\n---)`)].
    [num] is a run of digits (or the word [undefined]), which the pattern
    reads as itself. *)
Definition re_quoteSection (num : jstring) :=
  re (Lit (str "#### 采访 #" ++ num) · lazy_all · Lit (str "**关键引言:**\n")
      · Group 1 lazy_all · Lookahead (Lit (str "\n---"))).
(* /> '(.+?)'/g *)
Definition re_quote := re_g (Lit (str "> ") · quote · Group 1 lazy_text · quote).
(* /### 采访摘要与核心观点\n([\s\S]*?)$/ *)
Definition re_summary :=
  re (Lit (str "### 采访摘要与核心观点\n") · Group 1 lazy_all · Eol).

(** The record built from one match by the body of the [for] loop. *)
Definition interview_of_match (text : value) (m : match_result) : M Result Record_ :=
  title ← on_group m 2 trim;
  name ← on_group m 3 trim;
  role ← on_group m 4 trim;
  bio ← on_group m 5 trim;
  question ← on_group m 6 trim;
  answer ← on_group m 7 trim;
  quoteSection ← call_match text (re_quoteSection (to_string (group m 1)));
  quotes ← match quoteSection with
           | Some qs =>
             found ← on_group qs 1 (λ s, String_match_g s re_quote);
             mret match found with
                  | Some l => slice0 2 (map (λ q, String_replace q re_quote_marks []) l)
                  | None => []
                  end
           | None => mret []
           end;
  mret {| num := group m 1; title := title; name := name; role := role; bio := bio;
          question := question; answer := answer; quotes := quotes |}.

(** [for (const match of interviewMatches) { ... }] *)
Fixpoint for_of (text : value) (ms : list match_result) : M Result unit :=
  match ms with
  | [] => mret tt
  | m :: rest =>
    interview ← interview_of_match text m;
    modify (push_interview interview);;
    for_of text rest
  end.

Definition body (text : value) : M Result unit :=
  topicMatch ← call_match text re_topic;
  when_some topicMatch (λ m, t ← on_group m 1 trim; modify (set_topic t));;
  countMatch ← call_match text re_count;
  when_some countMatch (λ m, c ← on_group m 1 trim; modify (set_agentCount c));;
  interviewMatches ← call_matchAll text re_interview;
  for_of text interviewMatches;;
  summarySection ← call_match text re_summary;
  when_some summarySection (λ m,
    x ← on_group m 1 (λ s, substring0 400 (trim s)); modify (set_summary x)).

Definition parseInterview (text : value) : completion Result :=
  extractor empty (body text).

Definition patterns : list regexp := [re_topic; re_count; re_interview; re_summary].

Definition two_quotes (i : Record_) : Prop := (length (quotes i) ≤ 2)%nat.
Definition capped (r : Result) : Prop := Forall two_quotes (interviews r).

End InterviewAlt.

(** The helpers of the component that shows an interview
    ([InterviewDisplay] of [Step4Report.vue]). *)
Module InterviewDisplay.
Import Js Regex Patterns.
Local Open Scope regex_scope.

(** [${n}] in a template, for a count. *)
Definition decimal (n : nat) : jstring := str (pretty n).

(** [new RegExp(`\\n\\s*${n}\\.\\s+|\\n\\s*${n}、|\\n\\s*（${n}）|\\n\\s*\\(${n}\\)`)] *)
Definition nextPattern (n : nat) : regexp :=
  re ((Lit (str "\n") · spaces · Lit (decimal n ++ str ".") · Plus (Chars CSpace))
      ∥ (Lit (str "\n") · spaces · Lit (decimal n ++ str "、"))
      ∥ (Lit (str "\n") · spaces · Lit (str "（" ++ decimal n ++ str "）"))
      ∥ (Lit (str "\n") · spaces · Lit (str "(" ++ decimal n ++ str ")"))).

(** [new RegExp(`^\\s*${i}\\.\\s*|^\\s*${i}、|^\\s*（${i}）|^\\s*\\(${i}\\)`)] *)
Definition prefixPattern (i : nat) : regexp :=
  re ((Bol · spaces · Lit (decimal i ++ str ".") · spaces)
      ∥ (Bol · spaces · Lit (decimal i ++ str "、"))
      ∥ (Bol · spaces · Lit (str "（" ++ decimal i ++ str "）"))
      ∥ (Bol · spaces · Lit (str "(" ++ decimal i ++ str ")"))).

(** [text.replace(prefixPattern, '').trim()] *)
Definition strip_prefix_number (i : nat) (text : jstring) : jstring :=
  trim (String_replace text (prefixPattern i) []).

(** The [for] loop of [splitAnswerByQuestions]: [todo] rounds are left,
    the next one is round [i]. *)
Fixpoint split_loop (todo i questionCount : nat) (parts : list jstring)
    (remaining : jstring) : list jstring :=
  match todo with
  | O => parts
  | S todo' =>
    match String_match remaining (nextPattern (i + 1)) with
    | Some m =>
      let splitIdx := length (before m) in
      let currentPart := trim (take splitIdx remaining) in
      let currentPart := strip_prefix_number i currentPart in
      split_loop todo' (S i) questionCount (parts ++ [currentPart])
        (trim (drop splitIdx remaining))
    | None =>
      if Nat.eqb i questionCount
      then split_loop todo' (S i) questionCount
             (parts ++ [strip_prefix_number i remaining]) remaining
      else split_loop todo' (S i) questionCount parts remaining
    end
  end.

Definition splitAnswerByQuestions (answerText : jstring) (questionCount : nat)
  : list jstring :=
  if negb (truthy answerText) || Nat.leb questionCount 0 then [answerText] else
  let parts := split_loop questionCount 1 questionCount [] answerText in
  if Nat.eqb (length parts) 0 || forallb (λ p, negb (truthy p)) parts
  then [answerText]
  else parts.

(** [platform === 'twitter' ? interview.twitterAnswer
                            : (interview.redditAnswer || interview.twitterAnswer)] *)
Definition answer_on (interview : Interview.Record_) (platform : string) : jstring :=
  if String.eqb platform "twitter" then Interview.twitterAnswer interview
  else if truthy (Interview.redditAnswer interview) then Interview.redditAnswer interview
  else Interview.twitterAnswer interview.

Definition getAnswerForQuestion (interview : Interview.Record_) (qIdx : nat)
    (platform : string) : jstring :=
  let answer := answer_on interview platform in
  if negb (truthy answer) then [] else
  let questionCount :=
    match length (Interview.questions interview) with
    | O => 1%nat
    | n => n
    end in
  let answers := splitAnswerByQuestions answer questionCount in
  if Nat.eqb (length answers) 1 || Nat.leb (length answers) qIdx
  then (if Nat.eqb qIdx 0 then answer else [])
  else default [] (answers !! qIdx).

(** [text] is [None] for [undefined] or [null]. *)
Definition formatAnswer (text : option jstring) (expanded : bool) : jstring :=
  match text with
  | None => []
  | Some text =>
    if negb (truthy text) then []
    else if expanded || Nat.leb (length text) 400 then text
    else substring0 400 text ++ str "..."
  end.

End InterviewDisplay.

(* ===================================================================== *)
(** * The markdown renderer *)
(* ===================================================================== *)

Module Markdown.
Import Js Regex.
Local Open Scope regex_scope.

Definition g (r : regex) : regexp := RegExp r true false.     (* /r/g  *)
Definition gm (r : regex) : regexp := RegExp r true true.     (* /r/gm *)

Definition dot_plus := Plus (Chars CDot).                      (* .+ *)
Definition backtick : code_unit := 96.

(** The patterns of [renderMarkdown], in the order of the passes.  Where a
    comment quotes a pattern of the source, a blank separates a star from a
    closing parenthesis and an apostrophe stands for the double quote. *)

(* /```(\w* )\n([\s\S]*?)```/g *)
Definition re_code_block :=
  g (Lit (str "```") · Group 1 (Star (Chars CWord)) · Lit (str "\n")
     · Group 2 (StarLazy (Chars CAll)) · Lit (str "```")).
(* /`([^`]+)`/g *)
Definition re_inline_code :=
  g (Lit [backtick] · Group 1 (Plus (Chars (CNot [backtick]))) · Lit [backtick]).
(* /^#### (.+)$/gm and the three shorter ones *)
Definition re_heading (marks : string) :=
  gm (Bol · Lit (str marks) · Group 1 dot_plus · Eol).
(* /^> (.+)$/gm *)
Definition re_quote := gm (Bol · Lit (str "> ") · Group 1 dot_plus · Eol).
(* /^- (.+)$/gm *)
Definition re_ul_item := gm (Bol · Lit (str "- ") · Group 1 dot_plus · Eol).
(* /(<li class='md-li'>[\s\S]*?<\/li>)(\s*<li)/g *)
Definition re_ul_adjacent :=
  g (Group 1 (Lit (strq "<li class='md-li'>") · StarLazy (Chars CAll) · Lit (str "</li>"))
     · Group 2 (Star (Chars CSpace) · Lit (str "<li"))).
(* /(<li class='md-li'>.*<\/li>)+/g *)
Definition re_ul_run :=
  g (Plus (Group 1 (Lit (strq "<li class='md-li'>") · Star (Chars CDot) · Lit (str "</li>")))).
(* /^\d+\. (.+)$/gm *)
Definition re_ol_item :=
  gm (Bol · Plus (Chars CDigit) · Lit (str ". ") · Group 1 dot_plus · Eol).
(* /(<li class='md-oli'>.*<\/li>)+/g *)
Definition re_ol_run :=
  g (Plus (Group 1 (Lit (strq "<li class='md-oli'>") · Star (Chars CDot) · Lit (str "</li>")))).
(* /\*\*(.+?)\*\*/g *)
Definition re_bold := g (Lit (str "**") · Group 1 (PlusLazy (Chars CDot)) · Lit (str "**")).
(* /\*(.+?)\*/g *)
Definition re_em_star := g (Lit (str "*") · Group 1 (PlusLazy (Chars CDot)) · Lit (str "*")).
(* /_(.+?)_/g *)
Definition re_em_underscore :=
  g (Lit (str "_") · Group 1 (PlusLazy (Chars CDot)) · Lit (str "_")).
(* /^---$/gm *)
Definition re_rule := gm (Bol · Lit (str "---") · Eol).
(* /\n\n/g and /\n/g *)
Definition re_blank_line := g (Lit (str "\n\n")).
Definition re_newline := g (Lit (str "\n")).
(* /<p class='md-p'><\/p>/g *)
Definition re_empty_p := g (Lit (strq "<p class='md-p'></p>")).
(* /<p class='md-p'>(<h[2-5])/g *)
Definition re_p_heading :=
  g (Lit (strq "<p class='md-p'>") · Group 1 (Lit (str "<h") · Chars (CRange 50 53))).
(* /(<\/h[2-5]>)<\/p>/g *)
Definition re_heading_p :=
  g (Group 1 (Lit (str "</h") · Chars (CRange 50 53) · Lit (str ">")) · Lit (str "</p>")).
(* /<p class='md-p'>(<ul|<ol|<blockquote|<pre|<hr)/g *)
Definition re_p_block :=
  g (Lit (strq "<p class='md-p'>")
     · Group 1 (Lit (str "<ul") ∥ Lit (str "<ol") ∥ Lit (str "<blockquote")
                ∥ Lit (str "<pre") ∥ Lit (str "<hr"))).
(* /(<\/ul>|<\/ol>|<\/blockquote>|<\/pre>)<\/p>/g *)
Definition re_block_p :=
  g (Group 1 (Lit (str "</ul>") ∥ Lit (str "</ol>") ∥ Lit (str "</blockquote>")
              ∥ Lit (str "</pre>"))
     · Lit (str "</p>")).

(** [html = html.replace(re, tmpl)], written so that the passes read top
    down. *)
Definition pass (re : regexp) (tmpl : jstring) (html : jstring) : jstring :=
  String_replace html re tmpl.

Definition renderMarkdown (content : jstring) : jstring :=
  if negb (truthy content) then [] else
  let html := content in
  let html := pass re_code_block (strq "<pre class='code-block'><code>$2</code></pre>") html in
  let html := pass re_inline_code (strq "<code class='inline-code'>$1</code>") html in
  let html := pass (re_heading "#### ") (strq "<h5 class='md-h5'>$1</h5>") html in
  let html := pass (re_heading "### ") (strq "<h4 class='md-h4'>$1</h4>") html in
  let html := pass (re_heading "## ") (strq "<h3 class='md-h3'>$1</h3>") html in
  let html := pass (re_heading "# ") (strq "<h2 class='md-h2'>$1</h2>") html in
  let html := pass re_quote (strq "<blockquote class='md-quote'>$1</blockquote>") html in
  let html := pass re_ul_item (strq "<li class='md-li'>$1</li>") html in
  let html := pass re_ul_adjacent (str "$1$2") html in
  let html := pass re_ul_run (strq "<ul class='md-ul'>$&</ul>") html in
  let html := pass re_ol_item (strq "<li class='md-oli'>$1</li>") html in
  let html := pass re_ol_run (strq "<ol class='md-ol'>$&</ol>") html in
  let html := pass re_bold (str "<strong>$1</strong>") html in
  let html := pass re_em_star (str "<em>$1</em>") html in
  let html := pass re_em_underscore (str "<em>$1</em>") html in
  let html := pass re_rule (strq "<hr class='md-hr'>") html in
  let html := pass re_blank_line (strq "</p><p class='md-p'>") html in
  let html := pass re_newline (str "<br>") html in
  let html := strq "<p class='md-p'>" ++ html ++ str "</p>" in
  let html := pass re_empty_p [] html in
  let html := pass re_p_heading (str "$1") html in
  let html := pass re_heading_p (str "$1") html in
  let html := pass re_p_block (str "$1") html in
  let html := pass re_block_p (str "$1") html in
  html.

(** How often [p] occurs in [s], overlaps included. *)
Fixpoint occurrences (p s : jstring) : nat :=
  match s with
  | [] => O
  | _ :: t => ((if startsWith s p then 1 else 0) + occurrences p t)%nat
  end.

(** The marks the passes look for in the text, and the paragraph the
    text is wrapped in. *)
Definition marks : list jstring :=
  map str ["`"; "# "; "> "; "- "; ". "; "*"; "_"; "---"; "\n"; "<"].

Definition paragraph_open : jstring := strq "<p class='md-p'>".
Definition paragraph_close : jstring := str "</p>".

(** The tags the last five passes look for next to a paragraph tag. *)
Definition block_tags : list jstring :=
  map str ["<h"; "</h"; "<ul"; "<ol"; "<blockquote"; "<pre"; "<hr";
           "</ul>"; "</ol>"; "</blockquote>"; "</pre>"].


End Markdown.

(* ===================================================================== *)
(** * The report view: state, log ingestion, progress, reset *)
(* ===================================================================== *)

Module Report.
Import Js.
Local Open Scope Z_scope.

(** ** Log entries *)

Record Outline := {
  title : jstring;
  summary : jstring;
  sections : option (list jstring)       (* the titles of the sections *)
}.

(** The fields of [details] that the fold reads. An absent field is
    [None]. *)
Record Details := {
  outline : option Outline;
  content : option jstring
}.

Record LogEntry := {
  timestamp : Z;
  action : string;
  section_index : option Z;
  details : option Details
}.

(** [log.details?.outline] and [log.details?.content] *)
Definition details_outline (log : LogEntry) : option Outline :=
  details log ≫= outline.
Definition details_content (log : LogEntry) : option jstring :=
  details log ≫= content.

(** ** Property keys and set elements

    [generatedSections] is an object: [generatedSections[i]] reads the
    property named by the decimal writing of [i], or ["undefined"] when
    the entry has no [section_index].  [expandedContent] is a Set of
    numbers; [undefined - 1] is [NaN]. *)
Definition prop_key (i : option Z) : string :=
  match i with
  | Some z => pretty z
  | None => "undefined"
  end.

Definition minus_one (i : option Z) : option Z := (fun z => z - 1) <$> i.

(** ** The state of the component

    One field per [ref] of the script, under the name it has there.
    [currentSectionIndex] is [None] for [null], [Some i] after a
    [section_start] whose [section_index] is [i]. [polling] says that the
    two interval timers are running. The element [None] of
    [expandedContent] is [NaN]. *)
Record State := {
  reportId : option jstring;                       (* props.reportId *)
  agentLogs : list LogEntry;
  consoleLogs : list jstring;
  agentLogLine : Z;
  consoleLogLine : Z;
  reportOutline : option Outline;
  currentSectionIndex : option (option Z);
  generatedSections : gmap string jstring;
  expandedContent : gset (option Z);
  expandedLogs : gset Z;
  collapsedSections : gset Z;
  isComplete : bool;
  startTime : option Z;
  showRawResult : gmap Z bool;
  polling : bool
}.

(** The values of the refs when the script is set up. *)
Definition setup (id : option jstring) : State := {|
  reportId := id;
  agentLogs := [];
  consoleLogs := [];
  agentLogLine := 0;
  consoleLogLine := 0;
  reportOutline := None;
  currentSectionIndex := None;
  generatedSections := ∅;
  expandedContent := ∅;
  expandedLogs := ∅;
  collapsedSections := ∅;
  isComplete := false;
  startTime := None;
  showRawResult := ∅;
  polling := false
|}.

Definition has_reportId (st : State) : bool :=
  match reportId st with Some id => truthy id | None => false end.

(** ** Timers *)

Definition startPolling (st : State) : State :=
  if polling st then st else
  {| reportId := reportId st; agentLogs := agentLogs st; consoleLogs := consoleLogs st;
     agentLogLine := agentLogLine st; consoleLogLine := consoleLogLine st;
     reportOutline := reportOutline st; currentSectionIndex := currentSectionIndex st;
     generatedSections := generatedSections st; expandedContent := expandedContent st;
     expandedLogs := expandedLogs st; collapsedSections := collapsedSections st;
     isComplete := isComplete st; startTime := startTime st;
     showRawResult := showRawResult st; polling := true |}.

Definition stopPolling (st : State) : State :=
  {| reportId := reportId st; agentLogs := agentLogs st; consoleLogs := consoleLogs st;
     agentLogLine := agentLogLine st; consoleLogLine := consoleLogLine st;
     reportOutline := reportOutline st; currentSectionIndex := currentSectionIndex st;
     generatedSections := generatedSections st; expandedContent := expandedContent st;
     expandedLogs := expandedLogs st; collapsedSections := collapsedSections st;
     isComplete := isComplete st; startTime := startTime st;
     showRawResult := showRawResult st; polling := false |}.

(** ** The fold of [fetchAgentLog] over one entry

    The body of [newLogs.forEach(log => ...)], one definition per [if]. *)

Definition push_log (log : LogEntry) (st : State) : State :=
  {| reportId := reportId st; agentLogs := agentLogs st ++ [log];
     consoleLogs := consoleLogs st;
     agentLogLine := agentLogLine st; consoleLogLine := consoleLogLine st;
     reportOutline := reportOutline st; currentSectionIndex := currentSectionIndex st;
     generatedSections := generatedSections st; expandedContent := expandedContent st;
     expandedLogs := expandedLogs st; collapsedSections := collapsedSections st;
     isComplete := isComplete st; startTime := startTime st;
     showRawResult := showRawResult st; polling := polling st |}.

Definition set_reportOutline (o : option Outline) (st : State) : State :=
  {| reportId := reportId st; agentLogs := agentLogs st; consoleLogs := consoleLogs st;
     agentLogLine := agentLogLine st; consoleLogLine := consoleLogLine st;
     reportOutline := o; currentSectionIndex := currentSectionIndex st;
     generatedSections := generatedSections st; expandedContent := expandedContent st;
     expandedLogs := expandedLogs st; collapsedSections := collapsedSections st;
     isComplete := isComplete st; startTime := startTime st;
     showRawResult := showRawResult st; polling := polling st |}.

Definition set_currentSectionIndex (i : option (option Z)) (st : State) : State :=
  {| reportId := reportId st; agentLogs := agentLogs st; consoleLogs := consoleLogs st;
     agentLogLine := agentLogLine st; consoleLogLine := consoleLogLine st;
     reportOutline := reportOutline st; currentSectionIndex := i;
     generatedSections := generatedSections st; expandedContent := expandedContent st;
     expandedLogs := expandedLogs st; collapsedSections := collapsedSections st;
     isComplete := isComplete st; startTime := startTime st;
     showRawResult := showRawResult st; polling := polling st |}.

(** [generatedSections.value[i] = c; expandedContent.value.add(i - 1)] *)
Definition write_section (i : option Z) (c : jstring) (st : State) : State :=
  {| reportId := reportId st; agentLogs := agentLogs st; consoleLogs := consoleLogs st;
     agentLogLine := agentLogLine st; consoleLogLine := consoleLogLine st;
     reportOutline := reportOutline st; currentSectionIndex := currentSectionIndex st;
     generatedSections := <[prop_key i := c]> (generatedSections st);
     expandedContent := {[minus_one i]} ∪ expandedContent st;
     expandedLogs := expandedLogs st; collapsedSections := collapsedSections st;
     isComplete := isComplete st; startTime := startTime st;
     showRawResult := showRawResult st; polling := polling st |}.

Definition set_isComplete (b : bool) (st : State) : State :=
  {| reportId := reportId st; agentLogs := agentLogs st; consoleLogs := consoleLogs st;
     agentLogLine := agentLogLine st; consoleLogLine := consoleLogLine st;
     reportOutline := reportOutline st; currentSectionIndex := currentSectionIndex st;
     generatedSections := generatedSections st; expandedContent := expandedContent st;
     expandedLogs := expandedLogs st; collapsedSections := collapsedSections st;
     isComplete := b; startTime := startTime st;
     showRawResult := showRawResult st; polling := polling st |}.

Definition set_startTime (t : option Z) (st : State) : State :=
  {| reportId := reportId st; agentLogs := agentLogs st; consoleLogs := consoleLogs st;
     agentLogLine := agentLogLine st; consoleLogLine := consoleLogLine st;
     reportOutline := reportOutline st; currentSectionIndex := currentSectionIndex st;
     generatedSections := generatedSections st; expandedContent := expandedContent st;
     expandedLogs := expandedLogs st; collapsedSections := collapsedSections st;
     isComplete := isComplete st; startTime := t;
     showRawResult := showRawResult st; polling := polling st |}.

Definition is_action (log : LogEntry) (a : string) : bool := String.eqb (action log) a.

Definition on_planning_complete (log : LogEntry) (st : State) : State :=
  if is_action log "planning_complete" then
    match details_outline log with
    | Some o => set_reportOutline (Some o) st
    | None => st
    end
  else st.

Definition on_section_start (log : LogEntry) (st : State) : State :=
  if is_action log "section_start"
  then set_currentSectionIndex (Some (section_index log)) st
  else st.

(** The branch for [section_content] and [subsection_content] is empty. *)
Definition on_section_content (log : LogEntry) (st : State) : State :=
  if is_action log "section_content" || is_action log "subsection_content"
  then st else st.

Definition on_section_complete (log : LogEntry) (st : State) : State :=
  if is_action log "section_complete" then
    let st :=
      match details_content log with
      | Some c => if truthy c then write_section (section_index log) c st else st
      | None => st
      end in
    set_currentSectionIndex None st
  else st.

(** The notification [emit('update-status', 'completed')] goes to the
    parent component and leaves the state as it is. *)
Definition on_report_complete (log : LogEntry) (st : State) : State :=
  if is_action log "report_complete"
  then stopPolling (set_isComplete true st)
  else st.

Definition on_report_start (log : LogEntry) (st : State) : State :=
  if is_action log "report_start"
  then set_startTime (Some (timestamp log)) st
  else st.

Definition apply_entry (st : State) (log : LogEntry) : State :=
  let st := push_log log st in
  let st := on_planning_complete log st in
  let st := on_section_start log st in
  let st := on_section_content log st in
  let st := on_section_complete log st in
  let st := on_report_complete log st in
  let st := on_report_start log st in
  st.

Definition apply_entries (st : State) (logs : list LogEntry) : State :=
  foldl apply_entry st logs.

(** ** Polling

    What [await getAgentLog(...)] or [await getConsoleLog(...)] comes back
    with: the promise is rejected (the [catch] branch), or it resolves to
    a response. *)
Record Payload (L : Type) := {
  logs : option (list L);
  from_line : Z
}.
Arguments logs {L} _.
Arguments from_line {L} _.

Record Response (L : Type) := {
  success : bool;
  data : option (Payload L)
}.
Arguments success {L} _.
Arguments data {L} _.

Inductive Outcome (L : Type) :=
| Rejected
| Resolved (res : Response L).
Arguments Rejected {L}.
Arguments Resolved {L} res.

(** [res.success && res.data], then [res.data.logs || []] *)
Definition new_logs {L} (o : Outcome L) : option (list L * Z) :=
  match o with
  | Rejected => None
  | Resolved res =>
    if success res then
      match data res with
      | Some d => Some (default [] (logs d), from_line d)
      | None => None
      end
    else None
  end.

Definition set_agentLogLine (n : Z) (st : State) : State :=
  {| reportId := reportId st; agentLogs := agentLogs st; consoleLogs := consoleLogs st;
     agentLogLine := n; consoleLogLine := consoleLogLine st;
     reportOutline := reportOutline st; currentSectionIndex := currentSectionIndex st;
     generatedSections := generatedSections st; expandedContent := expandedContent st;
     expandedLogs := expandedLogs st; collapsedSections := collapsedSections st;
     isComplete := isComplete st; startTime := startTime st;
     showRawResult := showRawResult st; polling := polling st |}.

Definition push_consoleLogs (l : list jstring) (n : Z) (st : State) : State :=
  {| reportId := reportId st; agentLogs := agentLogs st; consoleLogs := consoleLogs st ++ l;
     agentLogLine := agentLogLine st; consoleLogLine := n;
     reportOutline := reportOutline st; currentSectionIndex := currentSectionIndex st;
     generatedSections := generatedSections st; expandedContent := expandedContent st;
     expandedLogs := expandedLogs st; collapsedSections := collapsedSections st;
     isComplete := isComplete st; startTime := startTime st;
     showRawResult := showRawResult st; polling := polling st |}.

(** One run of [fetchAgentLog], given what the request came back with. *)
Definition fetchAgentLog (o : Outcome LogEntry) (st : State) : State :=
  if negb (has_reportId st) then st else
  match new_logs o with
  | Some (newLogs, from) =>
    if (0 <? length newLogs)%nat
    then set_agentLogLine (from + Z.of_nat (length newLogs)) (apply_entries st newLogs)
    else st
  | None => st
  end.

(** One run of [fetchConsoleLog]. *)
Definition fetchConsoleLog (o : Outcome jstring) (st : State) : State :=
  if negb (has_reportId st) then st else
  match new_logs o with
  | Some (newLogs, from) =>
    if (0 <? length newLogs)%nat
    then push_consoleLogs newLogs (from + Z.of_nat (length newLogs)) st
    else st
  | None => st
  end.

(** A poll failed: the request was rejected or answered [success: false]. *)
Definition failed {L} (o : Outcome L) : bool :=
  match o with
  | Rejected => true
  | Resolved res => negb (success res)
  end.

(** The number of entries a poll brought. *)
Definition count {L} (o : Outcome L) : Z :=
  match new_logs o with
  | Some (l, _) => Z.of_nat (length l)
  | None => 0
  end.

(** ** Progress *)

(** [reportOutline.value?.sections?.length || 0] *)
Definition totalSections (st : State) : Z :=
  match reportOutline st ≫= sections with
  | Some l => Z.of_nat (length l)
  | None => 0
  end.

(** [Object.keys(generatedSections.value).length] *)
Definition completedSections (st : State) : Z := Z.of_nat (size (generatedSections st)).

(** [Math.round((completedSections.value / totalSections.value) * 100)] *)
Definition percent (completed total : Z) : Z :=
  Double.Math_round (Double.mul (Double.div (inject_Z completed) (inject_Z total)) 100).

Definition progressPercent (st : State) : Z :=
  if totalSections st =? 0 then 0
  else percent (completedSections st) (totalSections st).

(** ** User actions and the watch on [reportId] *)

(** [showRawResult[timestamp] = !showRawResult[timestamp]] *)
Definition toggleRawResult (t : Z) (st : State) : State :=
  {| reportId := reportId st; agentLogs := agentLogs st; consoleLogs := consoleLogs st;
     agentLogLine := agentLogLine st; consoleLogLine := consoleLogLine st;
     reportOutline := reportOutline st; currentSectionIndex := currentSectionIndex st;
     generatedSections := generatedSections st; expandedContent := expandedContent st;
     expandedLogs := expandedLogs st; collapsedSections := collapsedSections st;
     isComplete := isComplete st; startTime := startTime st;
     showRawResult := <[t := negb (default false (showRawResult st !! t))]> (showRawResult st);
     polling := polling st |}.

(** The callback of [watch(() => props.reportId, ...)], run with the new
    value of the prop. *)
Definition on_reportId (newId : option jstring) (st : State) : State :=
  match newId with
  | Some id =>
    if truthy id then
      startPolling
        {| reportId := reportId st;
           agentLogs := [];
           consoleLogs := [];
           agentLogLine := 0;
           consoleLogLine := 0;
           reportOutline := None;
           currentSectionIndex := None;
           generatedSections := ∅;
           expandedContent := ∅;
           expandedLogs := ∅;
           collapsedSections := ∅;
           isComplete := false;
           startTime := None;
           showRawResult := showRawResult st;
           polling := polling st |}
    else st
  | None => st
  end.

Definition set_prop_reportId (id : option jstring) (st : State) : State :=
  {| reportId := id; agentLogs := agentLogs st; consoleLogs := consoleLogs st;
     agentLogLine := agentLogLine st; consoleLogLine := consoleLogLine st;
     reportOutline := reportOutline st; currentSectionIndex := currentSectionIndex st;
     generatedSections := generatedSections st; expandedContent := expandedContent st;
     expandedLogs := expandedLogs st; collapsedSections := collapsedSections st;
     isComplete := isComplete st; startTime := startTime st;
     showRawResult := showRawResult st; polling := polling st |}.

(** The parent gives the prop a new value; the watch runs when the value
    has changed. *)
Definition switch_report (id : option jstring) (st : State) : State :=
  if bool_decide (reportId st = id) then st
  else on_reportId id (set_prop_reportId id st).

(** A fresh session: the script is set up with the prop, the watch runs
    at once ([immediate: true]), then [onMounted] runs. *)
Definition onMounted (st : State) : State :=
  if has_reportId st then startPolling st else st.

Definition mount (id : option jstring) : State :=
  onMounted (on_reportId id (setup id)).

(** ** Notions used to state the properties *)

(** The outline a [planning_complete] entry brings, if any, and the one
    brought last by a run of entries. *)
Definition planning_outline (log : LogEntry) : option Outline :=
  if is_action log "planning_complete" then details_outline log else None.

Definition last_outline (logs : list LogEntry) : option Outline :=
  last (omap planning_outline logs).

(** [if (log.details?.content)] *)
Definition carries_content (log : LogEntry) : bool :=
  match details_content log with
  | Some c => truthy c
  | None => false
  end.

(** A sequence of polls of one stream, each one answered before the next
    is sent. *)
Definition run_agent (st : State) (polls : list (Outcome LogEntry)) : State :=
  foldl (fun st o => fetchAgentLog o st) st polls.

Definition run_console (st : State) (polls : list (Outcome jstring)) : State :=
  foldl (fun st o => fetchConsoleLog o st) st polls.

(** The response repeats in [from_line] the offset the request was sent
    with. *)
Definition echoes {L} (offset : Z) (o : Outcome L) : Prop :=
  match new_logs o with
  | Some (_, from) => from = offset
  | None => True
  end.

Definition total_count {L} (polls : list (Outcome L)) : Z :=
  foldr (fun o n => count o + n) 0 polls.

(** What one poll does to the cursor: [from_line + count] when entries
    came, nothing otherwise. *)
Definition next_cursor {L} (o : Outcome L) (cursor : Z) : Z :=
  match new_logs o with
  | Some (l, from) => if (0 <? length l)%nat then from + count o else cursor
  | None => cursor
  end.

End Report.

(** What the template reads and what the user does, besides the fold:
    the status, the counters, the sections and entries that are folded
    or unfolded, the level of a console line, the cut of a long text. *)
Module View.
Import Js Report.
Local Open Scope Z_scope.

(** [generatedSections.value[i]], as a condition. *)
Definition generated (i : Z) (st : State) : bool :=
  match generatedSections st !! prop_key (Some i) with
  | Some c => truthy c
  | None => false
  end.

(** [const newSet = new Set(s); if (newSet.has(x)) newSet.delete(x) else
    newSet.add(x)] *)
Definition toggled `{Countable A} (x : A) (s : gset A) : gset A :=
  if bool_decide (x ∈ s) then s ∖ {[x]} else {[x]} ∪ s.

Definition set_expandedContent (s : gset (option Z)) (st : State) : State :=
  {| reportId := reportId st; agentLogs := agentLogs st; consoleLogs := consoleLogs st;
     agentLogLine := agentLogLine st; consoleLogLine := consoleLogLine st;
     reportOutline := reportOutline st; currentSectionIndex := currentSectionIndex st;
     generatedSections := generatedSections st; expandedContent := s;
     expandedLogs := expandedLogs st; collapsedSections := collapsedSections st;
     isComplete := isComplete st; startTime := startTime st;
     showRawResult := showRawResult st; polling := polling st |}.

Definition set_collapsedSections (s : gset Z) (st : State) : State :=
  {| reportId := reportId st; agentLogs := agentLogs st; consoleLogs := consoleLogs st;
     agentLogLine := agentLogLine st; consoleLogLine := consoleLogLine st;
     reportOutline := reportOutline st; currentSectionIndex := currentSectionIndex st;
     generatedSections := generatedSections st; expandedContent := expandedContent st;
     expandedLogs := expandedLogs st; collapsedSections := s;
     isComplete := isComplete st; startTime := startTime st;
     showRawResult := showRawResult st; polling := polling st |}.

Definition set_expandedLogs (s : gset Z) (st : State) : State :=
  {| reportId := reportId st; agentLogs := agentLogs st; consoleLogs := consoleLogs st;
     agentLogLine := agentLogLine st; consoleLogLine := consoleLogLine st;
     reportOutline := reportOutline st; currentSectionIndex := currentSectionIndex st;
     generatedSections := generatedSections st; expandedContent := expandedContent st;
     expandedLogs := s; collapsedSections := collapsedSections st;
     isComplete := isComplete st; startTime := startTime st;
     showRawResult := showRawResult st; polling := polling st |}.

Definition toggleSectionContent (idx : Z) (st : State) : State :=
  if negb (generated (idx + 1) st) then st
  else set_expandedContent (toggled (Some idx) (expandedContent st)) st.

Definition toggleSectionCollapse (idx : Z) (st : State) : State :=
  if negb (generated (idx + 1) st) then st
  else set_collapsedSections (toggled idx (collapsedSections st)) st.

Definition toggleLogExpand (log : LogEntry) (st : State) : State :=
  set_expandedLogs (toggled (timestamp log) (expandedLogs st)) st.

(** [['tool_call', 'tool_result', 'llm_response'].includes(log.action)] *)
Definition collapsible (log : LogEntry) : bool :=
  existsb (is_action log) ["tool_call"; "tool_result"; "llm_response"]%string.

Definition isLogCollapsed (log : LogEntry) (st : State) : bool :=
  if collapsible log then negb (bool_decide (timestamp log ∈ expandedLogs st))
  else false.

Definition isSectionCompleted (sectionIndex : Z) (st : State) : bool :=
  negb (negb (generated sectionIndex st)).

Definition statusClass (st : State) : string :=
  if isComplete st then "completed"
  else if (0 <? length (agentLogs st))%nat then "processing"
  else "pending".

Definition statusText (st : State) : string :=
  if isComplete st then "Completed"
  else if (0 <? length (agentLogs st))%nat then "Generating..."
  else "Waiting".

Definition totalToolCalls (st : State) : nat :=
  length (List.filter (λ l, is_action l "tool_call") (agentLogs st)).

Definition displayLogs (st : State) : list LogEntry := agentLogs st.


(** The card of section [idx] is in the list (second view component):
    the list is under [v-if="reportOutline"] and has one card for each
    index of [reportOutline.sections]. *)
Definition section_listed (idx : Z) (st : State) : bool :=
  match reportOutline st ≫= sections with
  | Some l => (0 <=? idx) && (idx <? Z.of_nat (length l))
  | None => false
  end.

(** The body of a section is on display: its card is in the list, and in
    the card [v-if="expandedContent.has(idx) && generatedSections[idx + 1]"]
    holds. *)
Definition section_shown (idx : Z) (st : State) : bool :=
  section_listed idx st
  && (bool_decide (Some idx ∈ expandedContent st) && generated (idx + 1) st).

(** [log.includes('ERROR') || log.includes('错误')] and so on. *)
Definition getLogLevelClass (log : jstring) : string :=
  if includes log (str "ERROR") || includes log (str "错误") then "error"
  else if includes log (str "WARNING") || includes log (str "警告") then "warning"
  else "".

(** [text] is [None] for [undefined] or [null]; [maxLen] is an integer. *)
Definition truncateText (text : option jstring) (maxLen : Z) : jstring :=
  match text with
  | None => []
  | Some text =>
    if negb (truthy text) then []
    else if Z.of_nat (length text) <=? maxLen then text
    else substring0 (Z.to_nat maxLen) text ++ str "..."
  end.

(** ** Notions used to state the properties *)

(** What a poll brought, and what a run of polls brought, in order. *)
Definition brought {L} (o : Outcome L) : list L :=
  match new_logs o with
  | Some (l, _) => l
  | None => []
  end.

Definition brought_by {L} (polls : list (Outcome L)) : list L :=
  concat (map brought polls).

(** A [section_complete] entry for section [i] that carries a content. *)
Definition completes (i : Z) (log : LogEntry) : bool :=
  is_action log "section_complete" && carries_content log
  && bool_decide (section_index log = Some i).


(** What an entry does to [currentSectionIndex]: a [section_start] sets
    it to the index of the entry, a [section_complete] to [null]. *)
Definition section_event (log : LogEntry) : option (option (option Z)) :=
  if is_action log "section_complete" then Some None
  else if is_action log "section_start" then Some (Some (section_index log))
  else None.

(** The actions the fold does something for, besides keeping the entry. *)
Definition handled : list string :=
  ["planning_complete"; "section_start"; "section_complete"; "report_complete";
   "report_start"]%string.

(** An entry that ends the report. *)
Definition is_report_complete (log : LogEntry) : bool := is_action log "report_complete".

(** A string of decimal digits. *)
Fixpoint all_digits (s : string) : bool :=
  match s with
  | EmptyString => true
  | String c s' => existsb (Ascii.eqb c) (list_ascii_of_string "0123456789") && all_digits s'
  end.

End View.

(* ===================================================================== *)
(** * Requests in flight *)
(* ===================================================================== *)

(** [setInterval(fetchAgentLog, 2000)] and [setInterval(fetchConsoleLog,
    1500)] call the two functions again and again, whether or not the
    request of the call before has been answered.  A call runs in two
    parts: up to the [await] it checks [props.reportId] and sends a
    request with the cursor as it is then; after the [await] it handles
    what the request came back with. *)
Module Timers.
Import Js Report.
Local Open Scope Z_scope.

Inductive Event (L : Type) :=
| Sent                          (* a call, up to the await *)
| Answered (o : Outcome L).     (* the rest of the oldest call that waits *)
Arguments Sent {L}.
Arguments Answered {L} o.

(** The part of [fetchAgentLog] after the [await]. *)
Definition agent_answer (o : Outcome LogEntry) (st : State) : State :=
  match new_logs o with
  | Some (newLogs, from) =>
    if (0 <? length newLogs)%nat
    then set_agentLogLine (from + Z.of_nat (length newLogs)) (apply_entries st newLogs)
    else st
  | None => st
  end.

(** The part of [fetchConsoleLog] after the [await]. *)
Definition console_answer (o : Outcome jstring) (st : State) : State :=
  match new_logs o with
  | Some (newLogs, from) =>
    if (0 <? length newLogs)%nat
    then push_consoleLogs newLogs (from + Z.of_nat (length newLogs)) st
    else st
  | None => st
  end.

(** A polling stream: the cursor it reads when it sends a request, and
    what it does with the answer. *)
Record Stream (L : Type) := {
  cursor : State → Z;
  answer : Outcome L → State → State
}.
Arguments cursor {L} _ _.
Arguments answer {L} _ _ _.

Definition agent : Stream LogEntry :=
  {| cursor := agentLogLine; answer := agent_answer |}.
Definition console : Stream jstring :=
  {| cursor := consoleLogLine; answer := console_answer |}.

(** The view, and the offsets the requests that wait for their answer
    were sent with, oldest first.  Answers are taken in the order of the
    requests. *)
Definition Flight : Type := State * list Z.

Definition step {L} (S : Stream L) (s : Flight) (e : Event L) : Flight :=
  match e with
  | Sent => if has_reportId s.1 then (s.1, s.2 ++ [cursor S s.1]) else s
  | Answered o =>
    match s.2 with
    | [] => s
    | _ :: rest => (answer S o s.1, rest)
    end
  end.

Definition run {L} (S : Stream L) (s : Flight) (es : list (Event L)) : Flight :=
  foldl (step S) s es.

(** The outcomes of the requests answered in a run, in order. *)
Definition answers {L} (es : list (Event L)) : list (Outcome L) :=
  omap (λ e, match e with Answered o => Some o | Sent => None end) es.

(** Every answer is the answer to a request that waits, and repeats in
    [from_line] the offset that request was sent with. *)
Fixpoint echoed {L} (S : Stream L) (s : Flight) (es : list (Event L)) : Prop :=
  match es with
  | [] => True
  | e :: es' =>
    match e, s.2 with
    | Sent, _ => True
    | Answered o, offset :: _ => echoes offset o
    | Answered _, [] => False
    end ∧ echoed S (step S s e) es'
  end.

(** No request is sent while another one waits for its answer. *)
Fixpoint one_at_a_time {L} (S : Stream L) (s : Flight) (es : list (Event L)) : Prop :=
  match es with
  | [] => True
  | e :: es' =>
    match e with
    | Sent => s.2 = []
    | Answered _ => True
    end ∧ one_at_a_time S (step S s e) es'
  end.

(** A run in which each request is answered before the next is sent. *)
Definition in_turn {L} (polls : list (Outcome L)) : list (Event L) :=
  flat_map (λ o, [Sent; Answered o]) polls.

End Timers.

(* ===================================================================== *)
(** * Sample data *)
(* ===================================================================== *)

Module Samples.
Import Js Report.
Local Open Scope list_scope.
Local Open Scope Z_scope.

Definition entry (a : string) (i : option Z) (d : option Details) : LogEntry :=
  {| timestamp := 0; action := a; section_index := i; details := d |}.

Definition with_outline (t : string) : option Details :=
  Some {| outline := Some {| title := str t; summary := []; sections := Some [str "S1"] |};
          content := None |}.

Definition with_content (c : string) : option Details :=
  Some {| outline := None; content := Some (str c) |}.

Definition report_A : option jstring := Some (str "report-A").
Definition report_B : option jstring := Some (str "report-B").

(** A response [{success: true, data: {logs, from_line}}]. *)
Definition ok {L} (from : Z) (l : list L) : Outcome L :=
  Resolved {| success := true; data := Some {| logs := Some l; from_line := from |} |}.

(** A response [{success: false}]. *)
Definition refused {L} : Outcome L :=
  Resolved {| success := false; data := None |}.

Definition sample_agent_polls : list (Outcome LogEntry) :=
  [ok 0 [entry "report_start" None None; entry "planning_start" None None];
   Rejected;
   ok 2 [entry "section_start" (Some 1) None];
   refused;
   ok 3 []].

Definition sample_console_polls : list (Outcome jstring) :=
  [ok 0 [str "INFO a"]; refused; ok 1 [str "INFO b"; str "ERROR c"]; Rejected].

(** A text without any marker of the tool outputs. *)
Definition plain_text : jstring :=
  str "今天天气不错。\nNothing to see here: 42\n- a dash\n1. a number".

(** Twenty numbered lines. *)
Definition twenty_lines : jstring :=
  str "1. f1\n2. f2\n3. f3\n4. f4\n5. f5\n6. f6\n7. f7\n8. f8\n9. f9\n10. f10\n11. f11\n12. f12\n13. f13\n14. f14\n15. f15\n16. f16\n17. f17\n18. f18\n19. f19\n20. f20\n".

Definition quick_search_text : jstring :=
  str "搜索查询: abc\n找到 20 条相关信息\n\n### 相关事实:\n" ++ twenty_lines.

Definition insight_forge_text : jstring :=
  str "原始问题: abc\n相关事实: 20\n\n### 【关键事实】(20条)\n" ++ twenty_lines.

(** An interview transcript with one record that has four key quotes. *)
Definition interview_text : jstring :=
  strq "**采访主题:** Topic X\n**采访人数:** 1 / 5 位模拟Agent\n\n### 采访对象选择理由\nbecause\n---\n\n### 采访实录\n\n#### 采访 #1: Student\n**Zhang** (student)\n_简介: a student..._\n\n**Q:** 1. first q\n2. second q\n\n**A:** 【Twitter平台回答】\nanswer T\n【Reddit平台回答】\nanswer R\n\n**关键引言:**\n> 'quote 1'\n> 'quote 2'\n> 'quote 3'\n> 'quote 4'\n\n---\n\n### 采访摘要与核心观点\nsummary text\n".

(** A session whose outline has three sections, the first of which is
    complete. *)
Definition one_of_three : State :=
  apply_entries (mount report_A)
    [{| timestamp := 0; action := "planning_complete"; section_index := None;
        details := Some {| outline := Some {| title := str "T"; summary := [];
                                              sections := Some [str "a"; str "b"; str "c"] |};
                           content := None |} |};
     entry "section_start" (Some 1) None;
     entry "section_complete" (Some 1) (with_content "Body")].


(** Two requests of the agent log sent with the same offset, then their
    answers. *)
Definition overlapping_events : list (Timers.Event LogEntry) :=
  [Timers.Sent; Timers.Sent;
   Timers.Answered (ok 0 [entry "tool_call" None None]);
   Timers.Answered (ok 0 [entry "tool_call" None None; entry "tool_result" None None])].

(** The pairs of a count up to [n] and a total from 1 to [n]. *)
Definition counts (n : nat) : list (Z * Z) :=
  list_prod (map Z.of_nat (seq 0 (S n))) (map Z.of_nat (seq 1 n)).

End Samples.

(* ===================================================================== *)
(** * Properties *)
(* ===================================================================== *)

(** ** Literals and string methods on examples *)

Section Examples.
Import Js Regex.
Local Open Scope regex_scope.

Example utf16_cjk : utf16 "原始问题:" = [21407; 22987; 38382; 39064; 58]%N.
Proof. reflexivity. Qed.

Example split_lines :
  split (str "a\nb\n\nc") (str "\n") = [str "a"; str "b"; []; str "c"].
Proof. reflexivity. Qed.

Example trim_both_ends : trim (str "  x y \n") = str "x y".
Proof. reflexivity. Qed.

Example parseInt_leading_zero : parseInt (str "042") = Num 42.
Proof. reflexivity. Qed.

(** The quantifiers: a lazy one takes as little as lets the rest match,
    a greedy one as much. *)
Example lazy_and_greedy :
  let lazy := RegExp (Lit (str "a") · Group 1 (PlusLazy (Chars CDot)) · Lit (str "c")) false false in
  let greedy := RegExp (Lit (str "a") · Group 1 (Plus (Chars CDot)) · Lit (str "c")) false false in
  (String_match (str "abcbc") lazy ≫= λ m, group m 1) = Some (str "b") ∧
  (String_match (str "abcbc") greedy ≫= λ m, group m 1) = Some (str "bcb").
Proof. vm_compute. split; reflexivity. Qed.

(** [^] and [$] with and without the flag m. *)
Example anchors_and_lines :
  String_replace (str "x\nx") (RegExp (Bol · Lit (str "x")) true true) (str "y") = str "y\ny" ∧
  String_replace (str "x\nx") (RegExp (Bol · Lit (str "x")) true false) (str "y") = str "y\nx" ∧
  String_replace (str "x\nx") (RegExp (Lit (str "x") · Eol) true false) (str "y") = str "x\ny".
Proof. vm_compute. repeat split; reflexivity. Qed.

(** A lookahead reads nothing; an alternative is tried in order. *)
Example lookahead_and_alternatives :
  (whole <$> String_match (str "abab") (RegExp (Lit (str "a") · Lookahead (Lit (str "b"))) false false))
    = Some (str "a") ∧
  (whole <$> String_match (str "abc") (RegExp (Lit (str "ab") ∥ Lit (str "abc")) false false))
    = Some (str "ab").
Proof. vm_compute. split; reflexivity. Qed.

(** Templates, empty matches of a global pattern, and [split]. *)
Example replace_and_split :
  String_replace (str "a-b") (RegExp (Group 1 (Chars CWord)) true false) (str "<$1$&$$>")
    = str "<aa$>-<bb$>" ∧
  String_replace (str "ab") (RegExp (Star (Lit (str "x"))) true false) (str "-") = str "-a-b-" ∧
  String_split (str "a1b22c") (RegExp (Plus (Chars CDigit)) false false)
    = [str "a"; str "b"; str "c"] ∧
  String_split (str "ab") (RegExp (Star (Lit (str "x"))) false false) = [str "a"; str "b"] ∧
  String_match_g (str "a1b22c") (RegExp (Plus (Chars CDigit)) true false)
    = Some [str "1"; str "22"].
Proof. vm_compute. repeat split; reflexivity. Qed.

(** A group inside a quantifier holds what its last round captured, and a
    round forgets the captures of the round before. *)
Example captures_in_a_loop :
  let re := RegExp (Plus (Group 1 (Lit (str "a")) ∥ Group 2 (Lit (str "b")))) false false in
  (String_match (str "ab") re ≫= λ m, group m 1) = None ∧
  (String_match (str "ab") re ≫= λ m, group m 2) = Some (str "b").
Proof. vm_compute. split; reflexivity. Qed.

End Examples.

(** ** The matcher *)

Section Matcher.
Import Js Regex.
Local Open Scope nat_scope.

Lemma existsb_eqb_In i l : existsb (Nat.eqb i) l = true ↔ In i l.
Proof.
  rewrite existsb_exists. split.
  - intros (j & Hj & Heq). apply Nat.eqb_eq in Heq. by subst.
  - intros Hi. exists i. split; [done|]. apply Nat.eqb_refl.
Qed.

Lemma cap_clear_caps i l c : ¬ In i l → cap i (clear_caps l c) = cap i c.
Proof.
  intros Hi. unfold cap, clear_caps. f_equal.
  induction c as [|[j s] c IH]; [done|]. simpl.
  destruct (existsb (Nat.eqb j) l) eqn:E; simpl.
  - apply existsb_eqb_In in E.
    destruct (Nat.eqb_spec j i) as [->|]; [done|]. apply IH.
  - destruct (j =? i); [done|]. apply IH.
Qed.

Lemma cap_set_cap_eq i s c : cap i (set_cap i s c) = Some s.
Proof. unfold cap, set_cap. simpl. by rewrite Nat.eqb_refl. Qed.

Lemma cap_set_cap_ne i j s c : i ≠ j → cap j (set_cap i s c) = cap j c.
Proof.
  intros Hne. unfold set_cap. unfold cap at 1. simpl.
  destruct (Nat.eqb_spec i j); [done|].
  apply cap_clear_caps. simpl. intros [?|[]]. by subst.
Qed.

Lemma reaches_here gs x k z : k x = Some z → reaches [] gs x k z.
Proof. intros Hk. exists x. split_and!; [done| intros ? [] |done]. Qed.

Lemma or_else_Some {A} (a : option A) b z :
  or_else a b = Some z → a = Some z ∨ b tt = Some z.
Proof. destruct a; simpl; auto. Qed.

Lemma repeat_loop_reaches (m : matcher) gs greedy k :
  (∀ x k z, m x k = Some z → reaches [] gs x k z) →
  ∀ fuel mn mx x z,
    repeat_loop m gs greedy k fuel mn mx x = Some z → reaches [] gs x k z.
Proof.
  intros Hm. induction fuel as [|fuel IH]; intros mn mx x z Hl; [done|].
  simpl in Hl.
  set (d := λ y : mstate,
         if (mn =? 0) && (length (suf y) =? length (suf x)) then None
         else repeat_loop m gs greedy k fuel (Nat.pred mn) (Nat.pred <$> mx) y) in Hl.
  assert (Hiter : m (MState (pre x) (suf x) (clear_caps gs (caps x))) d = Some z
                  → reaches [] gs x k z).
  { intros Hr. apply Hm in Hr as (y1 & Hy1 & _ & Hp1). unfold d in Hy1.
    destruct ((mn =? 0) && (length (suf y1) =? length (suf x))); [done|].
    apply IH in Hy1 as (y & Hy & _ & Hp).
    exists y. split_and!; [done| intros ? [] |].
    intros i Hi Hd. apply Hp, Hp1; [done..|].
    unfold defined in *. simpl. by rewrite cap_clear_caps. }
  destruct mx as [[|mx]|].
  - by apply reaches_here.
  - destruct mn as [|mn]; [destruct greedy; apply or_else_Some in Hl as [Hl|Hl]|];
      auto using reaches_here.
  - destruct mn as [|mn]; [destruct greedy; apply or_else_Some in Hl as [Hl|Hl]|];
      auto using reaches_here.
Qed.

Lemma reaches_weaken must gs gs' x k z :
  (∀ i, In i gs → In i gs') → reaches must gs x k z → reaches [] gs' x k z.
Proof.
  intros Hsub (y & Hy & _ & Hp). exists y. split_and!; [done| intros ? [] |].
  intros i Hi. apply Hp. intros Hin. by apply Hi, Hsub.
Qed.

Lemma rmatch_reaches ml r :
  ∀ x k z, rmatch ml r x k = Some z → reaches (mandatory r) (groups r) x k z.
Proof.
  induction r as [|cs|s|r1 IH1 r2 IH2|r1 IH1 r2 IH2|g mn mx r IH|i r IH|r IH| |];
    intros x k z Hm; simpl in Hm.
  - by apply reaches_here.
  - destruct (suf x) as [|c t]; [done|]. destruct (cset_mem cs c); [|done].
    eexists. split_and!; [exact Hm| intros ? [] |done].
  - destruct (strip_prefix s (suf x)); [|done].
    eexists. split_and!; [exact Hm| intros ? [] |done].
  - apply IH1 in Hm as (y1 & Hy1 & Hm1 & Hp1).
    apply IH2 in Hy1 as (y2 & Hy2 & Hm2 & Hp2).
    exists y2. split_and!; [done| |].
    + simpl. intros i Hi. apply in_app_or in Hi as [Hi|Hi]; [|by apply Hm2].
      apply filter_In in Hi as [Hi Hn]. apply Hp2; [|by apply Hm1].
      intros Hin. apply existsb_eqb_In in Hin. by rewrite Hin in Hn.
    + simpl. intros i Hi Hd. apply Hp2, Hp1; [| |done]; intros Hin; apply Hi, in_or_app; auto.
  - apply or_else_Some in Hm as [Hm|Hm].
    + apply IH1 in Hm. eapply reaches_weaken; [|exact Hm].
      simpl. intros i Hi. apply in_or_app; auto.
    + apply IH2 in Hm. eapply reaches_weaken; [|exact Hm].
      simpl. intros i Hi. apply in_or_app; auto.
  - eapply repeat_loop_reaches; [|exact Hm].
    intros x' k' z' Hm'. apply IH in Hm'. by eapply reaches_weaken.
  - apply IH in Hm as (y & Hy & Hmand & Hp).
    eexists. split_and!; [exact Hy| |].
    + simpl. intros j [<-|Hj].
      * unfold defined. simpl. by rewrite cap_set_cap_eq.
      * unfold defined. simpl. destruct (decide (i = j)) as [->|Hne].
        -- by rewrite cap_set_cap_eq.
        -- rewrite cap_set_cap_ne by done. by apply Hmand.
    + simpl. intros j Hj Hd. unfold defined. simpl.
      rewrite cap_set_cap_ne by (intros ->; apply Hj; by left).
      apply Hp; [|done]. intros Hin. apply Hj. by right.
  - destruct (rmatch ml r x Some) as [y1|] eqn:Hl; [|done].
    apply IH in Hl as (y & [= ->] & _ & Hp).
    eexists. split_and!; [exact Hm| intros ? [] |].
    simpl. intros i Hi Hd. by apply Hp.
  - destruct (at_bol ml x); [|done]. by apply reaches_here.
  - destruct (at_eol ml x); [|done]. by apply reaches_here.
Qed.

(** A match found by [search] defines the mandatory groups. *)
Lemma search_groups ml r p s m i :
  search ml r p s = Some m → In i (mandatory r) → is_Some (cap i (caps (finish m))).
Proof.
  revert p. induction s as [|c t IH]; intros p Hs Hi; simpl in Hs.
  - destruct (rmatch ml r (MState p [] []) Some) as [y|] eqn:Hm; [|done].
    injection Hs as <-. apply rmatch_reaches in Hm as (y' & [= ->] & Hmand & _).
    by apply Hmand.
  - destruct (rmatch ml r (MState p (c :: t) []) Some) as [y|] eqn:Hm.
    + injection Hs as <-. apply rmatch_reaches in Hm as (y' & [= ->] & Hmand & _).
      by apply Hmand.
    + by eapply IH.
Qed.

Lemma String_match_group s re m i :
  String_match s re = Some m → In i (mandatory (source re)) → is_Some (group m i).
Proof.
  intros Hm Hi. destruct i as [|i]; [done|].
  by eapply search_groups.
Qed.

Lemma matches_from_groups fuel ml r p s m i :
  In m (matches_from fuel ml r p s) → In i (mandatory r) → is_Some (group m i).
Proof.
  revert p s. induction fuel as [|fuel IH]; intros p s Hin Hi; [done|].
  simpl in Hin. destruct (search ml r p s) as [m0|] eqn:Hs; [|done].
  destruct Hin as [<-|Hin].
  - destruct i as [|i]; [done|]. by eapply search_groups.
  - destruct (whole m0), (suf (finish m0)); [done|by eapply IH..].
Qed.

Lemma String_matchAll_group s re m i :
  In m (String_matchAll s re) → In i (mandatory (source re)) → is_Some (group m i).
Proof. apply matches_from_groups. Qed.

(** ** Texts without the literal a pattern starts with *)

Lemma includes_cons c s a : includes (c :: s) a = false → includes s a = false.
Proof. simpl. by intros [_ ?]%orb_false_elim. Qed.

Lemma includes_strip s a : includes s a = false → strip_prefix a s = None.
Proof.
  intros Hi. assert (startsWith s a = false) as Hs.
  { destruct s; simpl in Hi; by apply orb_false_elim in Hi as [? _]. }
  unfold startsWith in Hs. by destruct (strip_prefix a s).
Qed.

Lemma rmatch_no_anchor ml a r p s k :
  includes s a = false → rmatch ml (Seq (Lit a) r) (MState p s []) k = None.
Proof. intros Hi. simpl. by rewrite includes_strip. Qed.

Lemma search_no_anchor ml a r p s :
  includes s a = false → search ml (Seq (Lit a) r) p s = None.
Proof.
  revert p. induction s as [|c t IH]; intros p Hi.
  - simpl. by rewrite includes_strip.
  - cbn [search]. rewrite rmatch_no_anchor by done.
    apply IH. by eapply includes_cons.
Qed.

Lemma anchor_source re a : anchor re = Some a → ∃ r, source re = Seq (Lit a) r.
Proof.
  unfold anchor. destruct (source re) as [| | |[] r2| | | | | |]; try done.
  intros [= ->]. by exists r2.
Qed.

Lemma has_none_of_anchor res s re a :
  has_none_of res s = true → In re res → anchor re = Some a → includes s a = false.
Proof.
  unfold has_none_of, anchors_of. rewrite forallb_forall. intros Hall Hin Ha.
  apply negb_true_iff, Hall, list_elem_of_In, list_elem_of_omap.
  exists re. split; [by apply list_elem_of_In|done].
Qed.

Lemma String_match_no_anchor res s re :
  has_none_of res s = true → In re res → is_Some (anchor re) → String_match s re = None.
Proof.
  intros Hall Hin [a Ha]. pose proof (has_none_of_anchor _ _ _ _ Hall Hin Ha) as Hi.
  apply anchor_source in Ha as [r Hr].
  unfold String_match, exec. rewrite Hr. by apply search_no_anchor.
Qed.

Lemma String_matchAll_no_anchor res s re :
  has_none_of res s = true → In re res → is_Some (anchor re) → String_matchAll s re = [].
Proof.
  intros Hall Hin [a Ha]. pose proof (has_none_of_anchor _ _ _ _ Hall Hin Ha) as Hi.
  apply anchor_source in Ha as [r Hr].
  unfold String_matchAll, all_matches. rewrite Hr. simpl. by rewrite search_no_anchor.
Qed.

Lemma split_from_no_anchor ml a r cur p s :
  includes s a = false → split_from ml (Seq (Lit a) r) 0 cur p s = [rev cur ++ s].
Proof.
  revert cur p. induction s as [|c t IH]; intros cur p Hi.
  - simpl. by rewrite app_nil_r.
  - cbn [split_from]. rewrite rmatch_no_anchor by done.
    rewrite IH by (by eapply includes_cons). simpl. by rewrite <- app_assoc.
Qed.

Lemma String_split_no_anchor res s re :
  has_none_of res s = true → In re res → is_Some (anchor re) → String_split s re = [s].
Proof.
  intros Hall Hin [a Ha]. pose proof (has_none_of_anchor _ _ _ _ Hall Hin Ha) as Hi.
  apply anchor_source in Ha as [r Hr].
  unfold String_split. rewrite Hr. destruct s as [|c t].
  - by rewrite rmatch_no_anchor.
  - by rewrite split_from_no_anchor.
Qed.


(** ** The fuel of the loops *)

Lemma strip_prefix_length p s t : strip_prefix p s = Some t → length t ≤ length s.
Proof.
  revert s. induction p as [|a p IH]; intros [|b s] H; simpl in H; try done.
  - injection H as <-. done.
  - injection H as <-. done.
  - destruct (N.eqb a b); [|done]. apply IH in H. simpl. lia.
Qed.

Lemma repeat_loop_forward m gs greedy :
  forward m →
  ∀ fuel mn mx x k k', agree_from x k k' →
    repeat_loop m gs greedy k fuel mn mx x = repeat_loop m gs greedy k' fuel mn mx x.
Proof.
  intros Hm. induction fuel as [|fuel IH]; intros mn mx x k k' Hk; [done|].
  simpl.
  assert (Hx : k x = k' x) by (by apply Hk).
  assert (Hd : m (MState (pre x) (suf x) (clear_caps gs (caps x)))
                 (λ y, if (mn =? 0) && (length (suf y) =? length (suf x)) then None
                       else repeat_loop m gs greedy k fuel (Nat.pred mn) (Nat.pred <$> mx) y)
             = m (MState (pre x) (suf x) (clear_caps gs (caps x)))
                 (λ y, if (mn =? 0) && (length (suf y) =? length (suf x)) then None
                       else repeat_loop m gs greedy k' fuel (Nat.pred mn) (Nat.pred <$> mx) y)).
  { apply Hm. intros y Hy. simpl in Hy.
    destruct ((mn =? 0) && (length (suf y) =? length (suf x))); [done|].
    apply IH. intros z Hz. apply Hk. lia. }
  rewrite Hx, Hd. done.
Qed.

Lemma rmatch_forward ml r : forward (rmatch ml r).
Proof.
  induction r as [|cs|s|r1 IH1 r2 IH2|r1 IH1 r2 IH2|g mn mx r IH|i r IH|r IH| |];
    intros x k k' Hk; simpl.
  - by apply Hk.
  - destruct (suf x) as [|c t] eqn:E; [done|]. destruct (cset_mem cs c); [|done].
    apply Hk. rewrite E. simpl. lia.
  - destruct (strip_prefix s (suf x)) as [t|] eqn:E; [|done].
    apply Hk. simpl. by eapply strip_prefix_length.
  - apply IH1. intros y Hy. apply IH2. intros z Hz. apply Hk. lia.
  - by rewrite (IH1 x k k'), (IH2 x k k').
  - by apply repeat_loop_forward.
  - apply IH. intros y Hy. by apply Hk.
  - destruct (rmatch ml r x Some); [|done]. by apply Hk.
  - destruct (at_bol ml x); [|done]. by apply Hk.
  - destruct (at_eol ml x); [|done]. by apply Hk.
Qed.

(** More fuel than [mn + length (suf x)] changes nothing: the loop of a
    quantifier never runs out of the fuel [rmatch] gives it. *)
Lemma repeat_loop_fuel m gs greedy k :
  forward m →
  ∀ fuel fuel' mn mx x,
    mn + length (suf x) < fuel → mn + length (suf x) < fuel' →
    repeat_loop m gs greedy k fuel mn mx x = repeat_loop m gs greedy k fuel' mn mx x.
Proof.
  intros Hm. induction fuel as [|fuel IH]; intros fuel' mn mx x Hf Hf'; [lia|].
  destruct fuel' as [|fuel']; [lia|]. simpl.
  assert (Hd : m (MState (pre x) (suf x) (clear_caps gs (caps x)))
                 (λ y, if (mn =? 0) && (length (suf y) =? length (suf x)) then None
                       else repeat_loop m gs greedy k fuel (Nat.pred mn) (Nat.pred <$> mx) y)
             = m (MState (pre x) (suf x) (clear_caps gs (caps x)))
                 (λ y, if (mn =? 0) && (length (suf y) =? length (suf x)) then None
                       else repeat_loop m gs greedy k fuel' (Nat.pred mn) (Nat.pred <$> mx) y)).
  { apply Hm. intros y Hy. simpl in Hy.
    destruct (Nat.eqb_spec mn 0) as [->|Hmn]; simpl.
    - destruct (Nat.eqb_spec (length (suf y)) (length (suf x))); [done|].
      apply IH; simpl; lia.
    - apply IH; lia. }
  by rewrite Hd.
Qed.

Lemma rmatch_repeat_fuel ml greedy mn mx r x k fuel :
  mn + length (suf x) < fuel →
  rmatch ml (Repeat greedy mn mx r) x k
  = repeat_loop (rmatch ml r) (groups r) greedy k fuel mn mx x.
Proof.
  intros Hf. simpl. apply repeat_loop_fuel; [apply rmatch_forward|lia|done].
Qed.


Lemma later_refl x : later x x.
Proof. by split. Qed.

Lemma later_trans x y z : later x y → later y z → later x z.
Proof. intros [? ?] [? ?]. split; [congruence|lia]. Qed.

Lemma later_caps x y c : later x y → later x (MState (pre y) (suf y) c).
Proof. done. Qed.

Lemma later_caps_l x y c : later (MState (pre x) (suf x) c) y → later x y.
Proof. done. Qed.

Lemma strip_prefix_app p s t : strip_prefix p s = Some t → s = p ++ t.
Proof.
  revert s. induction p as [|a p IH]; intros [|b s] H; simpl in H; try done.
  - by injection H as <-.
  - by injection H as <-.
  - destruct (N.eqb_spec a b) as [->|]; [|done]. apply IH in H. by subst.
Qed.

Lemma repeat_loop_advances (m : matcher) gs greedy k :
  (∀ x k z, m x k = Some z → advances x k z) →
  ∀ fuel mn mx x z,
    repeat_loop m gs greedy k fuel mn mx x = Some z → advances x k z.
Proof.
  intros Hm. induction fuel as [|fuel IH]; intros mn mx x z Hl; [done|].
  simpl in Hl.
  assert (Hk : k x = Some z → advances x k z).
  { intros Hk. exists x. split; [done|apply later_refl]. }
  assert (Hiter : ∀ d,
    (∀ y, d y = Some z → advances y k z) →
    m (MState (pre x) (suf x) (clear_caps gs (caps x))) d = Some z → advances x k z).
  { intros d Hd Hr. apply Hm in Hr as (y1 & Hy1 & Hl1).
    apply Hd in Hy1 as (y & Hy & Hl2). exists y. split; [done|].
    eapply later_trans; [|exact Hl2]. exact Hl1. }
  assert (Hd : ∀ y,
    (if (mn =? 0) && (length (suf y) =? length (suf x)) then None
     else repeat_loop m gs greedy k fuel (Nat.pred mn) (Nat.pred <$> mx) y) = Some z →
    advances y k z).
  { intros y Hy. destruct ((mn =? 0) && (length (suf y) =? length (suf x))); [done|].
    by eapply IH. }
  destruct mx as [[|mx]|].
  - by apply Hk.
  - destruct mn as [|mn]; [destruct greedy; apply or_else_Some in Hl as [Hl|Hl]|];
      first [by apply Hk | eapply Hiter; [apply Hd|exact Hl]].
  - destruct mn as [|mn]; [destruct greedy; apply or_else_Some in Hl as [Hl|Hl]|];
      first [by apply Hk | eapply Hiter; [apply Hd|exact Hl]].
Qed.

Lemma rmatch_advances ml r : ∀ x k z, rmatch ml r x k = Some z → advances x k z.
Proof.
  induction r as [|cs|s|r1 IH1 r2 IH2|r1 IH1 r2 IH2|g mn mx r IH|i r IH|r IH| |];
    intros x k z Hm; simpl in Hm.
  - exists x. split; [done|apply later_refl].
  - destruct (suf x) as [|c t] eqn:E; [done|]. destruct (cset_mem cs c); [|done].
    eexists. split; [exact Hm|]. unfold later, text_of. simpl. rewrite E.
    split; [by rewrite <- app_assoc|lia].
  - destruct (strip_prefix s (suf x)) as [t|] eqn:E; [|done].
    eexists. split; [exact Hm|]. unfold later, text_of. simpl.
    apply strip_prefix_app in E. rewrite E, rev_app_distr, rev_involutive, length_app.
    split; [by rewrite <- app_assoc|lia].
  - apply IH1 in Hm as (y1 & Hy1 & Hl1). apply IH2 in Hy1 as (y2 & Hy2 & Hl2).
    exists y2. split; [done|]. by eapply later_trans.
  - apply or_else_Some in Hm as [Hm|Hm]; [by apply IH1|by apply IH2].
  - eapply repeat_loop_advances; [|exact Hm]. apply IH.
  - apply IH in Hm as (y & Hy & Hl). eexists. split; [exact Hy|]. by apply later_caps.
  - destruct (rmatch ml r x Some) as [y1|]; [|done].
    eexists. split; [exact Hm|]. by split.
  - destruct (at_bol ml x); [|done]. exists x. split; [done|apply later_refl].
  - destruct (at_eol ml x); [|done]. exists x. split; [done|apply later_refl].
Qed.

Lemma later_length x y : later x y → length (pre y) + length (suf y) = length (pre x) + length (suf x).
Proof.
  intros [Ht _]. apply (f_equal length) in Ht. unfold text_of in Ht.
  rewrite !length_app, !length_rev in Ht. lia.
Qed.

(** A match found from index [(p, s)] starts and ends in the same input,
    not before [p]. *)
Lemma search_later ml r p s m :
  search ml r p s = Some m →
  later (MState p s []) (MState (before m) (drop (length (before m) - length p) s) []) ∧
  later (MState (before m) (drop (length (before m) - length p) s) []) (finish m).
Proof.
  revert p. induction s as [|c t IH]; intros p Hs; simpl in Hs.
  - destruct (rmatch ml r (MState p [] []) Some) as [y|] eqn:Hm; [|done].
    injection Hs as <-. simpl. rewrite Nat.sub_diag. simpl.
    apply rmatch_advances in Hm as (y' & [= ->] & Hl). split; [apply later_refl|done].
  - destruct (rmatch ml r (MState p (c :: t) []) Some) as [y|] eqn:Hm.
    + injection Hs as <-. simpl. rewrite Nat.sub_diag. simpl.
      apply rmatch_advances in Hm as (y' & [= ->] & Hl). split; [apply later_refl|done].
    + apply IH in Hs as [[Ht Hp] Hl]. simpl in *.
      replace (length (before m) - length p) with (S (length (before m) - S (length p))) by lia.
      simpl. split; [|done]. split; [|simpl; lia].
      unfold text_of in *. simpl in *. rewrite Ht. by rewrite <- app_assoc.
Qed.

Lemma whole_nil_iff m :
  length (before m) ≤ length (pre (finish m)) →
  (whole m = [] ↔ length (pre (finish m)) = length (before m)).
Proof.
  intros Hle. unfold whole, consumed. simpl. split.
  - intros H. apply (f_equal length) in H. rewrite length_rev, length_take in H. simpl in H. lia.
  - intros ->. by rewrite Nat.sub_diag.
Qed.

(** The list of all matches does not depend on the fuel once there is
    more of it than input left. *)
Lemma matches_from_fuel ml r :
  ∀ fuel fuel' p s,
    length s < fuel → length s < fuel' →
    matches_from fuel ml r p s = matches_from fuel' ml r p s.
Proof.
  induction fuel as [|fuel IH]; intros fuel' p s Hf Hf'; [lia|].
  destruct fuel' as [|fuel']; [lia|]. simpl.
  destruct (search ml r p s) as [m|] eqn:Hs; [|done].
  pose proof (search_later _ _ _ _ _ Hs) as [Hl1 Hl2].
  pose proof (later_length _ _ Hl1) as Hn1. pose proof (later_length _ _ Hl2) as Hn2.
  destruct Hl1 as [_ Hp1]. destruct Hl2 as [_ Hp2]. simpl in *.
  f_equal.
  destruct (whole m) eqn:Hw.
  - destruct (suf (finish m)) as [|c t] eqn:Hsuf; [done|]. simpl in *. apply IH; lia.
  - assert (length (pre (finish m)) ≠ length (before m)).
    { intros Heq. apply whole_nil_iff in Heq; [congruence|done]. }
    apply IH; lia.
Qed.

(** [all_matches] is given enough fuel. *)
Lemma all_matches_fuel re s fuel :
  length s < fuel →
  all_matches re s = matches_from fuel (multiline re) (source re) [] s.
Proof. intros Hf. unfold all_matches. apply matches_from_fuel; lia. Qed.

End Matcher.

(** ** Rules for computations that end normally *)

Section Logic.
Import Js Regex Effects.
Context {S : Type}.
Implicit Types P : S → Prop.

Lemma returns_ret {A} P (a : A) (Q : A → Prop) : Q a → returns P (mret a) Q.
Proof. intros HQ s HP. by exists a, s. Qed.

Lemma returns_bind {A B} P (m : M S A) (f : A → M S B) Q R :
  returns P m Q → (∀ a, Q a → returns P (f a) R) → returns P (m ≫= f) R.
Proof.
  intros Hm Hf s HP. destruct (Hm s HP) as (a & s1 & Hrun & HP1 & HQ).
  destruct (Hf a HQ s1 HP1) as (b & s2 & Hrun2 & HP2 & HR).
  exists b, s2. split; [|done].
  unfold mbind, M_bind. by rewrite Hrun.
Qed.

Lemma returns_weaken {A} P (m : M S A) (Q Q' : A → Prop) :
  returns P m Q → (∀ a, Q a → Q' a) → returns P m Q'.
Proof.
  intros Hm HQ s HP. destruct (Hm s HP) as (a & s' & ? & ? & ?).
  exists a, s'. auto.
Qed.

Lemma returns_modify P (f : S → S) :
  (∀ s, P s → P (f s)) → returns P (modify f) (λ _, True).
Proof. intros Hf s HP. exists tt, (f s). auto. Qed.

Lemma returns_when_some {A} P (o : option A) (f : A → M S unit) :
  (∀ a, o = Some a → returns P (f a) (λ _, True)) → returns P (when_some o f) (λ _, True).
Proof.
  intros Hf. destruct o as [a|]; simpl; [by apply Hf|]. by apply returns_ret.
Qed.

Lemma returns_call_match P s re :
  returns P (call_match (VString s) re) (λ o, o = String_match s re).
Proof. by apply returns_ret. Qed.

Lemma returns_call_matchAll P s re :
  returns P (call_matchAll (VString s) re) (λ l, l = String_matchAll s re).
Proof. by apply returns_ret. Qed.

Lemma returns_call_split P s re :
  returns P (call_split (VString s) re) (λ l, l = String_split s re).
Proof. by apply returns_ret. Qed.

Lemma returns_on_group {A} P m i (f : jstring → A) (Q : A → Prop) :
  is_Some (group m i) → (∀ g, Q (f g)) → returns P (on_group m i f) Q.
Proof.
  intros [g Hg] HQ. unfold on_group. rewrite Hg. by apply returns_ret.
Qed.

Lemma returns_mapM {A B} P (f : A → M S B) (Q : B → Prop) l :
  (∀ x, In x l → returns P (f x) Q) → returns P (mapM f l) (Forall Q).
Proof.
  induction l as [|x l IH]; intros Hf; simpl.
  - by apply returns_ret.
  - eapply returns_bind; [apply Hf; by left|]. intros y Hy.
    eapply returns_bind; [apply IH; intros; apply Hf; by right|]. intros k Hk.
    apply returns_ret. by constructor.
Qed.

(** The result of an extractor whose body ends normally. *)
Lemma extractor_returns P init (body : M S unit) :
  P init → returns P body (λ _, True) →
  ∃ r, extractor init body = Normal r ∧ P r ∧ (body init).1 = Normal tt ∧ (body init).2 = r.
Proof.
  intros HP Hb. destruct (Hb init HP) as ([] & r & Hrun & HPr & _).
  exists r. unfold extractor, try_catch, mbind, M_bind, get. rewrite Hrun. by simpl.
Qed.

(** The result of an extractor on an argument that is not a string: the
    first statement throws, and the record is still the initial one. *)
Lemma extractor_throws init (body : M S unit) e :
  body init = (Throw e, init) → extractor init body = Normal init.
Proof.
  intros Hrun. unfold extractor, try_catch, mbind, M_bind, get. by rewrite Hrun.
Qed.

(** The [catch] does not undo what the body did before it threw. *)
Lemma extractor_keeps_partial_result init (f : S → S) e :
  extractor init (modify f ;; throw e) = Normal (f init).
Proof. reflexivity. Qed.

End Logic.

(** ** The bodies of the extractors on strings *)

Lemma length_slice0 {A} n (l : list A) : (length (Js.slice0 n l) ≤ n)%nat.
Proof. unfold Js.slice0. rewrite length_take. lia. Qed.


Ltac group_ok :=
  match goal with
  | H : Regex.String_match _ _ = Some _ |- is_Some (Regex.group _ _) =>
    eapply String_match_group; [exact H|vm_compute; tauto]
  end.

(** One step of a body: a match of the text, a method called on a group,
    an assignment that keeps the invariant. *)
Ltac bind_match :=
  eapply returns_bind; [apply returns_call_match|]; cbv beta; intros ? ->.
Ltac bind_group :=
  eapply returns_bind;
  [apply (returns_on_group _ _ _ _ (λ _, True)); [group_ok|done]|]; intros ? _.
Ltac bind_when :=
  eapply returns_bind; [apply returns_when_some; intros ? ?|intros _ _].
Ltac assign := apply returns_modify; intros ? Hinv.

Section InsightForgeFacts.
Import Js Regex Effects Patterns InsightForge.

Lemma InsightForge_body_returns s : returns capped (body (VString s)) (λ _, True).
Proof.
  unfold body.
  bind_match. bind_when. { bind_group. by assign. }
  bind_match. bind_match. bind_match.
  bind_when. { by assign. }
  bind_when. { by assign. }
  bind_when. { by assign. }
  bind_match. bind_when. { bind_group. by assign. }
  bind_match. bind_when.
  { bind_group.
    eapply returns_bind.
    { apply (returns_mapM _ _ (λ _, True)). intros l _. unfold fact_of_line.
      destruct (String_match l re_fact_line) eqn:?.
      - apply returns_on_group; [group_ok|done].
      - by apply returns_ret. }
    intros fs _. assign. split_and!; [|apply Hinv..]. exact (length_slice0 _ _). }
  bind_match. bind_when.
  { bind_group.
    eapply returns_bind.
    { apply (returns_mapM _ _ (λ _, True)). intros b _. unfold entity_of_block.
      destruct (String_match b re_entity_name) eqn:?.
      - bind_group. bind_group. by apply returns_ret.
      - eapply returns_bind; [apply (returns_ret _ _ (λ _, True)); done|]. intros ? _.
        eapply returns_bind; [apply (returns_ret _ _ (λ _, True)); done|]. intros ? _.
        by apply returns_ret. }
    intros es _. assign. split_and!; [apply Hinv| |apply Hinv]. exact (length_slice0 _ _). }
  bind_match. apply returns_when_some. intros m Hm.
  bind_group.
  eapply returns_bind.
  { apply (returns_mapM _ _ (λ _, True)). intros l _. unfold relation_of_line.
    destruct (String_match l re_relation_line) eqn:?.
    - bind_group. bind_group. bind_group. by apply returns_ret.
    - by apply returns_ret. }
  intros rs _. assign. split_and!; [apply Hinv..|]. exact (length_slice0 _ _).
Qed.

End InsightForgeFacts.

Section PanoramaFacts.
Import Js Regex Effects Patterns Panorama.

Lemma Panorama_body_returns s : returns capped (body (VString s)) (λ _, True).
Proof.
  unfold body.
  bind_match. bind_when. { bind_group. by assign. }
  bind_match. bind_match. bind_match. bind_match.
  bind_when. { by assign. }
  bind_when. { by assign. }
  bind_when. { by assign. }
  bind_when. { by assign. }
  bind_match. bind_when.
  { bind_group. assign. split; [|apply Hinv]. exact (length_slice0 _ _). }
  bind_match. apply returns_when_some. intros m Hm.
  bind_group.
  eapply returns_bind.
  { apply (returns_mapM _ _ (λ _, True)). intros l _. unfold entity_of_line.
    destruct (String_match l re_entity_line) eqn:?.
    - bind_group. bind_group. by apply returns_ret.
    - by apply returns_ret. }
  intros es _. assign. split; [apply Hinv|]. exact (length_slice0 _ _).
Qed.

End PanoramaFacts.

Section QuickSearchFacts.
Import Js Regex Effects Patterns QuickSearch.

Lemma QuickSearch_body_returns s : returns capped (body (VString s)) (λ _, True).
Proof.
  unfold body.
  bind_match. bind_when. { bind_group. by assign. }
  bind_match. bind_when. { by assign. }
  bind_match. apply returns_when_some. intros m Hm.
  bind_group. assign. exact (length_slice0 _ _).
Qed.

End QuickSearchFacts.

Section InterviewFacts.
Import Js Regex Effects Patterns Interview.

Lemma questions_of_returns qText : returns (λ _, True) (questions_of qText) (λ _, True).
Proof.
  unfold questions_of. destruct (0 <? _)%nat; [|by apply returns_ret].
  destruct (String_match qText re_first_question) eqn:?.
  - bind_group. by apply returns_ret.
  - by apply returns_ret.
Qed.

Lemma answers_of_returns answerText : returns (λ _, True) (answers_of answerText) (λ _, True).
Proof.
  unfold answers_of.
  eapply returns_bind.
  { instantiate (1 := λ _, True).
    destruct (String_match answerText re_twitter) eqn:?.
    - apply returns_on_group; [group_ok|done].
    - by apply returns_ret. }
  intros tw _.
  eapply returns_bind.
  { instantiate (1 := λ _, True).
    destruct (String_match answerText re_reddit) eqn:?.
    - apply returns_on_group; [group_ok|done].
    - by apply returns_ret. }
  intros rd _. by apply returns_ret.
Qed.

Lemma interview_of_block_returns block index :
  returns (λ _, True) (interview_of_block block index) (λ _, True).
Proof.
  unfold interview_of_block.
  eapply returns_bind.
  { instantiate (1 := λ _, True).
    destruct (String_match block re_title) eqn:?.
    - apply returns_on_group; [group_ok|done].
    - by apply returns_ret. }
  intros title _.
  eapply returns_bind.
  { instantiate (1 := λ _, True).
    destruct (String_match block re_name_role) eqn:?.
    - bind_group. bind_group. by apply returns_ret.
    - by apply returns_ret. }
  intros name_role _.
  eapply returns_bind.
  { instantiate (1 := λ _, True).
    destruct (String_match block re_bio) eqn:?.
    - apply returns_on_group; [group_ok|done].
    - by apply returns_ret. }
  intros bio _.
  eapply returns_bind.
  { instantiate (1 := λ _, True).
    destruct (String_match block re_q) eqn:?.
    - bind_group. apply questions_of_returns.
    - by apply returns_ret. }
  intros questions _.
  eapply returns_bind.
  { instantiate (1 := λ _, True).
    destruct (String_match block re_answer) eqn:?.
    - bind_group. apply answers_of_returns.
    - by apply returns_ret. }
  intros answers _.
  eapply returns_bind.
  { instantiate (1 := λ _, True).
    destruct (String_match block re_quotes) eqn:?.
    - bind_group. by apply returns_ret.
    - by apply returns_ret. }
  intros quotes _. by apply returns_ret.
Qed.

Lemma forEach_returns blocks index : returns (λ _, True) (forEach blocks index) (λ _, True).
Proof.
  revert index. induction blocks as [|block rest IH]; intros index; simpl.
  - by apply returns_ret.
  - eapply returns_bind; [apply interview_of_block_returns|]. intros interview _.
    eapply returns_bind; [|intros _ _; apply IH].
    instantiate (1 := λ _, True).
    destruct (truthy (name interview) || truthy (title interview)).
    + by apply returns_modify.
    + by apply returns_ret.
Qed.

Lemma Interview_body_returns s : returns (λ _, True) (body (VString s)) (λ _, True).
Proof.
  unfold body.
  bind_match. bind_when. { bind_group. by assign. }
  bind_match. bind_when. { by assign. }
  bind_match. bind_when. { bind_group. by assign. }
  eapply returns_bind; [apply returns_call_split|]. cbv beta. intros ? ->.
  eapply returns_bind; [apply forEach_returns|]. intros _ _.
  bind_match. apply returns_when_some. intros m Hm. bind_group. by assign.
Qed.

End InterviewFacts.

Section InterviewAltFacts.
Import Js Regex Effects Patterns InterviewAlt.

Lemma interview_of_match_returns s m :
  (∀ i, In i [2; 3; 4; 5; 6; 7]%nat → is_Some (group m i)) →
  returns capped (interview_of_match (VString s) m) two_quotes.
Proof.
  intros Hg. unfold interview_of_match.
  do 6 (eapply returns_bind;
        [apply (returns_on_group _ _ _ _ (λ _, True)); [apply Hg; simpl; tauto|done]|];
        intros ? _).
  bind_match.
  eapply returns_bind with (Q := λ q, (length q ≤ 2)%nat).
  - destruct (String_match s _) eqn:?.
    + eapply returns_bind; [apply (returns_on_group _ _ _ _ (λ _, True)); [group_ok|done]|].
      intros found _. apply returns_ret. destruct found; [|simpl; lia].
      exact (length_slice0 _ _).
    + apply returns_ret. simpl. lia.
  - intros q Hq. by apply returns_ret.
Qed.

Lemma for_of_returns s ms :
  (∀ m i, In m ms → In i [2; 3; 4; 5; 6; 7]%nat → is_Some (group m i)) →
  returns capped (for_of (VString s) ms) (λ _, True).
Proof.
  induction ms as [|m rest IH]; intros Hg; simpl.
  - by apply returns_ret.
  - eapply returns_bind; [apply interview_of_match_returns; intros; apply Hg; simpl; auto|].
    intros interview Hi.
    eapply returns_bind; [|intros _ _; apply IH; intros; apply Hg; simpl; auto].
    assign. unfold capped in *. simpl. apply Forall_app. split; [done|]. by constructor.
Qed.

Lemma InterviewAlt_body_returns s : returns capped (body (VString s)) (λ _, True).
Proof.
  unfold body.
  bind_match. bind_when. { bind_group. by assign. }
  bind_match. bind_when. { bind_group. by assign. }
  eapply returns_bind; [apply returns_call_matchAll|]. cbv beta. intros ? ->.
  eapply returns_bind.
  { apply for_of_returns. intros m i Hm Hi.
    eapply String_matchAll_group; [exact Hm|]. vm_compute. simpl in Hi. tauto. }
  intros _ _.
  bind_match. apply returns_when_some. intros m Hm. bind_group. by assign.
Qed.

End InterviewAltFacts.

(** ** The extractors *)

Section Extractors.
Import Js Regex Effects Patterns Samples.

(** Whatever its body does, an extractor returns a record. *)
Lemma extractor_total {S} (init : S) (body : M S unit) : ∃ r, extractor init body = Normal r.
Proof.
  unfold extractor, try_catch, mbind, M_bind, get, console_warn.
  destruct (body init) as [[[]|e] r]; simpl; eauto.
Qed.

(** An extractor on strings: its body ends normally and its result
    satisfies the invariant of the body. *)
Lemma extractor_on_string {S} (P : S → Prop) init (body : M S unit) :
  P init → returns P body (λ _, True) →
  ∃ r, extractor init body = Normal r ∧ P r ∧ ¬ throws body init.
Proof.
  intros HP Hb. destruct (extractor_returns P init body HP Hb) as (r & Hr & HPr & Hn & _).
  exists r. split_and!; [done..|]. intros [e He]. by rewrite Hn in He.
Qed.

(** X1: on a string no body throws: every group a body calls a method on
    takes part in the match it comes from. *)
Lemma bodies_do_not_throw_on_strings s :
  ¬ throws (InsightForge.body (VString s)) InsightForge.empty ∧
  ¬ throws (Panorama.body (VString s)) Panorama.empty ∧
  ¬ throws (Interview.body (VString s)) Interview.empty ∧
  ¬ throws (InterviewAlt.body (VString s)) InterviewAlt.empty ∧
  ¬ throws (QuickSearch.body (VString s)) QuickSearch.empty.
Proof.
  split_and!.
  - destruct (extractor_on_string InsightForge.capped InsightForge.empty
                (InsightForge.body (VString s))) as (_ & _ & _ & Hn);
      [unfold InsightForge.capped; simpl; lia|apply InsightForge_body_returns|done].
  - destruct (extractor_on_string Panorama.capped Panorama.empty
                (Panorama.body (VString s))) as (_ & _ & _ & Hn);
      [unfold Panorama.capped; simpl; lia|apply Panorama_body_returns|done].
  - destruct (extractor_on_string (λ _, True) Interview.empty
                (Interview.body (VString s))) as (_ & _ & _ & Hn);
      [done|apply Interview_body_returns|done].
  - destruct (extractor_on_string InterviewAlt.capped InterviewAlt.empty
                (InterviewAlt.body (VString s))) as (_ & _ & _ & Hn);
      [by constructor|apply InterviewAlt_body_returns|done].
  - destruct (extractor_on_string QuickSearch.capped QuickSearch.empty
                (QuickSearch.body (VString s))) as (_ & _ & _ & Hn);
      [unfold QuickSearch.capped; simpl; lia|apply QuickSearch_body_returns|done].
Qed.

Ltac in_patterns :=
  cbv delta [InsightForge.patterns Panorama.patterns QuickSearch.patterns
             Interview.patterns InterviewAlt.patterns];
  repeat lazymatch goal with
         | |- In ?x (?x :: _) => exact (or_introl eq_refl)
         | |- In _ (_ :: _) => right
         end.
Ltac anchored := vm_compute; eexists; reflexivity.
Ltac no_match Hnone re :=
  rewrite (String_match_no_anchor _ _ re Hnone); [|in_patterns|anchored].

Lemma InsightForge_no_anchor s :
  has_none_of InsightForge.patterns s = true →
  InsightForge.parseInsightForge (VString s) = Normal InsightForge.empty.
Proof.
  intros Hn. unfold InsightForge.parseInsightForge, InsightForge.body, call_match.
  no_match Hn InsightForge.re_query. no_match Hn InsightForge.re_fact.
  no_match Hn InsightForge.re_entity. no_match Hn InsightForge.re_rel.
  no_match Hn InsightForge.re_subQ. no_match Hn InsightForge.re_facts.
  no_match Hn InsightForge.re_entities. no_match Hn InsightForge.re_relations.
  reflexivity.
Qed.

Lemma Panorama_no_anchor s :
  has_none_of Panorama.patterns s = true →
  Panorama.parsePanorama (VString s) = Normal Panorama.empty.
Proof.
  intros Hn. unfold Panorama.parsePanorama, Panorama.body, call_match.
  no_match Hn Panorama.re_query. no_match Hn Panorama.re_nodes.
  no_match Hn Panorama.re_edges. no_match Hn Panorama.re_active.
  no_match Hn Panorama.re_hist. no_match Hn Panorama.re_activeSection.
  no_match Hn Panorama.re_entitySection.
  reflexivity.
Qed.

Lemma QuickSearch_no_anchor s :
  has_none_of QuickSearch.patterns s = true →
  QuickSearch.parseQuickSearch (VString s) = Normal QuickSearch.empty.
Proof.
  intros Hn. unfold QuickSearch.parseQuickSearch, QuickSearch.body, call_match.
  no_match Hn QuickSearch.re_query. no_match Hn QuickSearch.re_count.
  no_match Hn QuickSearch.re_facts.
  reflexivity.
Qed.

Lemma Interview_no_anchor s :
  has_none_of Interview.patterns s = true →
  Interview.parseInterview (VString s) = Normal Interview.empty.
Proof.
  intros Hn. unfold Interview.parseInterview, Interview.body, call_match, call_split.
  no_match Hn Interview.re_topic. no_match Hn Interview.re_count.
  no_match Hn Interview.re_reason. no_match Hn Interview.re_summary.
  rewrite (String_split_no_anchor _ _ Interview.re_block_sep Hn); [|in_patterns|anchored].
  reflexivity.
Qed.

Lemma InterviewAlt_no_anchor s :
  has_none_of InterviewAlt.patterns s = true →
  InterviewAlt.parseInterview (VString s) = Normal InterviewAlt.empty.
Proof.
  intros Hn. unfold InterviewAlt.parseInterview, InterviewAlt.body, call_match, call_matchAll.
  no_match Hn InterviewAlt.re_topic. no_match Hn InterviewAlt.re_count.
  no_match Hn InterviewAlt.re_summary.
  rewrite (String_matchAll_no_anchor _ _ InterviewAlt.re_interview Hn);
    [|in_patterns|anchored].
  reflexivity.
Qed.

(** C6: on the empty string, and on every string in which none of the
    anchors of its patterns occurs, each extractor (both variants of
    [parseInterview] included) returns its initial record: empty strings,
    zero counts, empty lists.  The result is a normal completion: no
    exception reaches the caller. *)
Theorem extractors_degrade (s : jstring) :
  (has_none_of InsightForge.patterns s = true →
     InsightForge.parseInsightForge (VString s) = Normal InsightForge.empty) ∧
  (has_none_of Panorama.patterns s = true →
     Panorama.parsePanorama (VString s) = Normal Panorama.empty) ∧
  (has_none_of Interview.patterns s = true →
     Interview.parseInterview (VString s) = Normal Interview.empty) ∧
  (has_none_of InterviewAlt.patterns s = true →
     InterviewAlt.parseInterview (VString s) = Normal InterviewAlt.empty) ∧
  (has_none_of QuickSearch.patterns s = true →
     QuickSearch.parseQuickSearch (VString s) = Normal QuickSearch.empty) ∧
  InsightForge.parseInsightForge (VString []) = Normal InsightForge.empty ∧
  Panorama.parsePanorama (VString []) = Normal Panorama.empty ∧
  Interview.parseInterview (VString []) = Normal Interview.empty ∧
  InterviewAlt.parseInterview (VString []) = Normal InterviewAlt.empty ∧
  QuickSearch.parseQuickSearch (VString []) = Normal QuickSearch.empty.
Proof.
  split_and!;
    [apply InsightForge_no_anchor | apply Panorama_no_anchor | apply Interview_no_anchor
    | apply InterviewAlt_no_anchor | apply QuickSearch_no_anchor
    | apply InsightForge_no_anchor | apply Panorama_no_anchor
    | apply Interview_no_anchor | apply InterviewAlt_no_anchor
    | apply QuickSearch_no_anchor ]; vm_compute; reflexivity.
Qed.

Lemma extractors_degrade_witness :
  InsightForge.parseInsightForge (VString plain_text) = Normal InsightForge.empty ∧
  Panorama.parsePanorama (VString plain_text) = Normal Panorama.empty ∧
  Interview.parseInterview (VString plain_text) = Normal Interview.empty ∧
  InterviewAlt.parseInterview (VString plain_text) = Normal InterviewAlt.empty ∧
  QuickSearch.parseQuickSearch (VString plain_text) = Normal QuickSearch.empty.
Proof.
  destruct (extractors_degrade plain_text) as (H1 & H2 & H3 & H4 & H5 & _).
  split_and!; [apply H1|apply H2|apply H3|apply H4|apply H5]; vm_compute; reflexivity.
Defined.



(** C7 (amended): for every argument each extractor returns a record in
    which [facts] holds at most 10 items (InsightForge, QuickSearch),
    [entities] at most 8 (InsightForge) or 10 (Panorama), [relations] at
    most 6, [activeFacts] at most 8, and, in the variant of
    [parseInterview] that cuts them, [quotes] at most 2 per record;
    further matches are dropped without an error. *)
Theorem extractors_cap (text : value) :
  (∃ r, InsightForge.parseInsightForge text = Normal r ∧ InsightForge.capped r) ∧
  (∃ r, Panorama.parsePanorama text = Normal r ∧ Panorama.capped r) ∧
  (∃ r, QuickSearch.parseQuickSearch text = Normal r ∧ QuickSearch.capped r) ∧
  (∃ r, InterviewAlt.parseInterview text = Normal r ∧ InterviewAlt.capped r).
Proof.
  assert (Hi : InsightForge.capped InsightForge.empty)
    by (unfold InsightForge.capped; simpl; lia).
  assert (Hp : Panorama.capped Panorama.empty) by (unfold Panorama.capped; simpl; lia).
  assert (Hq : QuickSearch.capped QuickSearch.empty) by (unfold QuickSearch.capped; simpl; lia).
  assert (Ha : InterviewAlt.capped InterviewAlt.empty) by constructor.
  destruct text as [| | | |s|]; try (split_and!; eexists; (split; [reflexivity|done])).
  split_and!.
  - destruct (extractor_on_string _ _ _ Hi (InsightForge_body_returns s)) as (r & ? & ? & _).
    by exists r.
  - destruct (extractor_on_string _ _ _ Hp (Panorama_body_returns s)) as (r & ? & ? & _).
    by exists r.
  - destruct (extractor_on_string _ _ _ Hq (QuickSearch_body_returns s)) as (r & ? & ? & _).
    by exists r.
  - destruct (extractor_on_string _ _ _ Ha (InterviewAlt_body_returns s)) as (r & ? & ? & _).
    by exists r.
Qed.

(** C7, as stated, fails for [parseInterview] of [Step4Report.vue]: it
    keeps every quote of a record in its result (the display shows the
    first three). *)
Lemma interview_quotes_not_capped :
  match Interview.parseInterview (VString interview_text) with
  | Normal r => map (λ i, length (Interview.quotes i)) (Interview.interviews r)
  | Throw _ => []
  end = [4%nat].
Proof. vm_compute. reflexivity. Qed.

(** The variant that cuts them keeps two. *)
Example interview_quotes_capped :
  match InterviewAlt.parseInterview (VString interview_text) with
  | Normal r => map InterviewAlt.quotes (InterviewAlt.interviews r)
  | Throw _ => []
  end = [[str "quote 1"; str "quote 2"]].
Proof. vm_compute. reflexivity. Qed.

(** Twenty enumerated fact lines: the first ten are kept. *)
Example quick_search_twenty_facts :
  QuickSearch.facts <$> QuickSearch.parseQuickSearch (VString quick_search_text)
  = Normal (map str ["f1"; "f2"; "f3"; "f4"; "f5"; "f6"; "f7"; "f8"; "f9"; "f10"]).
Proof. vm_compute. reflexivity. Qed.

Example insight_forge_twenty_facts :
  InsightForge.facts <$> InsightForge.parseInsightForge (VString insight_forge_text)
  = Normal (map str ["f1"; "f2"; "f3"; "f4"; "f5"; "f6"; "f7"; "f8"; "f9"; "f10"]).
Proof. vm_compute. reflexivity. Qed.

(** The scenario of the specification for InsightForge. *)
Example insight_forge_scenario :
  InsightForge.parseInsightForge
    (VString (str "相关事实: 3\n涉及实体: 5\n关系链: 2\n原始问题: 什么是熵？"))
  = Normal {| InsightForge.query := str "什么是熵？";
              InsightForge.stats :=
                {| InsightForge.Stats.facts := Num 3;
                   InsightForge.Stats.entities := Num 5;
                   InsightForge.Stats.relationships := Num 2 |};
              InsightForge.subQueries := [];
              InsightForge.facts := [];
              InsightForge.entities := [];
              InsightForge.relations := [] |}.
Proof. vm_compute. reflexivity. Qed.

(** The anchors of InsightForge. *)
Example insight_forge_anchors :
  anchors_of InsightForge.patterns
  = map str ["原始问题:"; "相关事实:"; "涉及实体:"; "关系链:"; "### 分析的子问题\n";
             "### 【关键事实】"; "### 【核心实体】\n"; "### 【关系链】\n"].
Proof. vm_compute. reflexivity. Qed.

End Extractors.

(** ** The fold over agent-log entries *)

Section Fold.
Import Js Report Samples.
Local Open Scope Z_scope.

Ltac unfold_entry :=
  unfold apply_entry, on_report_start, on_report_complete, on_section_complete,
    on_section_content, on_section_start, on_planning_complete.

Ltac case_entry :=
  repeat match goal with
         | |- context [if ?b then _ else _] => destruct b
         | |- context [match ?x with Some _ => _ | None => _ end] => destruct x
         end.

Lemma apply_entry_frame st log :
  reportId (apply_entry st log) = reportId st ∧
  agentLogLine (apply_entry st log) = agentLogLine st ∧
  consoleLogLine (apply_entry st log) = consoleLogLine st.
Proof. unfold_entry. case_entry; done. Qed.

Lemma apply_entries_frame st logs :
  reportId (apply_entries st logs) = reportId st ∧
  agentLogLine (apply_entries st logs) = agentLogLine st ∧
  consoleLogLine (apply_entries st logs) = consoleLogLine st.
Proof.
  unfold apply_entries. revert st.
  induction logs as [|log logs IH]; intros st; [done|].
  simpl. destruct (IH (apply_entry st log)) as (-> & -> & ->).
  apply apply_entry_frame.
Qed.

Lemma apply_entry_reportOutline st log :
  reportOutline (apply_entry st log) =
  match planning_outline log with Some o => Some o | None => reportOutline st end.
Proof. unfold_entry. unfold planning_outline. case_entry; reflexivity. Qed.

(** C1, as stated, fails: a second [planning_complete] entry with an
    outline replaces the outline the first one set. *)
Lemma outline_overwritten_by_later_entry :
  let e1 := entry "planning_complete" None (with_outline "first") in
  let e2 := entry "planning_complete" None (with_outline "second") in
  let st1 := apply_entries (mount report_A) [e1] in
  let st2 := apply_entries st1 [e2] in
  (title <$> reportOutline st1) = Some (str "first") ∧
  (title <$> reportOutline st2) = Some (str "second") ∧
  reportOutline st2 ≠ reportOutline st1.
Proof. vm_compute. repeat split; discriminate. Qed.

(** C1 (amended): every [planning_complete] entry that carries an outline
    sets [reportOutline]; after a run of entries the outline is the one of
    the last such entry, and the previous outline when there is none. *)
Theorem outline_last_write_wins st logs :
  reportOutline (apply_entries st logs) =
  match last_outline logs with Some o => Some o | None => reportOutline st end.
Proof.
  unfold apply_entries, last_outline.
  revert st. induction logs as [|log logs IH] using rev_ind; intros st.
  - reflexivity.
  - rewrite foldl_snoc, apply_entry_reportOutline, omap_app. simpl.
    destruct (planning_outline log) as [o|].
    + simpl. by rewrite last_snoc.
    + simpl. rewrite app_nil_r. apply IH.
Qed.

(** C8: a [section_complete] entry with a (non-empty) [details.content]
    writes the content under the entry's [section_index], adds
    [section_index - 1] to the expanded set and sets
    [currentSectionIndex] to [null]; and after the stream
    [section_start 1; section_complete 1 "Body"], from any state,
    [currentSectionIndex] is [null] and [generatedSections[1]] is
    ["Body"]. *)
Theorem section_complete_writes_content st log c :
  action log = "section_complete" →
  details_content log = Some c →
  truthy c = true →
  (generatedSections (apply_entry st log)
     = <[prop_key (section_index log) := c]> (generatedSections st)
   ∧ expandedContent (apply_entry st log)
     = {[minus_one (section_index log)]} ∪ expandedContent st
   ∧ currentSectionIndex (apply_entry st log) = None)
  ∧ ∀ st0,
      let st2 := apply_entries st0
                   [entry "section_start" (Some 1) None;
                    entry "section_complete" (Some 1) (with_content "Body")] in
      currentSectionIndex st2 = None ∧
      generatedSections st2 !! prop_key (Some 1) = Some (str "Body").
Proof.
  intros Ha Hc Ht. split.
  - unfold_entry. unfold is_action. rewrite Ha, Hc, Ht. simpl. done.
  - intros st0. simpl. split; [reflexivity|].
    unfold_entry. simpl. apply lookup_insert_eq.
Qed.

Lemma section_complete_writes_content_witness :
  let st := apply_entry (mount report_A) (entry "section_start" (Some 1) None) in
  let log := entry "section_complete" (Some 1) (with_content "Body") in
  currentSectionIndex st = Some (Some 1) ∧
  generatedSections (apply_entry st log) = <[prop_key (Some 1) := str "Body"]> (generatedSections st) ∧
  expandedContent (apply_entry st log) = {[Some 0]} ∪ expandedContent st ∧
  currentSectionIndex (apply_entry st log) = None.
Proof.
  intros st log. split; [reflexivity|].
  apply (section_complete_writes_content st log (str "Body")); reflexivity.
Defined.

(** C10: a [section_complete] entry without [details.content] (absent, or
    empty, which the test [if (log.details?.content)] treats alike) still
    sets [currentSectionIndex] to [null] and leaves [generatedSections]
    and the expanded set as they were. *)
Theorem section_complete_without_content st log :
  action log = "section_complete" →
  carries_content log = false →
  currentSectionIndex (apply_entry st log) = None ∧
  generatedSections (apply_entry st log) = generatedSections st ∧
  expandedContent (apply_entry st log) = expandedContent st.
Proof.
  intros Ha Hc. unfold_entry. unfold is_action, carries_content in *.
  rewrite Ha. simpl.
  destruct (details_content log) as [c|]; [rewrite Hc|]; done.
Qed.

Lemma section_complete_without_content_witness :
  let st := apply_entries (mount report_A)
              [entry "section_start" (Some 1) None;
               entry "section_complete" (Some 1) (with_content "Body");
               entry "section_start" (Some 2) None] in
  let log := entry "section_complete" (Some 2) None in
  currentSectionIndex st = Some (Some 2) ∧
  currentSectionIndex (apply_entry st log) = None ∧
  generatedSections (apply_entry st log) = generatedSections st ∧
  expandedContent (apply_entry st log) = expandedContent st.
Proof.
  intros st log. split; [reflexivity|].
  apply (section_complete_without_content st log); reflexivity.
Defined.

End Fold.

(** ** Polling *)

Section Polling.
Import Js Report Samples.
Local Open Scope Z_scope.

Lemma fetchAgentLog_reportId o st : has_reportId (fetchAgentLog o st) = has_reportId st.
Proof.
  unfold fetchAgentLog.
  destruct (has_reportId st) eqn:Hid; simpl; [|done].
  destruct (new_logs o) as [[l from]|]; [|done].
  destruct (0 <? length l)%nat; [|done].
  unfold has_reportId in *. simpl.
  by destruct (apply_entries_frame st l) as (-> & _).
Qed.

Lemma fetchConsoleLog_reportId o st : has_reportId (fetchConsoleLog o st) = has_reportId st.
Proof.
  unfold fetchConsoleLog.
  destruct (has_reportId st) eqn:Hid; simpl; [|done].
  destruct (new_logs o) as [[l from]|]; [|done].
  by destruct (0 <? length l)%nat.
Qed.

Lemma fetchAgentLog_cursor o st :
  has_reportId st = true →
  agentLogLine (fetchAgentLog o st) = next_cursor o (agentLogLine st).
Proof.
  intros Hid. unfold fetchAgentLog, next_cursor, count. rewrite Hid. simpl.
  destruct (new_logs o) as [[l from]|]; [|done].
  destruct (0 <? length l)%nat; [|done].
  simpl. done.
Qed.

Lemma fetchConsoleLog_cursor o st :
  has_reportId st = true →
  consoleLogLine (fetchConsoleLog o st) = next_cursor o (consoleLogLine st).
Proof.
  intros Hid. unfold fetchConsoleLog, next_cursor, count. rewrite Hid. simpl.
  destruct (new_logs o) as [[l from]|]; [|done].
  by destruct (0 <? length l)%nat.
Qed.

Lemma failed_new_logs {L} (o : Outcome L) : failed o = true → new_logs o = None.
Proof. destruct o as [|[[] ?]]; simpl; done. Qed.

Lemma fetchAgentLog_failed o st : failed o = true → fetchAgentLog o st = st.
Proof.
  intros Hf. unfold fetchAgentLog. rewrite (failed_new_logs o Hf).
  by destruct (negb (has_reportId st)).
Qed.

Lemma fetchConsoleLog_failed o st : failed o = true → fetchConsoleLog o st = st.
Proof.
  intros Hf. unfold fetchConsoleLog. rewrite (failed_new_logs o Hf).
  by destruct (negb (has_reportId st)).
Qed.

Lemma total_count_snoc {L} (polls : list (Outcome L)) o :
  total_count (polls ++ [o]) = total_count polls + count o.
Proof. unfold total_count. induction polls; simpl; lia. Qed.

Lemma next_cursor_echo {L} (o : Outcome L) (c : Z) :
  echoes c o → next_cursor o c = c + count o.
Proof.
  unfold echoes, next_cursor, count. destruct (new_logs o) as [[l from]|]; [|lia].
  intros ->. destruct (0 <? length l)%nat eqn:E; [done|].
  apply Nat.ltb_ge in E. lia.
Qed.

(** C4, as stated, fails: the cursor is computed from the [from_line] of
    the response, not from the cursor the request was sent with.  A first
    successful poll that brings one entry with [from_line = 5] leaves the
    cursor at 6, not at 1. *)
Lemma cursor_follows_from_line :
  let o := ok 5 [entry "tool_call" None None] in
  let st := mount report_A in
  agentLogLine st = 0 ∧ failed o = false ∧ count o = 1 ∧
  agentLogLine (fetchAgentLog o st) = 6 ∧
  agentLogLine (fetchAgentLog o st) ≠ agentLogLine st + count o.
Proof. vm_compute. repeat split; discriminate. Qed.

(** *** Requests that wait for their answer *)

Lemma fetchAgentLog_answer o st :
  has_reportId st = true → fetchAgentLog o st = Timers.agent_answer o st.
Proof. intros Hid. unfold fetchAgentLog. by rewrite Hid. Qed.

Lemma fetchConsoleLog_answer o st :
  has_reportId st = true → fetchConsoleLog o st = Timers.console_answer o st.
Proof. intros Hid. unfold fetchConsoleLog. by rewrite Hid. Qed.

Lemma agent_answer_reportId o st :
  has_reportId (Timers.agent_answer o st) = has_reportId st.
Proof.
  unfold Timers.agent_answer.
  destruct (new_logs o) as [[l from]|]; [|done].
  destruct (0 <? length l)%nat; [|done].
  unfold has_reportId. simpl.
  by destruct (apply_entries_frame st l) as (-> & _).
Qed.

Lemma console_answer_reportId o st :
  has_reportId (Timers.console_answer o st) = has_reportId st.
Proof.
  unfold Timers.console_answer.
  destruct (new_logs o) as [[l from]|]; [|done].
  by destruct (0 <? length l)%nat.
Qed.

Lemma agent_answer_cursor o st :
  agentLogLine (Timers.agent_answer o st) = next_cursor o (agentLogLine st).
Proof.
  unfold Timers.agent_answer, next_cursor, count.
  destruct (new_logs o) as [[l from]|]; [|done].
  destruct (0 <? length l)%nat; [done|done].
Qed.

Lemma console_answer_cursor o st :
  consoleLogLine (Timers.console_answer o st) = next_cursor o (consoleLogLine st).
Proof.
  unfold Timers.console_answer, next_cursor, count.
  destruct (new_logs o) as [[l from]|]; [|done].
  by destruct (0 <? length l)%nat.
Qed.

(** Requests answered in turn are the polls of [run_agent] and
    [run_console]. *)
Lemma in_turn_run_agent polls : ∀ st,
  has_reportId st = true →
  Timers.run Timers.agent (st, []) (Timers.in_turn polls) = (run_agent st polls, []).
Proof.
  unfold Timers.run, run_agent.
  induction polls as [|o polls IH]; intros st Hid; [done|].
  change (Timers.in_turn (o :: polls))
    with (Timers.Sent :: Timers.Answered o :: Timers.in_turn polls).
  cbn [foldl Timers.step fst snd].
  rewrite Hid. cbn [app fst snd Timers.answer Timers.agent].
  rewrite IH by (by rewrite agent_answer_reportId).
  by rewrite (fetchAgentLog_answer o st Hid).
Qed.

Lemma in_turn_run_console polls : ∀ st,
  has_reportId st = true →
  Timers.run Timers.console (st, []) (Timers.in_turn polls) = (run_console st polls, []).
Proof.
  unfold Timers.run, run_console.
  induction polls as [|o polls IH]; intros st Hid; [done|].
  change (Timers.in_turn (o :: polls))
    with (Timers.Sent :: Timers.Answered o :: Timers.in_turn polls).
  cbn [foldl Timers.step fst snd].
  rewrite Hid. cbn [app fst snd Timers.answer Timers.console].
  rewrite IH by (by rewrite console_answer_reportId).
  by rewrite (fetchConsoleLog_answer o st Hid).
Qed.

Lemma one_at_a_time_take {L} (S : Timers.Stream L) es : ∀ s n,
  Timers.one_at_a_time S s es → Timers.one_at_a_time S s (take n es).
Proof.
  induction es as [|e es IH]; intros s n H; [by destruct n|].
  destruct n as [|n]; [done|]. destruct H as [H1 H2]. split; [done|by apply IH].
Qed.

Lemma echoed_take {L} (S : Timers.Stream L) es : ∀ s n,
  Timers.echoed S s es → Timers.echoed S s (take n es).
Proof.
  induction es as [|e es IH]; intros s n H; [by destruct n|].
  destruct n as [|n]; [done|]. destruct H as [H1 H2]. split; [done|by apply IH].
Qed.

(** With one request at a time and answers that repeat the offset of
    their request, the cursor moves on by the count of each answer. *)
Lemma stream_sum {L} (S : Timers.Stream L) :
  (∀ o st, has_reportId (Timers.answer S o st) = has_reportId st) →
  (∀ o st, Timers.cursor S (Timers.answer S o st) = next_cursor o (Timers.cursor S st)) →
  ∀ es s,
    has_reportId s.1 = true →
    s.2 = [] ∨ s.2 = [Timers.cursor S s.1] →
    Timers.one_at_a_time S s es → Timers.echoed S s es →
    Timers.cursor S (Timers.run S s es).1
    = Timers.cursor S s.1 + total_count (Timers.answers es).
Proof.
  intros Hid Hcur. unfold Timers.run.
  induction es as [|e es IH]; intros [st fl] Hst Hfl Hone Hecho; simpl in *.
  - unfold total_count. simpl. lia.
  - destruct Hone as [Hone1 Hone], Hecho as [Hecho1 Hecho].
    destruct e as [|o]; simpl in *.
    + subst fl. rewrite Hst in *. simpl in *.
      rewrite IH; [done|done|by right|done|done].
    + destruct fl as [|offset rest]; [done|].
      destruct Hfl as [Hfl|Hfl]; [done|]. injection Hfl as -> ->.
      rewrite IH; [|by simpl; rewrite Hid|by left|done|done]. simpl.
      rewrite Hcur, next_cursor_echo by done.
      unfold total_count. simpl. lia.
Qed.

(** Two requests sent with the same offset before the first answer has
    come: both answers repeat the offset, the first entry is in the log
    twice, and the cursor is behind the sum of the counts. *)
Example overlapping_polls_fall_behind :
  let s := Timers.run Timers.agent (mount report_A, []) overlapping_events in
  Timers.echoed Timers.agent (mount report_A, []) overlapping_events ∧
  map count (Timers.answers overlapping_events) = [1; 2] ∧
  agentLogLine s.1 = 2 ∧
  map action (agentLogs s.1) = ["tool_call"; "tool_call"; "tool_result"]%string.
Proof. vm_compute. repeat split. Qed.

(** C4 (amended): for a stream that starts at cursor 0 with a report id
    set, if no request is sent while another one waits for its answer
    (the interval timers do not see to that), and every answer repeats in
    [from_line] the offset its request was sent with, then after each
    step the cursor is the sum of the counts of the answers so far; and
    a poll that fails (rejected, or answered [success: false]) leaves the
    cursor, and the whole state, unchanged.  Both streams. *)
Theorem cursor_is_sum_when_polls_do_not_overlap st
    (aes : list (Timers.Event LogEntry)) (ces : list (Timers.Event jstring)) :
  has_reportId st = true →
  agentLogLine st = 0 →
  consoleLogLine st = 0 →
  Timers.one_at_a_time Timers.agent (st, []) aes →
  Timers.echoed Timers.agent (st, []) aes →
  Timers.one_at_a_time Timers.console (st, []) ces →
  Timers.echoed Timers.console (st, []) ces →
  (∀ n, agentLogLine (Timers.run Timers.agent (st, []) (take n aes)).1
        = total_count (Timers.answers (take n aes))) ∧
  (∀ n, consoleLogLine (Timers.run Timers.console (st, []) (take n ces)).1
        = total_count (Timers.answers (take n ces))) ∧
  (∀ st' o, failed o = true → fetchAgentLog o st' = st' ∧ Timers.agent_answer o st' = st') ∧
  (∀ st' o, failed o = true → fetchConsoleLog o st' = st' ∧ Timers.console_answer o st' = st').
Proof.
  intros Hid Ha Hc Hone_a Hecho_a Hone_c Hecho_c. split_and!.
  - intros n.
    pose proof (stream_sum Timers.agent agent_answer_reportId agent_answer_cursor
                  (take n aes) (st, []) Hid (or_introl eq_refl)
                  (one_at_a_time_take _ _ _ n Hone_a) (echoed_take _ _ _ n Hecho_a)) as H.
    simpl in H. rewrite Ha in H. exact H.
  - intros n.
    pose proof (stream_sum Timers.console console_answer_reportId console_answer_cursor
                  (take n ces) (st, []) Hid (or_introl eq_refl)
                  (one_at_a_time_take _ _ _ n Hone_c) (echoed_take _ _ _ n Hecho_c)) as H.
    simpl in H. rewrite Hc in H. exact H.
  - intros st' o Hf. split; [by apply fetchAgentLog_failed|].
    unfold Timers.agent_answer. by rewrite (failed_new_logs o Hf).
  - intros st' o Hf. split; [by apply fetchConsoleLog_failed|].
    unfold Timers.console_answer. by rewrite (failed_new_logs o Hf).
Qed.

Lemma cursor_is_sum_when_polls_do_not_overlap_witness :
  agentLogLine (Timers.run Timers.agent (mount report_A, [])
                  (Timers.in_turn sample_agent_polls)).1 = 3 ∧
  consoleLogLine (Timers.run Timers.console (mount report_A, [])
                    (Timers.in_turn sample_console_polls)).1 = 3.
Proof.
  destruct (cursor_is_sum_when_polls_do_not_overlap (mount report_A)
              (Timers.in_turn sample_agent_polls) (Timers.in_turn sample_console_polls))
    as (Hsa & Hsc & _);
    [reflexivity|reflexivity|reflexivity
    |vm_compute; repeat split..|].
  split.
  - exact (Hsa 10%nat).
  - exact (Hsc 8%nat).
Defined.

End Polling.

(** ** Switching the report *)

Section Switching.
Import Js Report Samples.
Local Open Scope Z_scope.

(** The watch resets the logs, the cursors, the outline, the current
    section, the generated sections, the three sets, the completion flag
    and the start time, and starts the timers. *)
Lemma on_reportId_resets id st :
  truthy id = true →
  let st' := on_reportId (Some id) st in
  agentLogs st' = [] ∧ consoleLogs st' = [] ∧
  agentLogLine st' = 0 ∧ consoleLogLine st' = 0 ∧
  reportOutline st' = None ∧ currentSectionIndex st' = None ∧
  generatedSections st' = ∅ ∧ expandedContent st' = ∅ ∧
  expandedLogs st' = ∅ ∧ collapsedSections st' = ∅ ∧
  isComplete st' = false ∧ startTime st' = None ∧ polling st' = true.
Proof.
  intros Hid. simpl. unfold on_reportId, startPolling. rewrite Hid. simpl.
  destruct (polling st) eqn:Hp; simpl; repeat split; done.
Qed.

(** It leaves [showRawResult] as it was. *)
Lemma on_reportId_showRawResult id st :
  showRawResult (on_reportId id st) = showRawResult st.
Proof.
  unfold on_reportId, startPolling.
  destruct id as [id|]; [|done]. destruct (truthy id); [|done].
  simpl. by destruct (polling st).
Qed.

(** C9 on the code: in a session for A the user switches one tool result
    to its raw view; the report id then goes A → B → A.  The fields the
    watch resets are those of a fresh session for A, but the toggle of
    the earlier session is still there, so the state is not the state of
    a fresh session. *)
Theorem switch_back_keeps_raw_toggle :
  let t := 1700000000000 in
  let fresh := mount report_A in
  let st := switch_report report_A (switch_report report_B (toggleRawResult t fresh)) in
  (agentLogs st = agentLogs fresh ∧ consoleLogs st = consoleLogs fresh ∧
   agentLogLine st = 0 ∧ consoleLogLine st = 0 ∧
   reportOutline st = None ∧ currentSectionIndex st = None ∧
   generatedSections st = ∅ ∧ isComplete st = false) ∧
  showRawResult fresh !! t = None ∧
  showRawResult st !! t = Some true ∧
  st ≠ fresh.
Proof.
  intros t fresh st.
  assert (Hraw : showRawResult st !! t = Some true) by (vm_compute; reflexivity).
  split; [vm_compute; repeat split; reflexivity|].
  split; [reflexivity|]. split; [exact Hraw|].
  intros Heq. rewrite Heq in Hraw. discriminate Hraw.
Qed.

End Switching.

(** ** The markdown renderer on the two inputs of the specification *)

Section Rendering.
Import Js Regex Markdown.

(** A heading line renders as a heading element alone, with no paragraph
    tag around it. *)
Lemma heading_not_in_paragraph :
  renderMarkdown (str "## Title") = strq "<h3 class='md-h3'>Title</h3>" ∧
  occurrences (str "<p") (renderMarkdown (str "## Title")) = 0%nat.
Proof. vm_compute. split; reflexivity. Qed.

(** C3 on the code: two adjacent list items render as two list
    containers with a line break between them.  The pass that is meant
    to join adjacent items replaces each match by itself ([$1$2], where
    the second group holds the white space), so the line feed between the
    items stays and the run pattern, whose dot stops at a line feed,
    wraps each item on its own. *)
Theorem two_items_two_containers :
  renderMarkdown (str "- item\n- item2")
  = strq "<ul class='md-ul'><li class='md-li'>item</li></ul><br><ul class='md-ul'><li class='md-li'>item2</li></ul>"
  ∧ occurrences (str "<ul") (renderMarkdown (str "- item\n- item2")) = 2%nat
  ∧ occurrences (str "<li") (renderMarkdown (str "- item\n- item2")) = 2%nat.
Proof. vm_compute. repeat split; reflexivity. Qed.

(** The joining pass changes nothing on these items. *)
Lemma ul_adjacent_pass_is_identity :
  let items := strq "<li class='md-li'>item</li>\n<li class='md-li'>item2</li>" in
  pass re_ul_adjacent (str "$1$2") items = items.
Proof. vm_compute. reflexivity. Qed.

End Rendering.

(** ** Rounding to a double, and the completion percentage *)

Section Progress.
Import Double.
Local Open Scope Q_scope.













(** The operations above give what the binary64 operations of the
    Standard Library give, here for all counts up to 40: the quotient,
    and the percentage made of it. *)
Lemma div_agrees_with_binary64 :
  forallb (λ ct, match spec_div ct.1 ct.2 with
                 | Some q => Qeq_bool q (div (inject_Z ct.1) (inject_Z ct.2))
                 | None => false
                 end) (Samples.counts 40) = true.
Proof. vm_compute. reflexivity. Qed.

Lemma percent_agrees_with_binary64 :
  forallb (λ ct, bool_decide (spec_percent ct.1 ct.2 = Some (Report.percent ct.1 ct.2)))
          (Samples.counts 40) = true.
Proof. vm_compute. reflexivity. Qed.

(** 23 sections of 40 are 57.5 percent; the quotient 23 / 40 is rounded
    down to a double, the product with 100 falls below 57.5, and the
    percentage shown is 57. *)
Example percent_at_a_tie : Report.percent 23 40 = 57%Z ∧ spec_percent 23 40 = Some 57%Z.
Proof. vm_compute. split; reflexivity. Qed.

End Progress.

Section ProgressOfState.
Import Js Report Samples.
Local Open Scope Z_scope.



(** One section of three is 33 percent. *)
Example progressPercent_one_of_three :
  totalSections one_of_three = 3 ∧ completedSections one_of_three = 1 ∧
  progressPercent one_of_three = 33.
Proof. vm_compute. repeat split; reflexivity. Qed.

End ProgressOfState.

(** ** More on the fold, the polls and the session *)

Ltac unfold_entry :=
  unfold Report.apply_entry, Report.on_report_start, Report.on_report_complete,
    Report.on_section_complete, Report.on_section_content, Report.on_section_start,
    Report.on_planning_complete.

Ltac case_entry :=
  repeat match goal with
         | |- context [if ?b then _ else _] => destruct b
         | |- context [match ?x with Some _ => _ | None => _ end] => destruct x
         end.

Section Ingestion.
Import Js Report Samples View InterviewDisplay.
Local Open Scope Z_scope.


Lemma apply_entry_agentLogs st log : agentLogs (apply_entry st log) = agentLogs st ++ [log].
Proof. unfold_entry. case_entry; reflexivity. Qed.

Lemma apply_entries_agentLogs st logs :
  agentLogs (apply_entries st logs) = agentLogs st ++ logs.
Proof.
  unfold apply_entries. revert st.
  induction logs as [|log logs IH]; intros st; simpl.
  - by rewrite app_nil_r.
  - rewrite IH, apply_entry_agentLogs, <- app_assoc. done.
Qed.

Lemma apply_entries_consoleLogs st logs :
  consoleLogs (apply_entries st logs) = consoleLogs st.
Proof.
  unfold apply_entries. revert st.
  induction logs as [|log logs IH]; intros st; simpl; [done|].
  rewrite IH. unfold_entry. case_entry; reflexivity.
Qed.

Lemma fetchAgentLog_agentLogs o st :
  has_reportId st = true →
  agentLogs (fetchAgentLog o st) = agentLogs st ++ brought o.
Proof.
  intros Hid. unfold fetchAgentLog, brought. rewrite Hid. simpl.
  destruct (new_logs o) as [[l from]|]; [|by rewrite app_nil_r].
  destruct l as [|e l]; simpl; [by rewrite app_nil_r|].
  apply (apply_entries_agentLogs st (e :: l)).
Qed.

Lemma fetchConsoleLog_consoleLogs o st :
  has_reportId st = true →
  consoleLogs (fetchConsoleLog o st) = consoleLogs st ++ brought o.
Proof.
  intros Hid. unfold fetchConsoleLog, brought. rewrite Hid. simpl.
  destruct (new_logs o) as [[l from]|]; [|by rewrite app_nil_r].
  destruct l as [|e l]; simpl; [by rewrite app_nil_r|]. done.
Qed.

Lemma run_agent_reportId st polls : has_reportId (run_agent st polls) = has_reportId st.
Proof.
  unfold run_agent. revert st. induction polls as [|o polls IH]; intros st; simpl; [done|].
  by rewrite IH, fetchAgentLog_reportId.
Qed.

Lemma run_console_reportId st polls : has_reportId (run_console st polls) = has_reportId st.
Proof.
  unfold run_console. revert st. induction polls as [|o polls IH]; intros st; simpl; [done|].
  by rewrite IH, fetchConsoleLog_reportId.
Qed.

Lemma run_agent_agentLogs st polls :
  has_reportId st = true →
  agentLogs (run_agent st polls) = agentLogs st ++ brought_by polls.
Proof.
  unfold run_agent, brought_by. revert st.
  induction polls as [|o polls IH]; intros st Hid; simpl.
  - by rewrite app_nil_r.
  - rewrite IH by (by rewrite fetchAgentLog_reportId).
    rewrite fetchAgentLog_agentLogs by done. by rewrite <- app_assoc.
Qed.

Lemma run_console_consoleLogs st polls :
  has_reportId st = true →
  consoleLogs (run_console st polls) = consoleLogs st ++ brought_by polls.
Proof.
  unfold run_console, brought_by. revert st.
  induction polls as [|o polls IH]; intros st Hid; simpl.
  - by rewrite app_nil_r.
  - rewrite IH by (by rewrite fetchConsoleLog_reportId).
    rewrite fetchConsoleLog_consoleLogs by done. by rewrite <- app_assoc.
Qed.

(** X2: the two logs on display are, in order, everything the successful
    polls brought: nothing is dropped, reordered or merged. *)
Theorem logs_are_what_polls_brought st
    (apolls : list (Outcome LogEntry)) (cpolls : list (Outcome jstring)) :
  has_reportId st = true →
  displayLogs (run_agent st apolls) = agentLogs st ++ brought_by apolls ∧
  consoleLogs (run_console st cpolls) = consoleLogs st ++ brought_by cpolls.
Proof.
  intros Hid. split.
  - by apply run_agent_agentLogs.
  - by apply run_console_consoleLogs.
Qed.

Lemma logs_are_what_polls_brought_witness :
  map action (displayLogs (run_agent (mount report_A) sample_agent_polls))
    = ["report_start"; "planning_start"; "section_start"]%string ∧
  consoleLogs (run_console (mount report_A) sample_console_polls)
    = [str "INFO a"; str "INFO b"; str "ERROR c"].
Proof.
  destruct (logs_are_what_polls_brought (mount report_A)
              sample_agent_polls sample_console_polls eq_refl) as [Ha Hc].
  split.
  - rewrite Ha. reflexivity.
  - rewrite Hc. reflexivity.
Defined.


(** *** Section contents *)

Lemma pretty_N_go_digits x s : all_digits s = true → all_digits (pretty_N_go x s) = true.
Proof.
  revert s. induction (N.lt_wf_0 x) as [x _ IH]; intros s Hs.
  assert (x = 0 ∨ 0 < x)%N as [->|?] by lia.
  - by rewrite pretty_N_go_0.
  - rewrite pretty_N_go_step by done. apply IH.
    { by apply N.div_lt. }
    simpl. rewrite Hs. unfold pretty_N_char. by repeat case_match.
Qed.

Lemma pretty_Z_not_undefined (z : Z) : pretty z ≠ "undefined"%string.
Proof.
  destruct z as [|p|p]; [done| |done].
  unfold pretty, pretty_Z, pretty, pretty_positive, pretty, pretty_N.
  case_decide; [done|].
  intros Heq. pose proof (pretty_N_go_digits (N.pos p) "" eq_refl) as Hd.
  rewrite Heq in Hd. discriminate Hd.
Qed.

Lemma prop_key_inj i j : prop_key i = prop_key j → i = j.
Proof.
  destruct i as [i|], j as [j|]; simpl; intros Heq; [|exfalso..|done].
  - f_equal. by apply (inj pretty).
  - by apply (pretty_Z_not_undefined i).
  - by apply (pretty_Z_not_undefined j).
Qed.

Lemma apply_entry_generatedSections st log :
  generatedSections (apply_entry st log) =
  if is_action log "section_complete" && carries_content log
  then <[prop_key (section_index log) := default [] (details_content log)]> (generatedSections st)
  else generatedSections st.
Proof.
  unfold_entry. unfold carries_content.
  destruct (is_action log "section_complete"); simpl.
  - destruct (details_content log) as [c|]; simpl; [destruct (truthy c)|]; case_entry; reflexivity.
  - case_entry; reflexivity.
Qed.

Lemma carries_content_truthy log :
  carries_content log = true → truthy (default [] (details_content log)) = true.
Proof. unfold carries_content. by destruct (details_content log). Qed.

Lemma apply_entry_generated i st log :
  generated i (apply_entry st log) = generated i st || completes i log.
Proof.
  unfold generated, completes. rewrite apply_entry_generatedSections.
  destruct (is_action log "section_complete" && carries_content log) eqn:E; simpl.
  - apply andb_prop in E as [_ Hc%carries_content_truthy].
    case_bool_decide as Hi.
    + rewrite Hi, lookup_insert_eq, Hc. by rewrite orb_true_r.
    + rewrite lookup_insert_ne by (intros Hk; by apply Hi, (prop_key_inj _ (Some i))).
      by rewrite orb_false_r.
  - by rewrite orb_false_r.
Qed.

(** X3: a section counts as completed exactly when it did before or one
    of the entries is a [section_complete] for its index that carries a
    content. *)
Theorem section_completed_iff_entry i st logs :
  isSectionCompleted i (apply_entries st logs)
  = isSectionCompleted i st || existsb (completes i) logs.
Proof.
  unfold isSectionCompleted, apply_entries. rewrite !negb_involutive. revert st.
  induction logs as [|log logs IH]; intros st; simpl.
  - by rewrite orb_false_r.
  - by rewrite IH, apply_entry_generated, orb_assoc.
Qed.

Lemma apply_entry_completedSections st log :
  completedSections st ≤ completedSections (apply_entry st log)
  ≤ completedSections st
    + (if is_action log "section_complete" && carries_content log then 1 else 0).
Proof.
  unfold completedSections. rewrite apply_entry_generatedSections.
  destruct (is_action log "section_complete" && carries_content log); [|lia].
  destruct (generatedSections st !! prop_key (section_index log)) eqn:E.
  - rewrite map_size_insert_Some by done. lia.
  - rewrite map_size_insert_None by done. lia.
Qed.

(** X4: the number of completed sections never goes down while entries
    are folded in, and goes up by at most one for each [section_complete]
    entry that carries a content. *)
Theorem completed_sections_grow st logs :
  completedSections st ≤ completedSections (apply_entries st logs)
  ≤ completedSections st
    + Z.of_nat (length (List.filter
        (λ log, is_action log "section_complete" && carries_content log) logs)).
Proof.
  unfold apply_entries. revert st.
  induction logs as [|log logs IH]; intros st; simpl; [lia|].
  specialize (IH (apply_entry st log)).
  pose proof (apply_entry_completedSections st log) as H1.
  destruct (is_action log "section_complete" && carries_content log); simpl length; lia.
Qed.

(** *** Completion *)

Lemma apply_entry_isComplete st log :
  isComplete (apply_entry st log) = isComplete st || is_report_complete log ∧
  polling (apply_entry st log) = polling st && negb (is_report_complete log).
Proof.
  unfold_entry. unfold is_report_complete.
  destruct (is_action log "report_complete");
    case_entry; simpl; rewrite ?orb_true_r, ?orb_false_r, ?andb_true_r, ?andb_false_r; done.
Qed.

(** X5: completion is final for the fold.  After a run of entries the
    report is complete exactly when it was before or a [report_complete]
    entry is among them, and the timers run exactly when they did before
    and no such entry is among them. *)
Theorem report_complete_is_final st logs :
  isComplete (apply_entries st logs) = isComplete st || existsb is_report_complete logs ∧
  polling (apply_entries st logs) = polling st && negb (existsb is_report_complete logs).
Proof.
  unfold apply_entries. revert st.
  induction logs as [|log logs IH]; intros st; simpl.
  - by rewrite orb_false_r, andb_true_r.
  - destruct (IH (apply_entry st log)) as [-> ->].
    destruct (apply_entry_isComplete st log) as [-> ->].
    rewrite negb_orb. by rewrite orb_assoc, andb_assoc.
Qed.

Lemma apply_entries_isComplete st logs :
  isComplete (apply_entries st logs) = isComplete st || existsb is_report_complete logs.
Proof.
  unfold apply_entries. revert st.
  induction logs as [|log logs IH]; intros st; simpl.
  - by rewrite orb_false_r.
  - rewrite IH. destruct (apply_entry_isComplete st log) as [-> _]. by rewrite orb_assoc.
Qed.

(** X6: in a session the status is [pending] until the first entry has
    come, [processing] from then on, and [completed] once a
    [report_complete] entry has come; the label follows the class. *)
Theorem status_follows_entries id logs :
  let st := apply_entries (mount id) logs in
  (statusClass st, statusText st) =
  if existsb is_report_complete logs then ("completed", "Completed")
  else match logs with
       | [] => ("pending", "Waiting")
       | _ :: _ => ("processing", "Generating...")
       end%string.
Proof.
  intros st. unfold statusClass, statusText. subst st.
  rewrite apply_entries_isComplete, apply_entries_agentLogs.
  assert (Hm : isComplete (mount id) = false ∧ agentLogs (mount id) = []).
  { unfold mount, onMounted, on_reportId, startPolling, has_reportId. simpl.
    destruct id as [[|c id]|]; simpl; done. }
  destruct Hm as [-> ->]. simpl.
  destruct (existsb is_report_complete logs); [done|]. by destruct logs.
Qed.

(** X7: an entry whose action the fold has no branch for (a tool call, a
    tool result, a response of the model, an action that is not known) is
    kept in the log and changes nothing else. *)
Theorem other_entries_are_only_kept st log :
  ¬ In (action log) handled →
  apply_entry st log = push_log log st.
Proof.
  intros Hn. unfold handled in Hn. simpl in Hn.
  assert (H : ∀ a, In a handled → is_action log a = false).
  { intros a Ha. unfold is_action. apply String.eqb_neq. intros Heq.
    apply Hn. unfold handled in Ha. simpl in Ha. rewrite Heq. tauto. }
  unfold_entry.
  rewrite (H "planning_complete"), (H "section_start"), (H "section_complete"),
    (H "report_complete"), (H "report_start") by (unfold handled; simpl; tauto).
  by destruct (is_action log "section_content" || is_action log "subsection_content").
Qed.

Lemma other_entries_are_only_kept_witness :
  let log := entry "tool_call" None None in
  apply_entry (mount report_A) log = push_log log (mount report_A).
Proof.
  intros log. apply (other_entries_are_only_kept (mount report_A) log).
  vm_compute. intros H. repeat (destruct H as [H|H]; [discriminate H|]). exact H.
Defined.


(** *** Batches and streams *)

Lemma set_agentLogLine_id st : set_agentLogLine (agentLogLine st) st = st.
Proof. by destruct st. Qed.

Lemma apply_entry_set_agentLogLine n st log :
  apply_entry (set_agentLogLine n st) log = set_agentLogLine n (apply_entry st log).
Proof. unfold_entry. case_entry; reflexivity. Qed.

Lemma apply_entries_set_agentLogLine n st logs :
  apply_entries (set_agentLogLine n st) logs = set_agentLogLine n (apply_entries st logs).
Proof.
  unfold apply_entries. revert st.
  induction logs as [|log logs IH]; intros st; simpl; [done|].
  by rewrite apply_entry_set_agentLogLine, IH.
Qed.

Lemma apply_entry_push_consoleLogs l n st log :
  apply_entry (push_consoleLogs l n st) log = push_consoleLogs l n (apply_entry st log).
Proof. unfold_entry. case_entry; reflexivity. Qed.

Lemma apply_entries_push_consoleLogs l n st logs :
  apply_entries (push_consoleLogs l n st) logs = push_consoleLogs l n (apply_entries st logs).
Proof.
  unfold apply_entries. revert st.
  induction logs as [|log logs IH]; intros st; simpl; [done|].
  by rewrite apply_entry_push_consoleLogs, IH.
Qed.

Lemma fetchAgentLog_fold o st :
  has_reportId st = true →
  fetchAgentLog o st
  = set_agentLogLine (agentLogLine (fetchAgentLog o st)) (apply_entries st (brought o)).
Proof.
  intros Hid. unfold fetchAgentLog, brought. rewrite Hid. simpl.
  destruct (new_logs o) as [[l from]|]; [|by rewrite set_agentLogLine_id].
  destruct l as [|e l]; [by rewrite set_agentLogLine_id|]. reflexivity.
Qed.

(** X8: entries have the same effect however they are spread over the
    polls.  The state after a run of polls is the state after one fold
    over all the entries the polls brought, in order; the cursor alone
    depends on how they came. *)
Theorem batching_does_not_matter st polls :
  has_reportId st = true →
  run_agent st polls
  = set_agentLogLine (agentLogLine (run_agent st polls))
      (apply_entries st (brought_by polls)).
Proof.
  unfold run_agent, brought_by. revert st.
  induction polls as [|o polls IH]; intros st Hid; simpl.
  - by rewrite set_agentLogLine_id.
  - rewrite IH at 1 by (by rewrite fetchAgentLog_reportId).
    rewrite (fetchAgentLog_fold o st Hid) at 2.
    rewrite apply_entries_set_agentLogLine.
    unfold apply_entries. rewrite foldl_app. reflexivity.
Qed.

Lemma batching_does_not_matter_witness :
  run_agent (mount report_A) sample_agent_polls
  = set_agentLogLine 3
      (apply_entries (mount report_A)
         [entry "report_start" None None; entry "planning_start" None None;
          entry "section_start" (Some 1) None]).
Proof.
  rewrite (batching_does_not_matter (mount report_A) sample_agent_polls eq_refl).
  reflexivity.
Defined.

(** X9: the two streams do not interfere: a poll of the agent log and a
    poll of the console log give the same state in either order. *)
Theorem streams_commute (a : Outcome LogEntry) (c : Outcome jstring) st :
  fetchAgentLog a (fetchConsoleLog c st) = fetchConsoleLog c (fetchAgentLog a st).
Proof.
  unfold fetchConsoleLog at 2. unfold fetchAgentLog at 1.
  rewrite fetchAgentLog_reportId, fetchConsoleLog_reportId.
  destruct (has_reportId st) eqn:Hid; simpl.
  2: { unfold fetchAgentLog, fetchConsoleLog. by rewrite Hid. }
  unfold fetchAgentLog, fetchConsoleLog. rewrite Hid. simpl.
  destruct (new_logs a) as [[la fa]|], (new_logs c) as [[lc fc]|]; try done.
  destruct (0 <? length la)%nat, (0 <? length lc)%nat; try done.
  by rewrite apply_entries_push_consoleLogs.
Qed.

(** *** Sessions *)

Lemma startPolling_on st : polling st = true → startPolling st = st.
Proof. unfold startPolling. by intros ->. Qed.

(** X10: switching to a report the view was not showing gives the state of
    a fresh session for that report, provided no raw-output toggle has
    been used; so does going away to any other id and coming back. *)
Theorem switch_gives_fresh_session a st :
  truthy a = true →
  showRawResult st = ∅ →
  (reportId st ≠ Some a → switch_report (Some a) st = mount (Some a)) ∧
  (∀ b, b ≠ Some a → switch_report (Some a) (switch_report b st) = mount (Some a)).
Proof.
  intros Ha Hraw.
  assert (Hfresh : ∀ st', showRawResult st' = ∅ → reportId st' ≠ Some a →
                          switch_report (Some a) st' = mount (Some a)).
  { intros st' Hraw' Hne. unfold switch_report, mount, onMounted.
    rewrite bool_decide_eq_false_2 by done.
    unfold on_reportId. rewrite Ha. unfold has_reportId, startPolling. simpl.
    rewrite Ha, Hraw'. simpl. by destruct (polling st'). }
  split; [by apply Hfresh|].
  intros b Hb. apply Hfresh.
  - unfold switch_report. case_bool_decide; [done|].
    by rewrite on_reportId_showRawResult.
  - unfold switch_report. case_bool_decide as Hid; [by rewrite Hid|].
    unfold on_reportId, startPolling. simpl.
    destruct b as [b|]; [|done]. destruct (truthy b); [|done].
    simpl. by destruct (polling st).
Qed.

Lemma switch_gives_fresh_session_witness :
  let st := one_of_three in
  switch_report report_A (switch_report report_B st) = mount report_A.
Proof.
  intros st.
  destruct (switch_gives_fresh_session (str "report-A") st eq_refl eq_refl) as [_ H].
  apply (H report_B). discriminate.
Defined.

Lemma fetchAgentLog_no_id o st : has_reportId st = false → fetchAgentLog o st = st.
Proof. intros Hid. unfold fetchAgentLog. by rewrite Hid. Qed.

Lemma fetchConsoleLog_no_id o st : has_reportId st = false → fetchConsoleLog o st = st.
Proof. intros Hid. unfold fetchConsoleLog. by rewrite Hid. Qed.

(** X11: without a report id nothing is fetched.  A view mounted with no id
    (or an empty one) stays in its initial state, timers off, whatever
    the polls would bring; and in any state without an id a run of polls
    changes nothing. *)
Theorem no_report_id_no_effect st id
    (apolls : list (Outcome LogEntry)) (cpolls : list (Outcome jstring)) :
  (has_reportId st = false →
     run_agent st apolls = st ∧ run_console st cpolls = st) ∧
  (has_reportId (setup id) = false →
     mount id = setup id ∧ polling (mount id) = false ∧
     run_agent (mount id) apolls = setup id ∧ run_console (mount id) cpolls = setup id).
Proof.
  assert (Hrun : ∀ st', has_reportId st' = false →
            run_agent st' apolls = st' ∧ run_console st' cpolls = st').
  { intros st' Hid. split.
    - unfold run_agent. induction apolls as [|o polls IH]; simpl; [done|].
      by rewrite fetchAgentLog_no_id.
    - unfold run_console. induction cpolls as [|o polls IH]; simpl; [done|].
      by rewrite fetchConsoleLog_no_id. }
  split; [apply Hrun|].
  intros Hid.
  assert (Hm : mount id = setup id).
  { unfold mount, onMounted, on_reportId. unfold has_reportId in Hid. simpl in Hid.
    destruct id as [id|]; [rewrite Hid|]; unfold has_reportId; simpl; by rewrite ?Hid. }
  rewrite Hm. destruct (Hrun (setup id) Hid) as [-> ->]. done.
Qed.

Lemma no_report_id_no_effect_witness :
  run_agent (mount None) sample_agent_polls = setup None ∧
  run_console (mount (Some [])) sample_console_polls = setup (Some []).
Proof.
  split.
  - destruct (no_report_id_no_effect (setup None) None sample_agent_polls []) as [_ H].
    destruct (H eq_refl) as (_ & _ & Ha & _). exact Ha.
  - destruct (no_report_id_no_effect (setup None) (Some []) [] sample_console_polls) as [_ H].
    destruct (H eq_refl) as (_ & _ & _ & Hc). exact Hc.
Defined.

(** X12: the count of tool calls on display is the count before plus the
    number of [tool_call] entries the polls brought. *)
Theorem tool_calls_are_counted st polls :
  has_reportId st = true →
  totalToolCalls (run_agent st polls)
  = (totalToolCalls st
     + length (List.filter (λ l, is_action l "tool_call") (brought_by polls)))%nat.
Proof.
  intros Hid. unfold totalToolCalls.
  by rewrite run_agent_agentLogs, List.filter_app, length_app.
Qed.

Lemma tool_calls_are_counted_witness :
  totalToolCalls (run_agent (mount report_A)
    [ok 0 [entry "tool_call" None None; entry "tool_result" None None]; Rejected;
     ok 2 [entry "tool_call" None None]]) = 2%nat.
Proof.
  rewrite (tool_calls_are_counted (mount report_A) _ eq_refl). reflexivity.
Defined.


(** *** What the user folds and unfolds *)

Lemma elem_of_toggled {A} {HE : EqDecision A} {HC : Countable A} (x y : A) (s : gset A) :
  y ∈ toggled x s ↔ (if decide (y = x) then y ∉ s else y ∈ s).
Proof.
  unfold toggled. case_bool_decide as Hx; destruct (decide (y = x)) as [->|Hy];
    rewrite ?elem_of_difference, ?elem_of_union, ?elem_of_singleton; intuition congruence.
Qed.

Lemma toggled_twice {A} {HE : EqDecision A} {HC : Countable A} (x : A) (s : gset A) :
  toggled x (toggled x s) = s.
Proof.
  apply set_eq. intros y. rewrite elem_of_toggled.
  destruct (decide (y = x)) as [->|Hy].
  - rewrite elem_of_toggled, decide_True by done. destruct (decide (x ∈ s)); tauto.
  - by rewrite elem_of_toggled, decide_False.
Qed.

(** X13: each of the three toggles undoes itself: two clicks on the same
    section, or on the same log entry, leave the state as it was. *)
Theorem toggling_twice_restores idx log st :
  toggleSectionContent idx (toggleSectionContent idx st) = st ∧
  toggleSectionCollapse idx (toggleSectionCollapse idx st) = st ∧
  toggleLogExpand log (toggleLogExpand log st) = st.
Proof.
  split_and!.
  - unfold toggleSectionContent. destruct (generated (idx + 1) st) eqn:Hg; simpl.
    + change (generated (idx + 1) (set_expandedContent _ st)) with (generated (idx + 1) st).
      rewrite Hg. simpl. rewrite toggled_twice. by destruct st.
    + by rewrite Hg.
  - unfold toggleSectionCollapse. destruct (generated (idx + 1) st) eqn:Hg; simpl.
    + change (generated (idx + 1) (set_collapsedSections _ st)) with (generated (idx + 1) st).
      rewrite Hg. simpl. rewrite toggled_twice. by destruct st.
    + by rewrite Hg.
  - unfold toggleLogExpand. simpl. rewrite toggled_twice. by destruct st.
Qed.

Lemma apply_entry_section_listed idx st log :
  action log = "section_complete"%string →
  section_listed idx (apply_entry st log) = section_listed idx st.
Proof.
  intros Ha. unfold section_listed.
  rewrite apply_entry_reportOutline. unfold planning_outline, is_action. by rewrite Ha.
Qed.

(** X14: the body of a section can be shown only once the section has a
    content.  After the [section_complete] entry that brings the content
    of section [i], the body of the card of that section is on display
    if the outline lists the section (and only then: without an outline
    no card is rendered); a click on the card then hides it.  On a
    section without content the body is not shown, and a click, on the
    header or on the collapse control, does nothing. *)
Theorem only_completed_sections_unfold st log i j :
  (action log = "section_complete" → carries_content log = true →
   section_index log = Some i →
     let st' := apply_entry st log in
     section_shown (i - 1) st' = section_listed (i - 1) st ∧
     section_shown (i - 1) (toggleSectionContent (i - 1) st') = false) ∧
  (generated (j + 1) st = false →
     section_shown j st = false ∧
     toggleSectionContent j st = st ∧ toggleSectionCollapse j st = st).
Proof.
  split.
  - intros Ha Hc Hi st'.
    assert (Hg : generated (i - 1 + 1) st' = true).
    { subst st'. rewrite apply_entry_generated. unfold completes, is_action.
      rewrite Ha, Hc, Hi. simpl. rewrite bool_decide_eq_true_2 by (f_equal; lia).
      by rewrite orb_true_r. }
    assert (He : Some (i - 1) ∈ expandedContent st').
    { subst st'. unfold_entry. unfold is_action, carries_content in *. rewrite Ha. simpl.
      destruct (details_content log) as [c|]; [|done]. rewrite Hc, Hi. simpl.
      apply elem_of_union_l. by apply elem_of_singleton. }
    assert (Hl : section_listed (i - 1) st' = section_listed (i - 1) st).
    { subst st'. by apply apply_entry_section_listed. }
    unfold section_shown, toggleSectionContent. rewrite Hg. cbn [negb].
    rewrite bool_decide_eq_true_2 by done. rewrite Hl, !andb_true_r. split; [done|].
    change (generated (i - 1 + 1) (set_expandedContent ?s st')) with (generated (i - 1 + 1) st').
    change (expandedContent (set_expandedContent ?s st')) with s.
    rewrite Hg, andb_true_r.
    rewrite bool_decide_eq_false_2; [by rewrite andb_false_r|].
    rewrite elem_of_toggled, decide_True by done. by intros Hn.
  - intros Hg. unfold section_shown, toggleSectionContent, toggleSectionCollapse.
    rewrite Hg. simpl. by rewrite !andb_false_r.
Qed.

Lemma only_completed_sections_unfold_witness :
  let log := entry "section_complete" (Some 2) (with_content "Second") in
  let st' := apply_entry one_of_three log in
  section_shown 1 st' = true ∧
  section_shown 1 (toggleSectionContent 1 st') = false ∧
  section_shown 2 one_of_three = false ∧
  toggleSectionContent 2 one_of_three = one_of_three.
Proof.
  intros log st'.
  destruct (only_completed_sections_unfold one_of_three log 2 2) as [H1 H2].
  destruct (H1 eq_refl eq_refl eq_refl) as [Ha Hb].
  destruct (H2 eq_refl) as (Hs & Hc & _).
  split_and!; [exact Ha|exact Hb|exact Hs|exact Hc].
Defined.

(** Without an outline no card is rendered, whatever has been generated. *)
Example no_outline_no_card :
  let st' := apply_entry (mount report_A)
               (entry "section_complete" (Some 1) (with_content "Body")) in
  generated 1 st' = true ∧ section_shown 0 st' = false.
Proof. vm_compute. split; reflexivity. Qed.

(** X15: what is folded is keyed by the time stamp.  A click on an entry
    flips the folded state of every tool call, tool result and model
    response that has the same time stamp, and of no other entry; the
    other kinds of entry are never folded. *)
Theorem entries_fold_by_timestamp log clicked st :
  isLogCollapsed log (toggleLogExpand clicked st)
  = if collapsible log && bool_decide (timestamp log = timestamp clicked)
    then negb (isLogCollapsed log st)
    else isLogCollapsed log st.
Proof.
  unfold isLogCollapsed, toggleLogExpand.
  change (expandedLogs (set_expandedLogs ?s st)) with s.
  destruct (collapsible log); cbn [andb]; [|done].
  destruct (decide (timestamp log = timestamp clicked)) as [Ht|Ht].
  - rewrite (bool_decide_eq_true_2 _ Ht).
    destruct (decide (timestamp log ∈ expandedLogs st)) as [Hin|Hin].
    + rewrite (bool_decide_eq_true_2 _ Hin), bool_decide_eq_false_2; [done|].
      rewrite elem_of_toggled, decide_True by done. tauto.
    + rewrite (bool_decide_eq_false_2 _ Hin), bool_decide_eq_true_2; [done|].
      by rewrite elem_of_toggled, decide_True.
  - rewrite (bool_decide_eq_false_2 _ Ht). f_equal. apply bool_decide_ext.
    by rewrite elem_of_toggled, decide_False.
Qed.

(** *** Console lines and long texts *)

Lemma startsWith_app s b p : startsWith s p = true → startsWith (s ++ b) p = true.
Proof.
  unfold startsWith. destruct (strip_prefix p s) as [t|] eqn:E; [|done]. intros _.
  apply strip_prefix_app in E as ->. rewrite <- app_assoc.
  assert (H : ∀ q r, strip_prefix q (q ++ r) = Some r).
  { induction q as [|a q IH]; intros r; simpl; [done|]. by rewrite N.eqb_refl. }
  by rewrite H.
Qed.

Lemma includes_app_r s b p : includes s p = true → includes (s ++ b) p = true.
Proof.
  induction s as [|c s IH]; simpl.
  - rewrite orb_false_r. intros Hs. destruct b; simpl.
    + by rewrite Hs.
    + apply (startsWith_app [] (c :: b)) in Hs. simpl in Hs. by rewrite Hs.
  - intros [Hs|Hi]%orb_prop.
    + apply (startsWith_app (c :: s) b) in Hs. simpl in Hs. by rewrite Hs.
    + rewrite IH by done. by rewrite orb_true_r.
Qed.

Lemma includes_app_l a s p : includes s p = true → includes (a ++ s) p = true.
Proof.
  intros Hi. induction a as [|c a IH]; simpl; [done|]. by rewrite IH, orb_true_r.
Qed.

Lemma includes_middle a s b p : includes s p = true → includes (a ++ s ++ b) p = true.
Proof. intros Hi. by apply includes_app_l, includes_app_r. Qed.

(** X16: the level of a console line depends on the marks it holds, not on
    where they stand: a line that holds a line marked as an error is
    marked as an error, and a line that holds a line marked as a warning
    is marked as a warning unless it is marked as an error. *)
Theorem log_level_survives_context before log after :
  (getLogLevelClass log = "error"%string →
     getLogLevelClass (before ++ log ++ after) = "error"%string) ∧
  (getLogLevelClass log = "warning"%string →
     getLogLevelClass (before ++ log ++ after) = "warning"%string ∨
     getLogLevelClass (before ++ log ++ after) = "error"%string).
Proof.
  unfold getLogLevelClass. split.
  - destruct (includes log (str "ERROR")) eqn:E1; simpl.
    { intros _. by rewrite (includes_middle _ _ _ _ E1). }
    destruct (includes log (str "错误")) eqn:E2; simpl.
    { intros _. by rewrite (includes_middle _ _ _ _ E2), orb_true_r. }
    by destruct (_ || _).
  - destruct (includes log (str "ERROR") || includes log (str "错误")); [done|].
    destruct (includes log (str "WARNING")) eqn:E1; simpl.
    { intros _. rewrite (includes_middle _ _ _ _ E1). simpl.
      destruct (_ || _); auto. }
    destruct (includes log (str "警告")) eqn:E2; simpl; [|done].
    intros _. rewrite (includes_middle _ _ _ _ E2), orb_true_r.
    destruct (_ || _); auto.
Qed.

Lemma log_level_survives_context_witness :
  getLogLevelClass (str "[12:00:01] " ++ str "ERROR: failed" ++ str " (WARNING)") = "error"%string.
Proof.
  destruct (log_level_survives_context (str "[12:00:01] ") (str "ERROR: failed")
              (str " (WARNING)")) as [H _].
  apply H. vm_compute. reflexivity.
Defined.

(** X17: the two helpers that cut a long text.  A text of at most
    [maxLen] code units (400 for an answer) is shown as it is, and so is
    an answer once it is expanded; a longer one keeps its first [maxLen]
    code units and gets three dots, so that what is shown never has more
    than [maxLen + 3] code units. *)
Theorem long_texts_are_cut text maxLen :
  0 ≤ maxLen →
  ((Z.of_nat (length text) ≤ maxLen → truncateText (Some text) maxLen = text) ∧
   Z.of_nat (length (truncateText (Some text) maxLen)) ≤ maxLen + 3 ∧
   take (Z.to_nat maxLen) (truncateText (Some text) maxLen) = take (Z.to_nat maxLen) text) ∧
  (formatAnswer (Some text) true = text ∧
   ((length text ≤ 400)%nat → formatAnswer (Some text) false = text) ∧
   (length (formatAnswer (Some text) false) ≤ 403)%nat ∧
   take 400 (formatAnswer (Some text) false) = take 400 text).
Proof.
  intros Hm. split.
  - unfold truncateText, substring0.
    destruct text as [|c t]; simpl truthy; cbn [negb].
    { split_and!; [done|simpl; lia|by rewrite take_nil]. }
    destruct (Z.leb_spec (Z.of_nat (length (c :: t))) maxLen) as [Hle|Hgt].
    + split_and!; [done|lia|done].
    + split_and!; [lia| |].
      * rewrite length_app, length_take. change (length (str "...")) with 3%nat. lia.
      * rewrite take_app_le by (rewrite length_take; lia).
        rewrite take_take. f_equal. lia.
  - unfold formatAnswer, substring0.
    destruct text as [|c t]; simpl truthy; cbn [negb orb].
    { split_and!; [done|done|simpl; lia|done]. }
    destruct (Nat.leb_spec (length (c :: t)) 400) as [Hle|Hgt].
    + split_and!; [done|done|lia|done].
    + split_and!; [done|lia| |].
      * rewrite length_app, length_take. change (length (str "...")) with 3%nat. lia.
      * rewrite take_app_le by (rewrite length_take; lia).
        rewrite take_take. f_equal.
Qed.

Lemma long_texts_are_cut_witness :
  truncateText (Some (str "abcdefgh")) 3 = str "abc..." ∧
  truncateText (Some (str "abc")) 3 = str "abc".
Proof.
  destruct (long_texts_are_cut (str "abcdefgh") 3 ltac:(lia)) as ((_ & _ & H1) & _).
  destruct (long_texts_are_cut (str "abc") 3 ltac:(lia)) as ((H2 & _) & _).
  split.
  - clear H2. vm_compute in H1. vm_compute. reflexivity.
  - apply H2. vm_compute. discriminate.
Defined.

Lemma apply_entry_currentSectionIndex st log :
  currentSectionIndex (apply_entry st log)
  = default (currentSectionIndex st) (section_event log).
Proof.
  unfold_entry. unfold section_event.
  destruct (is_action log "section_complete") eqn:E1.
  - case_entry; reflexivity.
  - destruct (is_action log "section_start") eqn:E2; case_entry; reflexivity.
Qed.

(** X18: the section marked as current is the one of the last
    [section_start] entry, unless a [section_complete] entry, for
    whatever section, has come after it. *)
Theorem current_section_is_last_event st logs :
  currentSectionIndex (apply_entries st logs)
  = default (currentSectionIndex st) (last (omap section_event logs)).
Proof.
  unfold apply_entries.
  revert st. induction logs as [|log logs IH] using rev_ind; intros st.
  - reflexivity.
  - rewrite foldl_snoc, apply_entry_currentSectionIndex, omap_app. simpl.
    destruct (section_event log) as [c|].
    + simpl. by rewrite last_snoc.
    + simpl. rewrite app_nil_r. apply IH.
Qed.

End Ingestion.

(** ** Texts that a pattern cannot match *)

Section Reads.
Import Js Regex.
Local Open Scope nat_scope.

Lemma lacks_In lits s l : lacks lits s = true → In l lits → includes s l = false.
Proof.
  unfold lacks. rewrite forallb_forall. intros H Hin.
  specialize (H l Hin). by apply negb_true_iff.
Qed.

Lemma rmatch_reads ml lits r :
  reads_one_of lits r = true →
  ∀ x k, lacks lits (text_of x) = true → rmatch ml r x k = None.
Proof.
  induction r as [|cs|s|r1 IH1 r2 IH2|r1 IH1 r2 IH2|g mn mx r IH|i r IH|r IH| |];
    intros Hr x k Hx; simpl in Hr; try done.
  - apply existsb_exists in Hr as (l & Hl & Hs). simpl.
    destruct (strip_prefix s (suf x)) as [t|] eqn:paragraph_close; [|done].
    apply strip_prefix_app in paragraph_close.
    pose proof (lacks_In _ _ _ Hx Hl) as Hn.
    unfold text_of in Hn. rewrite paragraph_close in Hn.
    by rewrite (includes_middle _ _ _ _ Hs) in Hn.
  - simpl. apply orb_prop in Hr as [Hr|Hr]; [by apply IH1|].
    destruct (rmatch ml r1 x _) as [z|] eqn:Hm; [|done].
    apply rmatch_advances in Hm as (y & Hy & [Ht _]).
    rewrite IH2 in Hy; [done|done|by rewrite Ht].
  - simpl. apply andb_prop in Hr as [Hr1 Hr2]. by rewrite IH1, IH2.
  - destruct mn as [|mn]; [done|]. simpl.
    replace (mn + length (suf x) + 1) with (S (mn + length (suf x))) by lia.
    simpl. destruct mx as [[|mx]|]; [done|by apply IH..].
  - simpl. by apply IH.
  - simpl. by rewrite IH.
Qed.

Lemma search_reads ml lits r p s :
  reads_one_of lits r = true → lacks lits (rev p ++ s) = true → search ml r p s = None.
Proof.
  intros Hr. revert p. induction s as [|c t IH]; intros p Hs.
  - simpl. by rewrite (rmatch_reads ml lits r Hr).
  - cbn [search]. rewrite (rmatch_reads ml lits r Hr) by done.
    apply IH. simpl. by rewrite <- app_assoc.
Qed.

Lemma String_match_reads lits s re :
  reads_one_of lits (source re) = true → lacks lits s = true → String_match s re = None.
Proof. intros Hr Hs. unfold String_match, exec. by apply (search_reads _ lits). Qed.

Lemma String_replace_reads lits s re tmpl :
  reads_one_of lits (source re) = true → lacks lits s = true → String_replace s re tmpl = s.
Proof.
  intros Hr Hs. unfold String_replace, all_matches, exec.
  destruct (global re); simpl; by rewrite (search_reads _ lits).
Qed.

End Reads.

Section PlainText.
Import Js Regex Markdown.
Local Open Scope nat_scope.

Lemma lacks_sub lits lits' s :
  (∀ l, In l lits' → In l lits) → lacks lits s = true → lacks lits' s = true.
Proof.
  unfold lacks. rewrite !forallb_forall. auto.
Qed.

(** A literal that starts with a code unit [c] occurs in [t ++ e] only
    inside [e] when [c] does not occur in [t]. *)
Lemma includes_skip c l t e :
  ¬ In c t → includes (t ++ e) (c :: l) = includes e (c :: l).
Proof.
  induction t as [|b t IH]; intros Hn; [done|].
  simpl in Hn. cbn [app includes]. rewrite IH by tauto.
  unfold startsWith. cbn [strip_prefix].
  destruct (N.eqb_spec c b) as [->|]; [tauto|]. done.
Qed.

Lemma includes_single c t : includes t [c] = false → ¬ In c t.
Proof.
  induction t as [|b t IH]; [by intros _ []|].
  cbn [includes]. unfold startsWith. cbn [strip_prefix].
  destruct (N.eqb_spec c b) as [->|Hne]; [done|].
  simpl. intros Hi [->|Hin]; [done|]. by apply IH.
Qed.

Lemma strip_prefix_same a l s : strip_prefix (a ++ l) (a ++ s) = strip_prefix l s.
Proof. induction a as [|c a IH]; [done|]. cbn [app strip_prefix]. by rewrite N.eqb_refl. Qed.

Lemma wrapped_includes t l :
  ¬ In 60%N t →
  includes (paragraph_open ++ t ++ paragraph_close) (60%N :: l)
  = startsWith (paragraph_open ++ t ++ paragraph_close) (60%N :: l) || includes paragraph_close (60%N :: l).
Proof.
  intros Ht.
  assert (HP : ∃ paragraph_open', paragraph_open = 60%N :: paragraph_open' ∧ ¬ In 60%N paragraph_open').
  { eexists. split; [vm_compute; reflexivity|].
    intros Hin. repeat (destruct Hin as [Hin|Hin]; [discriminate Hin|]). exact Hin. }
  destruct HP as (paragraph_open' & HP & HP'). rewrite HP.
  cbn [app includes]. f_equal. rewrite app_assoc. apply includes_skip.
  rewrite in_app_iff. tauto.
Qed.

Lemma wrapped_lacks t l :
  ¬ In 60%N t →
  In l block_tags →
  includes (paragraph_open ++ t ++ paragraph_close) l = false.
Proof.
  intros Ht Hl. simpl in Hl.
  repeat (destruct Hl as [<-|Hl];
          [match goal with |- includes _ ?l = _ =>
             let l' := eval vm_compute in l in change l with l' end;
           rewrite wrapped_includes by done; vm_compute; reflexivity|]).
  done.
Qed.

Lemma wrapped_lacks_empty t :
  ¬ In 60%N t → truthy t = true → includes (paragraph_open ++ t ++ paragraph_close) (paragraph_open ++ paragraph_close) = false.
Proof.
  intros Ht Hne. destruct t as [|c t]; [done|].
  assert (Hc : (60 =? c)%N = false).
  { apply N.eqb_neq. intros <-. apply Ht. by left. }
  assert (HP : ∃ paragraph_open', paragraph_open = 60%N :: paragraph_open') by (eexists; vm_compute; reflexivity).
  destruct HP as (paragraph_open' & HP).
  pose proof (wrapped_includes (c :: t) (paragraph_open' ++ paragraph_close) Ht) as Hw.
  replace (60%N :: paragraph_open' ++ paragraph_close) with (paragraph_open ++ paragraph_close) in Hw by (by rewrite HP).
  rewrite Hw. unfold startsWith at 1. rewrite strip_prefix_same.
  assert (HE : ∃ paragraph_close', paragraph_close = 60%N :: paragraph_close') by (eexists; vm_compute; reflexivity).
  destruct HE as (paragraph_close' & HE). rewrite HE at 1. cbn [app strip_prefix]. rewrite Hc.
  vm_compute. reflexivity.
Qed.


Ltac skip_pass Hm :=
  match goal with
  | |- context [pass ?re ?tmpl ?s] =>
    replace (pass re tmpl s) with s
      by (symmetry; apply (String_replace_reads marks); [vm_compute; reflexivity|exact Hm])
  end.

(** X19: a text without any mark of the markdown syntax is rendered as one
    paragraph that holds the text as it is. *)
Theorem plain_text_is_one_paragraph t :
  truthy t = true →
  lacks marks t = true →
  renderMarkdown t = strq "<p class='md-p'>" ++ t ++ str "</p>".
Proof.
  intros Hne Hm. unfold renderMarkdown. rewrite Hne. cbn [negb].
  do 18 skip_pass Hm.
  assert (Hlt : ¬ In 60%N t).
  { apply includes_single. apply (lacks_In marks); [done|]. vm_compute. tauto. }
  fold paragraph_open paragraph_close.
  assert (Hw : ∀ lits,
            (∀ l, In l lits → In l block_tags) →
            lacks lits (paragraph_open ++ t ++ paragraph_close) = true).
  { intros lits Hsub. unfold lacks. apply forallb_forall. intros l Hl.
    apply negb_true_iff, wrapped_lacks; auto. }
  unfold pass at 5.
  rewrite (String_replace_reads [paragraph_open ++ paragraph_close]);
    [|vm_compute; reflexivity
     |unfold lacks; cbn [forallb]; by rewrite wrapped_lacks_empty].
  unfold pass at 4.
  rewrite (String_replace_reads [str "<h"]);
    [|vm_compute; reflexivity|apply Hw; unfold block_tags; simpl; tauto].
  unfold pass at 3.
  rewrite (String_replace_reads [str "</h"]);
    [|vm_compute; reflexivity|apply Hw; unfold block_tags; simpl; tauto].
  unfold pass at 2.
  rewrite (String_replace_reads (map str ["<ul"; "<ol"; "<blockquote"; "<pre"; "<hr"]));
    [|vm_compute; reflexivity|apply Hw; unfold block_tags; simpl; tauto].
  unfold pass.
  rewrite (String_replace_reads (map str ["</ul>"; "</ol>"; "</blockquote>"; "</pre>"]));
    [|vm_compute; reflexivity|apply Hw; unfold block_tags; simpl; tauto].
  reflexivity.
Qed.

Lemma plain_text_is_one_paragraph_witness :
  renderMarkdown (str "The model converged after 12 rounds, as expected")
  = strq "<p class='md-p'>The model converged after 12 rounds, as expected</p>".
Proof.
  rewrite (plain_text_is_one_paragraph (str "The model converged after 12 rounds, as expected"))
    by (vm_compute; reflexivity).
  vm_compute. reflexivity.
Defined.

End PlainText.

(** ** Answers shown question by question *)

Section InterviewDisplayFacts.
Import Js Regex Patterns InterviewDisplay.
Local Open Scope nat_scope.

Lemma split_loop_length todo : ∀ i qc parts rem,
  length (split_loop todo i qc parts rem) ≤ length parts + todo
  ∧ (∀ p, In p parts → In p (split_loop todo i qc parts rem)).
Proof.
  induction todo as [|todo IH]; intros i qc parts rem; simpl; [split; [lia|done]|].
  destruct (String_match rem (nextPattern (i + 1))) as [m|].
  - destruct (IH (S i) qc (parts ++ [strip_prefix_number i (trim (take (length (before m)) rem))])
                (trim (drop (length (before m)) rem))) as [Hl Hin].
    rewrite length_app in Hl. simpl in Hl. split; [lia|].
    intros p Hp. apply Hin, in_app_iff. by left.
  - destruct (i =? qc).
    + destruct (IH (S i) qc (parts ++ [strip_prefix_number i rem]) rem) as [Hl Hin].
      rewrite length_app in Hl. simpl in Hl. split; [lia|].
      intros p Hp. apply Hin, in_app_iff. by left.
    + destruct (IH (S i) qc parts rem) as [Hl Hin]. split; [lia|done].
Qed.

(** X20: the list of parts of an answer is never empty, has no more parts
    than there are questions (one when there is no question), and, for an
    answer that is not empty, holds a part that is not empty.  What
    follows the mark of a question beyond the last one is not kept
    ([split_stops_at_the_last_question] below). *)
Theorem split_gives_parts answerText questionCount :
  let parts := splitAnswerByQuestions answerText questionCount in
  1 ≤ length parts ≤ Nat.max 1 questionCount ∧
  (truthy answerText = true → ∃ p, In p parts ∧ truthy p = true).
Proof.
  intros parts. subst parts. unfold splitAnswerByQuestions.
  destruct (negb (truthy answerText) || (questionCount <=? 0)) eqn:E1.
  { split; [simpl; lia|]. intros Ht. exists answerText. split; [by left|done]. }
  set (parts := split_loop questionCount 1 questionCount [] answerText).
  destruct ((length parts =? 0) || forallb (λ p, negb (truthy p)) parts) eqn:E2.
  { split; [simpl; lia|]. intros Ht. exists answerText. split; [by left|done]. }
  apply orb_false_elim in E2 as [Hlen Hall]. apply Nat.eqb_neq in Hlen.
  split.
  - destruct (split_loop_length questionCount 1 questionCount [] answerText) as [Hl _].
    fold parts in Hl. simpl in Hl. lia.
  - intros _.
    assert (Hex : existsb truthy parts = true).
    { clear -Hall. induction parts as [|p parts IH]; simpl in *; [done|].
      destruct (truthy p); simpl in *; [done|auto]. }
    apply existsb_exists in Hex as (p & Hp & Ht). by exists p.
Qed.

(** With two questions, the third numbered part of an answer is in no
    part of the list. *)
Example split_stops_at_the_last_question :
  splitAnswerByQuestions (str "1. a\n2. b\n3. c") 2 = [str "a"; str "b"].
Proof. vm_compute. reflexivity. Qed.

Lemma split_loop_one_line rem qc : includes rem (str "\n") = false →
  ∀ todo i parts,
    split_loop todo i qc parts rem
    = parts ++ (if (i <=? qc) && (qc <? i + todo) then [strip_prefix_number qc rem] else []).
Proof.
  intros Hn. induction todo as [|todo IH]; intros i parts; simpl.
  - replace ((i <=? qc) && (qc <? i + 0)) with false; [by rewrite app_nil_r|].
    symmetry. apply andb_false_iff.
    destruct (Nat.leb_spec i qc); [right; apply Nat.ltb_ge; lia|by left].
  - rewrite (String_match_reads [str "\n"]);
      [|vm_compute; reflexivity|unfold lacks; simpl; by rewrite Hn].
    destruct (Nat.eqb_spec i qc) as [->|Hne].
    + rewrite IH, <- app_assoc. f_equal.
      rewrite Nat.leb_refl.
      replace (qc <? qc + S todo) with true by (symmetry; apply Nat.ltb_lt; lia).
      replace (S qc <=? qc) with false by (symmetry; apply Nat.leb_gt; lia).
      done.
    + rewrite IH. f_equal.
      destruct (Nat.leb_spec (S i) qc), (Nat.leb_spec i qc); try lia; simpl.
      * destruct (Nat.ltb_spec qc (S (i + todo))), (Nat.ltb_spec qc (i + S todo)); try lia; done.
      * done.
Qed.

(** X21: an answer written on one line is not split: it is shown whole
    under the first question, and nothing is shown under the others. *)
Theorem one_line_answer_goes_to_first_question interview qIdx platform :
  includes (answer_on interview platform) (str "\n") = false →
  getAnswerForQuestion interview qIdx platform
  = if qIdx =? 0 then answer_on interview platform else [].
Proof.
  intros Hn. unfold getAnswerForQuestion.
  set (answer := answer_on interview platform) in *.
  destruct (truthy answer) eqn:Ht; simpl.
  2: { destruct answer; [|done]. by destruct (qIdx =? 0). }
  set (qc := match length (Interview.questions interview) with 0 => 1 | S _ => _ end).
  assert (Hqc : 1 ≤ qc) by (subst qc; destruct (length _); lia).
  assert (Hlen : length (splitAnswerByQuestions answer qc) = 1).
  { unfold splitAnswerByQuestions. rewrite Ht. simpl.
    replace (qc <=? 0) with false by (symmetry; apply Nat.leb_gt; lia).
    rewrite (split_loop_one_line answer qc Hn).
    replace (qc <? 1 + qc) with true by (symmetry; apply Nat.ltb_lt; lia).
    replace (1 <=? qc) with true by (symmetry; apply Nat.leb_le; lia).
    simpl. match goal with |- context [if ?b then _ else _] => by destruct b end. }
  by rewrite Hlen.
Qed.

Lemma one_line_answer_goes_to_first_question_witness :
  let interview := {| Interview.num := 1; Interview.title := str "Student";
                      Interview.name := str "Zhang"; Interview.role := str "student";
                      Interview.bio := [];
                      Interview.questions := [str "first q"; str "second q"];
                      Interview.twitterAnswer := str "1. yes 2. no";
                      Interview.redditAnswer := []; Interview.quotes := [] |} in
  getAnswerForQuestion interview 0 "twitter" = str "1. yes 2. no" ∧
  getAnswerForQuestion interview 1 "reddit" = [].
Proof.
  intros interview. split.
  - apply (one_line_answer_goes_to_first_question interview 0 "twitter"). vm_compute. reflexivity.
  - apply (one_line_answer_goes_to_first_question interview 1 "reddit"). vm_compute. reflexivity.
Defined.

End InterviewDisplayFacts.

(** ** What the extractors keep *)

Section KeptFacts.
Import Js Regex Effects Patterns.

(** The steps of [interview_of_block] read the block only: they end
    normally whatever the record under construction holds. *)
Lemma questions_of_pure P qText :
  returns P (Interview.questions_of qText) (λ _, True).
Proof.
  unfold Interview.questions_of. destruct (0 <? _)%nat; [|by apply returns_ret].
  destruct (String_match qText Interview.re_first_question) eqn:?.
  - bind_group. by apply returns_ret.
  - by apply returns_ret.
Qed.

Lemma answers_of_pure P answerText :
  returns P (Interview.answers_of answerText) (λ _, True).
Proof.
  unfold Interview.answers_of.
  eapply returns_bind.
  { instantiate (1 := λ _, True).
    destruct (String_match answerText Interview.re_twitter) eqn:?.
    - apply returns_on_group; [group_ok|done].
    - by apply returns_ret. }
  intros tw _.
  eapply returns_bind.
  { instantiate (1 := λ _, True).
    destruct (String_match answerText Interview.re_reddit) eqn:?.
    - apply returns_on_group; [group_ok|done].
    - by apply returns_ret. }
  intros rd _. by apply returns_ret.
Qed.

Lemma interview_of_block_pure P block index :
  returns P (Interview.interview_of_block block index) (λ _, True).
Proof.
  unfold Interview.interview_of_block.
  eapply returns_bind.
  { instantiate (1 := λ _, True).
    destruct (String_match block Interview.re_title) eqn:?.
    - apply returns_on_group; [group_ok|done].
    - by apply returns_ret. }
  intros title _.
  eapply returns_bind.
  { instantiate (1 := λ _, True).
    destruct (String_match block Interview.re_name_role) eqn:?.
    - bind_group. bind_group. by apply returns_ret.
    - by apply returns_ret. }
  intros name_role _.
  eapply returns_bind.
  { instantiate (1 := λ _, True).
    destruct (String_match block Interview.re_bio) eqn:?.
    - apply returns_on_group; [group_ok|done].
    - by apply returns_ret. }
  intros bio _.
  eapply returns_bind.
  { instantiate (1 := λ _, True).
    destruct (String_match block Interview.re_q) eqn:?.
    - bind_group. apply questions_of_pure.
    - by apply returns_ret. }
  intros questions _.
  eapply returns_bind.
  { instantiate (1 := λ _, True).
    destruct (String_match block Interview.re_answer) eqn:?.
    - bind_group. apply answers_of_pure.
    - by apply returns_ret. }
  intros answers _.
  eapply returns_bind.
  { instantiate (1 := λ _, True).
    destruct (String_match block Interview.re_quotes) eqn:?.
    - bind_group. by apply returns_ret.
    - by apply returns_ret. }
  intros quotes _. by apply returns_ret.
Qed.

Lemma forEach_keeps_named blocks index :
  returns Interview.all_named (Interview.forEach blocks index) (λ _, True).
Proof.
  revert index. induction blocks as [|block rest IH]; intros index; simpl.
  - by apply returns_ret.
  - eapply returns_bind; [apply interview_of_block_pure|]. intros interview _.
    eapply returns_bind; [|intros _ _; apply IH].
    instantiate (1 := λ _, True).
    destruct (truthy (Interview.name interview) || truthy (Interview.title interview)) eqn:E.
    + assign. unfold Interview.all_named in *. simpl. apply Forall_app. split; [done|]. by constructor.
    + by apply returns_ret.
Qed.

Lemma Interview_body_named s : returns Interview.all_named (Interview.body (VString s)) (λ _, True).
Proof.
  unfold Interview.body.
  bind_match. bind_when. { bind_group. by assign. }
  bind_match. bind_when. { by assign. }
  bind_match. bind_when. { bind_group. by assign. }
  eapply returns_bind; [apply returns_call_split|]. cbv beta. intros ? ->.
  eapply returns_bind; [apply forEach_keeps_named|]. intros _ _.
  bind_match. apply returns_when_some. intros m Hm. bind_group. by assign.
Qed.

(** X22: [parseInterview] keeps only the records that have a name or a
    title: every record of its result has one, whatever the argument. *)
Theorem interviews_have_a_name_or_a_title (text : value) :
  ∃ r, Interview.parseInterview text = Normal r ∧ Forall Interview.named (Interview.interviews r).
Proof.
  destruct text as [| | | |s|]; try (eexists; split; [reflexivity|by constructor]).
  destruct (extractor_on_string Interview.all_named Interview.empty (Interview.body (VString s)))
    as (r & Hr & Hn & _); [by constructor|apply Interview_body_named|].
  by exists r.
Qed.

Lemma InsightForge_body_names s :
  returns InsightForge.all_have_names (InsightForge.body (VString s)) (λ _, True).
Proof.
  unfold InsightForge.body.
  bind_match. bind_when. { bind_group. by assign. }
  bind_match. bind_match. bind_match.
  bind_when. { by assign. }
  bind_when. { by assign. }
  bind_when. { by assign. }
  bind_match. bind_when. { bind_group. by assign. }
  bind_match. bind_when.
  { bind_group.
    eapply returns_bind.
    { apply (returns_mapM _ _ (λ _, True)). intros l _. unfold InsightForge.fact_of_line.
      destruct (String_match l InsightForge.re_fact_line) eqn:?.
      - apply returns_on_group; [group_ok|done].
      - by apply returns_ret. }
    intros fs _. by assign. }
  bind_match. bind_when.
  { bind_group.
    eapply returns_bind.
    { apply (returns_mapM _ _ (λ _, True)). intros b _. unfold InsightForge.entity_of_block.
      destruct (String_match b InsightForge.re_entity_name) eqn:?.
      - bind_group. bind_group. by apply returns_ret.
      - eapply returns_bind; [apply (returns_ret _ _ (λ _, True)); done|]. intros ? _.
        eapply returns_bind; [apply (returns_ret _ _ (λ _, True)); done|]. intros ? _.
        by apply returns_ret. }
    intros es _. assign. unfold InsightForge.all_have_names.
    change (Forall InsightForge.has_name (slice0 8 (List.filter (λ e, truthy (InsightForge.name e)) es))).
    unfold slice0. apply Forall_take, Forall_forall. intros e He.
    apply list_elem_of_In, filter_In in He as [_ He]. exact He. }
  bind_match. apply returns_when_some. intros m Hm.
  bind_group.
  eapply returns_bind.
  { apply (returns_mapM _ _ (λ _, True)). intros l _. unfold InsightForge.relation_of_line.
    destruct (String_match l InsightForge.re_relation_line) eqn:?.
    - bind_group. bind_group. bind_group. by apply returns_ret.
    - by apply returns_ret. }
  intros rs _. by assign.
Qed.

(** X23: [parseInsightForge] keeps only the entities that have a name. *)
Theorem entities_have_a_name (text : value) :
  ∃ r, InsightForge.parseInsightForge text = Normal r
       ∧ Forall InsightForge.has_name (InsightForge.entities r).
Proof.
  destruct text as [| | | |s|]; try (eexists; split; [reflexivity|by constructor]).
  destruct (extractor_on_string InsightForge.all_have_names InsightForge.empty
              (InsightForge.body (VString s)))
    as (r & Hr & Hn & _); [by constructor|apply InsightForge_body_names|].
  by exists r.
Qed.

End KeptFacts.
